(** * N-body simulation kernels: a shallow embedding

    The CUDA source works on IEEE 754 numbers: [float] (binary32) for all
    stored data and [double] (binary64) wherever an unsuffixed literal or one of
    the macros [G], [EPSILON] takes part in an expression.  Both formats are
    modelled by the Standard Library's executable [spec_float], every operation
    rounding to nearest-even once (no fused multiply-add contraction).

    Arrays in device memory are lists updated by index.  A kernel is the
    function one thread runs: it takes the by-value and read-only arguments of
    the source in their order, then the thread, then the memory it writes,
    which it returns.  A launch runs that function for every thread of the
    grid, in some order.  The host functions come twice: [initSimulation],
    [stepSimulation] and [copyPlanetsToVBO] are what their launches leave when
    the runtime accepts them; [Nbody_initSimulation], [Nbody_stepSimulation]
    and [Nbody_copyPlanetsToVBO] add the runtime's verdict on every launch and
    the [checkCUDAError] that follows it. *)

From Stdlib Require Import ZArith Lia Bool SpecFloat.
From stdpp Require Import base numbers list list_numbers.

Local Open Scope Z_scope.
Set Default Proof Using "Type".

(** ** Machine integers *)

(** [unsigned int] is 32 bits wide; arithmetic on it wraps around. *)
Definition wrap32 (a : Z) : Z := a mod 2 ^ 32.

Definition INT_MAX : Z := 2 ^ 31 - 1.
Definition INT_MIN : Z := - 2 ^ 31.

(** ** Floating-point formats *)

Module F32.
Definition prec : Z := 24.
Definition emax : Z := 128.
Definition add := SFadd prec emax.
Definition sub := SFsub prec emax.
Definition mul := SFmul prec emax.
Definition div := SFdiv prec emax.
Definition sqrt := SFsqrt prec emax.
(** Rounds the number [m * 2^e] into the format. *)
Definition round (m e : Z) (szero : bool) : spec_float :=
  binary_normalize prec emax m e szero.
Definition valid := valid_binary prec emax.
End F32.

Module F64.
Definition prec : Z := 53.
Definition emax : Z := 1024.
Definition add := SFadd prec emax.
Definition sub := SFsub prec emax.
Definition mul := SFmul prec emax.
Definition div := SFdiv prec emax.
Definition sqrt := SFsqrt prec emax.
Definition round (m e : Z) (szero : bool) : spec_float :=
  binary_normalize prec emax m e szero.
Definition valid := valid_binary prec emax.
End F64.

(** A [float] and a [double] are both carried by [spec_float]; the two names
    record which format a value is meant in. *)
Definition float : Type := spec_float.
Definition double : Type := spec_float.

(** The comparison [a > b] of C: false as soon as one side is a NaN. *)
Definition gtb (a b : spec_float) : bool := SFltb b a.

(** Implicit conversion of an [int] to [float] / [double]. *)
Definition float_of_int (z : Z) : float := F32.round z 0 false.
Definition double_of_int (z : Z) : double := F64.round z 0 false.

(** Promotion [float -> double] (exact) and the rounding conversion back. *)
Definition double_of_float (x : float) : double :=
  match x with
  | S754_finite s m e => F64.round (cond_Zopp s (Zpos m)) e s
  | _ => x
  end.

Definition float_of_double (x : double) : float :=
  match x with
  | S754_finite s m e => F32.round (cond_Zopp s (Zpos m)) e s
  | _ => x
  end.

(** The conversion [(int) x] truncates toward zero.  C leaves NaN and
    out-of-range operands undefined; device code converts with
    [cvt.rzi.s32.f32], which yields 0 for NaN and saturates otherwise. *)
Definition int_of_float (x : float) : Z :=
  match x with
  | S754_zero _ => 0
  | S754_nan => 0
  | S754_infinity s => if s then INT_MIN else INT_MAX
  | S754_finite s m e =>
      Z.max INT_MIN (Z.min INT_MAX (cond_Zopp s (Z.shiftl (Zpos m) e)))
  end.

(** Conversion [int -> unsigned int]: reduction modulo 2^32. *)
Definition unsigned_of_int (z : Z) : Z := wrap32 z.

(** A decimal literal [n e-k] of type [double]: the double nearest to
    [n / 10^k].  One correctly rounded division gives it as long as [n] and
    [10^k] are themselves doubles ([n < 2^53], [k <= 22]). *)
Definition double_lit (n : Z) (k : Z) : double :=
  F64.div (double_of_int n) (double_of_int (10 ^ k)).

(** ** Vectors: [glm::vec3] *)

Record vec3 : Type := mkvec3 { vx : float; vy : float; vz : float }.

Global Instance vec3_inhabited : Inhabited vec3 :=
  populate (mkvec3 (S754_zero false) (S754_zero false) (S754_zero false)).

Module glm.
(** GLM is a header library the kernels include, not part of the sources.
    The [vec3] operators and geometric functions the kernels call are written
    out after its generic definitions: component-wise operators, [dot] as the
    sum of the three products, [length v = sqrt (dot v v)],
    [distance p0 p1 = length (p1 - p0)],
    [normalize v = v * inversesqrt (dot v v)] and
    [inversesqrt x = 1 / sqrt x]. *)
Definition vec3_of_ints (x y z : Z) : vec3 :=
  mkvec3 (float_of_int x) (float_of_int y) (float_of_int z).
Definition add (a b : vec3) : vec3 :=
  mkvec3 (F32.add (vx a) (vx b)) (F32.add (vy a) (vy b)) (F32.add (vz a) (vz b)).
Definition sub (a b : vec3) : vec3 :=
  mkvec3 (F32.sub (vx a) (vx b)) (F32.sub (vy a) (vy b)) (F32.sub (vz a) (vz b)).
(** [v * s] and [s * v] *)
Definition scale_r (v : vec3) (s : float) : vec3 :=
  mkvec3 (F32.mul (vx v) s) (F32.mul (vy v) s) (F32.mul (vz v) s).
Definition scale_l (s : float) (v : vec3) : vec3 :=
  mkvec3 (F32.mul s (vx v)) (F32.mul s (vy v)) (F32.mul s (vz v)).
(** [v / s] *)
Definition div (v : vec3) (s : float) : vec3 :=
  mkvec3 (F32.div (vx v) s) (F32.div (vy v) s) (F32.div (vz v) s).
Definition dot (a b : vec3) : float :=
  F32.add (F32.add (F32.mul (vx a) (vx b)) (F32.mul (vy a) (vy b)))
          (F32.mul (vz a) (vz b)).
Definition length (v : vec3) : float := F32.sqrt (dot v v).
Definition distance (p0 p1 : vec3) : float := length (sub p1 p0).
Definition inversesqrt (x : float) : float :=
  F32.div (float_of_int 1) (F32.sqrt x).
Definition normalize (v : vec3) : vec3 := scale_r v (inversesqrt (dot v v)).
Definition cross (x y : vec3) : vec3 :=
  mkvec3 (F32.sub (F32.mul (vy x) (vz y)) (F32.mul (vy y) (vz x)))
         (F32.sub (F32.mul (vz x) (vx y)) (F32.mul (vz y) (vx x)))
         (F32.sub (F32.mul (vx x) (vy y)) (F32.mul (vx y) (vy x))).
End glm.

(** ** Configuration *)

Definition blockSize : Z := 128.
(** [#define planetMass 3e8f], [#define starMass 5e10f] *)
Definition planetMass : float := float_of_int (3 * 10 ^ 8).
Definition starMass : float := float_of_int (5 * 10 ^ 10).
(** [const float scene_scale = 1e2;] *)
Definition scene_scale : float := float_of_double (double_of_int 100).

(** ** initSimulation: the integer hash *)

Definition hash (a : Z) : Z :=
  let a := wrap32 (wrap32 (a + 0x7ed55d16) + wrap32 (Z.shiftl a 12)) in
  let a := Z.lxor (Z.lxor a 0xc761c23c) (Z.shiftr a 19) in
  let a := wrap32 (wrap32 (a + 0x165667b1) + wrap32 (Z.shiftl a 5)) in
  let a := Z.lxor (wrap32 (a + 0xd3a2646c)) (wrap32 (Z.shiftl a 9)) in
  let a := wrap32 (wrap32 (a + 0xfd7046c5) + wrap32 (Z.shiftl a 3)) in
  let a := Z.lxor (Z.lxor a 0xb55a4f09) (Z.shiftr a 16) in
  a.

(** The seed [hash((int)(index * time))] that [generateRandomVec3] hands to
    the random engine: a [float] product, truncated to [int], taken as
    [unsigned int]. *)
Definition seed_of (time : float) (index : Z) : Z :=
  hash (unsigned_of_int (int_of_float (F32.mul (float_of_int index) time))).

(** ** Threads and kernel launches *)

(** The built-in coordinates one thread of a one-dimensional launch sees. *)
Record thread : Type := mkthread { blockIdx : Z; blockDim : Z; threadIdx : Z }.

(** Conversion [unsigned int -> int] (two's complement). *)
Definition int_of_unsigned (u : Z) : Z := if u <? 2 ^ 31 then u else u - 2 ^ 32.

(** [(blockIdx.x * blockDim.x) + threadIdx.x], computed on [unsigned int] and
    stored into an [int]. *)
Definition global_index (t : thread) : Z :=
  int_of_unsigned (wrap32 (wrap32 (blockIdx t * blockDim t) + threadIdx t)).

(** The threads of [<<<gridDim, blockDim>>>]. *)
Definition grid (gridDim blockDim : Z) : list thread :=
  b ← seqZ 0 gridDim; (λ t, mkthread b blockDim t) <$> seqZ 0 blockDim.

(** Running a kernel: every thread of the schedule runs the kernel body on the
    device memory [M] it touches.  [launch] takes the threads block by block;
    [launch_on] takes them in any given order. *)
Definition launch_on {M : Type} (sched : list thread) (k : thread → M → M) (m : M) : M :=
  foldl (λ m t, k t m) m sched.

Definition launch {M : Type} (gridDim blockDim : Z) (k : thread → M → M) (m : M) : M :=
  launch_on (grid gridDim blockDim) k m.

(** [dim3 fullBlocksPerGrid((N + blockSize - 1) / blockSize)] *)
Definition fullBlocksPerGrid (N : Z) : Z := Z.quot (N + blockSize - 1) blockSize.

(** Stores into one field of [arr[i]]. *)
Definition store_x (i : Z) (v : float) (arr : list vec3) : list vec3 :=
  alter (λ p, mkvec3 v (vy p) (vz p)) (Z.to_nat i) arr.
Definition store_y (i : Z) (v : float) (arr : list vec3) : list vec3 :=
  alter (λ p, mkvec3 (vx p) v (vz p)) (Z.to_nat i) arr.
Definition store_z (i : Z) (v : float) (arr : list vec3) : list vec3 :=
  alter (λ p, mkvec3 (vx p) (vy p) v) (Z.to_nat i) arr.

(** Reading [arr[i]]; outside the array C gives no meaning to the read, here
    it yields the default vector. *)
Definition load (arr : list vec3) (i : Z) : vec3 := arr !!! Z.to_nat i.

(** Kernel state: [numObjects] and the three device arrays. *)
Record state : Type := mkstate {
    numObjects : Z;
    dev_pos : list vec3;
    dev_vel : list vec3;
    dev_acc : list vec3
  }.

(** [cudaMalloc] of [N] vectors: a fresh array whose contents are whatever the
    memory held, given here by [junk]. *)
Definition cudaMalloc (N : Z) (junk : nat → vec3) : list vec3 :=
  junk <$> seq 0 (Z.to_nat N).

(** ** Vocabulary of the statements *)

Definition origin : vec3 := glm.vec3_of_ints 0 0 0.

Definition is_zero (x : spec_float) : bool :=
  match x with S754_zero _ => true | _ => false end.

Definition is_nan (x : spec_float) : bool :=
  match x with S754_nan => true | _ => false end.

Definition is_finite (x : spec_float) : bool :=
  match x with S754_zero _ | S754_finite _ _ _ => true | _ => false end.

Definition vec3_finite (v : vec3) : bool :=
  is_finite (vx v) && is_finite (vy v) && is_finite (vz v).

(** Two floats denote the same number: they are the same datum, or both are
    zeros (of either sign). *)
Definition feq (a b : float) : Prop := a = b ∨ (is_zero a = true ∧ is_zero b = true).
Definition veq (u v : vec3) : Prop :=
  feq (vx u) (vx v) ∧ feq (vy u) (vy v) ∧ feq (vz u) (vz v).

(** A draw of the unit distribution: a float of the format, of magnitude at
    most 1. *)
Definition unit_draw (x : float) : bool :=
  F32.valid x && SFleb (SFabs x) (float_of_int 1).

(** What [n] shifts of [shr_1] keep of the integer [m0]: the quotient by
    [2^n] in [shr_m], a remainder [rem] that is lost, and round and sticky
    bits that are set only when something was lost. *)
Definition shr_inv (m0 n : Z) (mrs : shr_record) : Prop :=
  0 ≤ shr_m mrs ∧
  ∃ rem, 0 ≤ rem < 2 ^ n ∧ m0 = shr_m mrs * 2 ^ n + rem
         ∧ (shr_r mrs || shr_s mrs = true → 0 < rem).

(** The squared distance [accelOne] tests, and the threshold it tests against. *)
Definition squared_distance (planet other : vec3) : float :=
  let r := glm.distance planet other in F32.mul r r.
Definition threshold : double := double_lit 1 1.

(** State on which the kernels stay inside their arrays and inside [int]. *)
Record wf_state (st : state) : Prop := mkwf {
    wf_N_lo : 0 ≤ numObjects st;
    wf_N_hi : numObjects st + blockSize - 1 ≤ INT_MAX;
    wf_pos : length (dev_pos st) = Z.to_nat (numObjects st);
    wf_vel : length (dev_vel st) = Z.to_nat (numObjects st);
    wf_acc : length (dev_acc st) = Z.to_nat (numObjects st)
  }.

(** A schedule for a launch over [N] bodies: the threads of the grid the host
    code asks for, in any order. *)
Definition schedule_of (N : Z) (sched : list thread) : Prop :=
  sched ≡ₚ grid (fullBlocksPerGrid N) blockSize.

(** Array-writing kernels: thread [i] stores [f i] into [arr[i]] when [i < N]
    and does nothing else. *)
Definition writes (N : Z) (f : Z → vec3) (k : thread → list vec3 → list vec3) : Prop :=
  ∀ t arr j, 0 ≤ global_index t →
    k t arr !! j =
    if decide (Z.of_nat j = global_index t ∧ global_index t < N)
    then (λ _, f (global_index t)) <$> arr !! j else arr !! j.

(** ** Vocabulary of the further properties *)

(** [-v], component by component. *)
Definition vopp (v : vec3) : vec3 :=
  mkvec3 (SFopp (vx v)) (SFopp (vy v)) (SFopp (vz v)).

(** Some, respectively every, coordinate is a NaN. *)
Definition has_nan (v : vec3) : bool :=
  is_nan (vx v) || is_nan (vy v) || is_nan (vz v).
Definition all_nan (v : vec3) : bool :=
  is_nan (vx v) && is_nan (vy v) && is_nan (vz v).

(** The sign bit of a float; a NaN has none. *)
Definition sign_bit (x : spec_float) : option bool :=
  match x with
  | S754_zero s | S754_infinity s | S754_finite s _ _ => Some s
  | S754_nan => None
  end.

(** ** The runtime's errors and the ways out of a host function *)

(** The values of [cudaError_t] the host code can meet.  The device of the
    model has room for every allocation, so the failure that is left is a
    launch the runtime refuses. *)
Inductive cudaError_t : Type := cudaSuccess | cudaErrorInvalidConfiguration.

(** A host function returns, or it leaves the process through [exit]. *)
Inductive outcome (A : Type) : Type :=
| Returns (a : A)
| Exits (status : Z).

Arguments Returns {A} a.
Arguments Exits {A} status.

Definition EXIT_FAILURE : Z := 1.

(** [checkCUDAError]: [err] is what [cudaGetLastError] returns.  On an error
    the function prints to [stderr], which is not modelled, and calls
    [exit(EXIT_FAILURE)]; otherwise the caller goes on with [rest]. *)
Definition checkCUDAError {A : Type} (err : cudaError_t) (rest : outcome A) : outcome A :=
  match err with
  | cudaSuccess => rest
  | cudaErrorInvalidConfiguration => Exits EXIT_FAILURE
  end.

(** A launch [<<<gridDim, blockDim>>>] as the runtime takes it: a grid or a
    block without threads, and a block of more than 1024 threads, are
    refused; no thread runs then and the error is recorded.  Otherwise the
    kernel runs. *)
Definition cudaLaunchKernel {M : Type} (gridDim blockDim : Z)
    (k : thread → M → M) (m : M) : cudaError_t * M :=
  if (0 <? gridDim) && (0 <? blockDim) && (blockDim <=? 1024)
  then (cudaSuccess, launch gridDim blockDim k m)
  else (cudaErrorInvalidConfiguration, m).

(** ** Reference values for the parameters

    Values with which the development is exercised: the usual gravitational
    constant and epsilon, and an engine that replays a given list of draws. *)

Definition G_ref : double := double_lit 667384 16.
Definition EPSILON_ref : double := double_lit 1 9.

Definition replay_engine : Type := list float.
Definition replay_draw (rng : replay_engine) : float * replay_engine :=
  match rng with
  | [] => (S754_zero false, [])
  | x :: rng => (x, rng)
  end.

Definition replay_seed (draws : list float) (_ : Z) : replay_engine := draws.

(** The float [m * 2^e]. *)
Definition dyadic (m e : Z) : float := F32.round m e false.

(** Memory that was never written. *)
Definition junk_nan (_ : nat) : vec3 := mkvec3 S754_nan S754_nan S754_nan.
Definition junk_one (_ : nat) : vec3 := glm.vec3_of_ints 1 1 1.

Section Kernels.

(** [G] and [EPSILON] are macros of utilityCore.hpp, which is not among the
    sources: unsuffixed literals, hence of type [double]. *)
Variable G : double.
Variable EPSILON : double.

(** [thrust::default_random_engine] and
    [thrust::uniform_real_distribution<float>(-1, 1)] belong to the Thrust
    library, not to the sources: an engine state built from an unsigned seed,
    and a draw that returns a float and advances the engine. *)
Variable default_random_engine : Type.
Variable rng_seed : Z → default_random_engine.
Variable unitDistrib : default_random_engine → float * default_random_engine.

(** *** initSimulation *)

(** C++ leaves the order of the three draws open; they are taken here in the
    order the arguments are written. *)
Definition generateRandomVec3 (time : float) (index : Z) : vec3 :=
  let rng := rng_seed (seed_of time index) in
  let '(x, rng) := unitDistrib rng in
  let '(y, rng) := unitDistrib rng in
  let '(z, rng) := unitDistrib rng in
  mkvec3 x y z.

Definition kernGenerateRandomPosArray (time N : Z) (scale mass : float)
    (t : thread) (arr : list vec3) : list vec3 :=
  let index := global_index t in
  if index <? N then
    let rand := generateRandomVec3 (float_of_int time) index in
    let arr := store_x index (F32.mul scale (vx rand)) arr in
    let arr := store_y index (F32.mul scale (vy rand)) arr in
    (* [sqrt] of a [float] is the [float] overload; the product with the
       [double] literal is formed in [double] and stored as [float] *)
    let arr := store_z index
      (float_of_double
         (F64.mul
            (F64.mul
               (F64.mul (double_lit 1 1) (double_of_float scale))
               (double_of_float
                  (F32.sqrt (F32.add (F32.mul (vx rand) (vx rand))
                                     (F32.mul (vy rand) (vy rand))))))
            (double_of_float (vz rand)))) arr in
    arr
  else arr.

Definition kernGenerateCircularVelArray (time N : Z) (pos : list vec3)
    (t : thread) (arr : list vec3) : list vec3 :=
  let index := global_index t in
  if index <? N then
    let R := mkvec3 (vx (load pos index)) (vy (load pos index)) (vz (load pos index)) in
    let r := float_of_double (F64.add (double_of_float (glm.length R)) EPSILON) in
    let s := float_of_double
               (F64.sqrt (F64.div (F64.mul G (double_of_float starMass))
                                  (double_of_float r))) in
    let D := glm.normalize (glm.cross (glm.div R r) (glm.vec3_of_ints 0 0 1)) in
    let arr := store_x index (F32.mul s (vx D)) arr in
    let arr := store_y index (F32.mul s (vy D)) arr in
    let arr := store_z index (F32.mul s (vz D)) arr in
    arr
  else arr.

(** The two launches go to the same stream, so the second starts after the
    first has finished. *)
Definition initSimulation_on (sched_pos sched_vel : list thread) (N : Z)
    (junk_pos junk_vel junk_acc : nat → vec3) : state :=
  let numObjects := N in
  let dev_pos := cudaMalloc N junk_pos in
  let dev_vel := cudaMalloc N junk_vel in
  let dev_acc := cudaMalloc N junk_acc in
  let dev_pos :=
    launch_on sched_pos
      (kernGenerateRandomPosArray 1 numObjects scene_scale planetMass) dev_pos in
  let dev_vel :=
    launch_on sched_vel (kernGenerateCircularVelArray 2 numObjects dev_pos) dev_vel in
  mkstate numObjects dev_pos dev_vel dev_acc.

Definition initSimulation (N : Z) (junk_pos junk_vel junk_acc : nat → vec3) : state :=
  initSimulation_on (grid (fullBlocksPerGrid N) blockSize)
                    (grid (fullBlocksPerGrid N) blockSize)
                    N junk_pos junk_vel junk_acc.

(** *** copyPlanetsToVBO *)

Definition kernCopyPlanetsToVBO (N : Z) (pos : list vec3) (s_scale : float)
    (t : thread) (vbo : list float) : list float :=
  let index := global_index t in
  let c_scale := F32.div (float_of_int (-1)) s_scale in
  if index <? N then
    let vbo := <[Z.to_nat (4 * index + 0) := F32.mul (vx (load pos index)) c_scale]> vbo in
    let vbo := <[Z.to_nat (4 * index + 1) := F32.mul (vy (load pos index)) c_scale]> vbo in
    let vbo := <[Z.to_nat (4 * index + 2) := F32.mul (vz (load pos index)) c_scale]> vbo in
    let vbo := <[Z.to_nat (4 * index + 3) := float_of_int 1]> vbo in
    vbo
  else vbo.

(** The wrapper hands back the engine state next to the filled buffer. *)
Definition copyPlanetsToVBO (st : state) (vbodptr : list float) : state * list float :=
  (st, launch (fullBlocksPerGrid (numObjects st)) blockSize
         (kernCopyPlanetsToVBO (numObjects st) (dev_pos st) scene_scale) vbodptr).

(** *** stepSimulation *)

Definition accelOne (planet other : vec3) (mass : float) : vec3 :=
  let num := float_of_double (F64.mul G (double_of_float mass)) in
  let r := glm.distance planet other in
  let denom := F32.mul r r in
  if gtb (double_of_float denom) (double_lit 1 1) then
    let dir := glm.normalize (glm.sub other planet) in
    glm.scale_l (F32.mul (float_of_int 1) (F32.div num denom)) dir
  else
    glm.vec3_of_ints 0 0 0.

(** The [for] loop of [accelerate]: [i] counts up to [N]; the fuel is the
    number of iterations still allowed. *)
Fixpoint accelerate_loop (fuel : nat) (N i : Z) (planet : vec3)
    (pos : list vec3) (totalAccel : vec3) : vec3 :=
  match fuel with
  | O => totalAccel
  | S fuel =>
      if i <? N then
        accelerate_loop fuel N (i + 1) planet pos
          (glm.add totalAccel (accelOne planet (load pos i) planetMass))
      else totalAccel
  end.

Definition accelerate (N iSelf : Z) (pos : list vec3) : vec3 :=
  let planet := load pos iSelf in
  let totalAccel := accelOne planet (glm.vec3_of_ints 0 0 0) starMass in
  accelerate_loop (Z.to_nat N) N 0 planet pos totalAccel.

Definition kernUpdateAcc (N : Z) (dt : float) (pos : list vec3)
    (t : thread) (acc : list vec3) : list vec3 :=
  let i := global_index t in
  if i <? N then <[Z.to_nat i := accelerate N i pos]> acc else acc.

(** This kernel writes two arrays; its memory is the pair [(pos, vel)]. *)
Definition kernUpdateVelPos (N : Z) (dt : float) (acc : list vec3)
    (t : thread) (pv : list vec3 * list vec3) : list vec3 * list vec3 :=
  let '(pos, vel) := pv in
  let i := global_index t in
  if i <? N then
    let vel := <[Z.to_nat i := glm.add (load vel i) (glm.scale_r (load acc i) dt)]> vel in
    let pos := <[Z.to_nat i := glm.add (load pos i) (glm.scale_r (load vel i) dt)]> pos in
    (pos, vel)
  else (pos, vel).

Definition stepSimulation_on (sched_acc sched_velpos : list thread) (dt : float)
    (st : state) : state :=
  let dev_acc :=
    launch_on sched_acc (kernUpdateAcc (numObjects st) dt (dev_pos st)) (dev_acc st) in
  let '(dev_pos, dev_vel) :=
    launch_on sched_velpos (kernUpdateVelPos (numObjects st) dt dev_acc)
      (dev_pos st, dev_vel st) in
  mkstate (numObjects st) dev_pos dev_vel dev_acc.

Definition stepSimulation (dt : float) (st : state) : state :=
  stepSimulation_on (grid (fullBlocksPerGrid (numObjects st)) blockSize)
                    (grid (fullBlocksPerGrid (numObjects st)) blockSize) dt st.


(** *** The values the kernels compute, body by body *)

(** What [kernGenerateRandomPosArray] stores for a body whose random vector
    is [rand]. *)
Definition position_of_rand (scale : float) (rand : vec3) : vec3 :=
  mkvec3
    (F32.mul scale (vx rand))
    (F32.mul scale (vy rand))
    (float_of_double
       (F64.mul
          (F64.mul
             (F64.mul (double_lit 1 1) (double_of_float scale))
             (double_of_float
                (F32.sqrt (F32.add (F32.mul (vx rand) (vx rand))
                                   (F32.mul (vy rand) (vy rand))))))
          (double_of_float (vz rand)))).

Definition body_position (time : Z) (scale : float) (index : Z) : vec3 :=
  position_of_rand scale (generateRandomVec3 (float_of_int time) index).

(** The [r], [s] and [D] of [kernGenerateCircularVelArray] for a body at [R]. *)
Definition orbital_radius (R : vec3) : float :=
  float_of_double (F64.add (double_of_float (glm.length R)) EPSILON).
Definition orbital_speed (R : vec3) : float :=
  float_of_double
    (F64.sqrt (F64.div (F64.mul G (double_of_float starMass))
                       (double_of_float (orbital_radius R)))).
Definition orbital_direction (R : vec3) : vec3 :=
  glm.normalize (glm.cross (glm.div R (orbital_radius R)) (glm.vec3_of_ints 0 0 1)).
Definition body_velocity (R : vec3) : vec3 :=
  glm.scale_l (orbital_speed R) (orbital_direction R).

(** What [kernCopyPlanetsToVBO] stores at [vbo[4 * index + c]]. *)
Definition vbo_entry (pos : list vec3) (s_scale : float) (index c : Z) : float :=
  let c_scale := F32.div (float_of_int (-1)) s_scale in
  if c =? 0 then F32.mul (vx (load pos index)) c_scale
  else if c =? 1 then F32.mul (vy (load pos index)) c_scale
  else if c =? 2 then F32.mul (vz (load pos index)) c_scale
  else float_of_int 1.

(** The sum [accelerate] would form if its loop left out [j = iSelf]. *)
Fixpoint accelerate_others_loop (fuel : nat) (N i iSelf : Z) (planet : vec3)
    (pos : list vec3) (totalAccel : vec3) : vec3 :=
  match fuel with
  | O => totalAccel
  | S fuel =>
      if i <? N then
        accelerate_others_loop fuel N (i + 1) iSelf planet pos
          (if i =? iSelf then totalAccel
           else glm.add totalAccel (accelOne planet (load pos i) planetMass))
      else totalAccel
  end.

Definition accelerate_others (N iSelf : Z) (pos : list vec3) : vec3 :=
  let planet := load pos iSelf in
  let totalAccel := accelOne planet (glm.vec3_of_ints 0 0 0) starMass in
  accelerate_others_loop (Z.to_nat N) N 0 iSelf planet pos totalAccel.

(** The initial speed as the specification words it: [sqrt (G * M / r)] with
    [r] the distance in the plane, plus epsilon. *)
Definition planar_radius (R : vec3) : float :=
  float_of_double
    (F64.add
       (double_of_float
          (F32.sqrt (F32.add (F32.mul (vx R) (vx R)) (F32.mul (vy R) (vy R)))))
       EPSILON).
Definition planar_speed (R : vec3) : float :=
  float_of_double
    (F64.sqrt (F64.div (F64.mul G (double_of_float starMass))
                       (double_of_float (planar_radius R)))).

(** *** The host functions with their error checks *)

(** [Nbody::initSimulation], [Nbody::stepSimulation] and
    [Nbody::copyPlanetsToVBO] as the host runs them: every launch goes through
    the runtime, and [checkCUDAErrorWithLine] follows every runtime call.
    [initSimulation], [stepSimulation] and [copyPlanetsToVBO] above are what
    they leave when no call is refused. *)
Definition Nbody_initSimulation (N : Z) (junk_pos junk_vel junk_acc : nat → vec3) :
    outcome state :=
  let numObjects := N in
  let fullBlocksPerGrid := fullBlocksPerGrid N in
  let dev_pos := cudaMalloc N junk_pos in
  checkCUDAError cudaSuccess (
  let dev_vel := cudaMalloc N junk_vel in
  checkCUDAError cudaSuccess (
  let dev_acc := cudaMalloc N junk_acc in
  checkCUDAError cudaSuccess (
  let '(err, dev_pos) :=
    cudaLaunchKernel fullBlocksPerGrid blockSize
      (kernGenerateRandomPosArray 1 numObjects scene_scale planetMass) dev_pos in
  checkCUDAError err (
  let '(err, dev_vel) :=
    cudaLaunchKernel fullBlocksPerGrid blockSize
      (kernGenerateCircularVelArray 2 numObjects dev_pos) dev_vel in
  checkCUDAError err (
  Returns (mkstate numObjects dev_pos dev_vel dev_acc)))))).

Definition Nbody_copyPlanetsToVBO (st : state) (vbodptr : list float) :
    outcome (state * list float) :=
  let fullBlocksPerGrid := fullBlocksPerGrid (numObjects st) in
  let '(err, vbodptr) :=
    cudaLaunchKernel fullBlocksPerGrid blockSize
      (kernCopyPlanetsToVBO (numObjects st) (dev_pos st) scene_scale) vbodptr in
  checkCUDAError err (
  Returns (st, vbodptr)).

Definition Nbody_stepSimulation (dt : float) (st : state) : outcome state :=
  let fullBlocksPerGrid := fullBlocksPerGrid (numObjects st) in
  let '(err, dev_acc) :=
    cudaLaunchKernel fullBlocksPerGrid blockSize
      (kernUpdateAcc (numObjects st) dt (dev_pos st)) (dev_acc st) in
  checkCUDAError err (
  let '(err, (dev_pos, dev_vel)) :=
    cudaLaunchKernel fullBlocksPerGrid blockSize
      (kernUpdateVelPos (numObjects st) dt dev_acc) (dev_pos st, dev_vel st) in
  checkCUDAError err (
  Returns (mkstate (numObjects st) dev_pos dev_vel dev_acc))).

(** *** The pairwise law as the specification words it *)

(** [G * mass * normalize (other - self) / r^2], subject to the guard on the
    squared distance: the scalar [G * mass / r^2] multiplies the unit
    direction, and a squared distance that is not above the threshold gives
    no contribution. *)
Definition pairwise_contribution (self other : vec3) (mass : float) : vec3 :=
  let r2 := squared_distance self other in
  if gtb (double_of_float r2) threshold then
    glm.scale_l (F32.div (float_of_double (F64.mul G (double_of_float mass))) r2)
                (glm.normalize (glm.sub other self))
  else origin.

(** * Facts about the arithmetic *)

Lemma feq_refl a : feq a a.
Proof. by left. Qed.

Lemma veq_refl v : veq v v.
Proof. repeat split; apply feq_refl. Qed.

Lemma feq_sym a b : feq a b → feq b a.
Proof. intros [->|[? ?]]; [by left|by right]. Qed.

Lemma feq_trans a b c : feq a b → feq b c → feq a c.
Proof.
  intros [->|[Ha Hb]] [->|[Hb' Hc]]; [by left|by right|by right|by right].
Qed.

(** Adding the same float to two equal numbers gives equal numbers. *)
Lemma feq_add a a' y : feq a a' → feq (F32.add a y) (F32.add a' y).
Proof.
  intros [->|[Ha Ha']]; [by left|].
  destruct a; try discriminate; destruct a'; try discriminate.
  destruct y as [sy|sy| |sy my ey]; try (by left).
  right. by destruct s, s0, sy.
Qed.

(** Adding a positive zero changes no number. *)
Lemma feq_add_zero a : feq (F32.add a (S754_zero false)) a.
Proof. destruct a as [[]|[]| |]; (by left) || (by right). Qed.

Lemma veq_add u u' w : veq u u' → veq (glm.add u w) (glm.add u' w).
Proof. intros (?&?&?). repeat split; by apply feq_add. Qed.

Lemma veq_add_origin u : veq (glm.add u origin) u.
Proof. repeat split; apply feq_add_zero. Qed.

Lemma veq_trans u v w : veq u v → veq v w → veq u w.
Proof. intros (?&?&?) (?&?&?). repeat split; by eapply feq_trans. Qed.

(** [x - x] is the positive zero, or NaN when [x] is not finite. *)
Lemma sub_diag x : F32.sub x x = S754_zero false ∨ F32.sub x x = S754_nan.
Proof.
  destruct x as [[]|[]| |s m e]; cbn; auto.
  left. unfold F32.sub, SFsub. by rewrite Z.sub_diag.
Qed.

Lemma threshold_value : threshold = S754_finite false 7205759403792794 (-56).
Proof. reflexivity. Qed.

(** A body is never farther than the threshold from itself. *)
Lemma squared_distance_diag p :
  gtb (double_of_float (squared_distance p p)) threshold = false.
Proof.
  unfold squared_distance, glm.distance, glm.length, glm.dot, glm.sub; cbn [vx vy vz].
  destruct (sub_diag (vx p)) as [-> | ->], (sub_diag (vy p)) as [-> | ->],
    (sub_diag (vz p)) as [-> | ->]; reflexivity.
Qed.

(** * Facts about launches *)

Lemma global_index_mk b d t :
  0 ≤ b * d → 0 ≤ t → b * d + t < 2 ^ 31 →
  global_index (mkthread b d t) = b * d + t.
Proof.
  intros Hb Ht Hlt. unfold global_index, int_of_unsigned, wrap32; cbn.
  rewrite (Z.mod_small (b * d)) by lia.
  rewrite (Z.mod_small (b * d + t)) by lia.
  destruct (Z.ltb_spec (b * d + t) (2 ^ 31)); [done|lia].
Qed.

Lemma grid_succ B D :
  0 ≤ B → grid (B + 1) D = grid B D ++ ((λ t, mkthread B D t) <$> seqZ 0 D).
Proof.
  intros HB. unfold grid.
  rewrite (seqZ_app 0 B 1) by lia.
  rewrite bind_app. f_equal.
  rewrite Z.add_0_l, (seqZ_cons B 1), (seqZ_nil _ (Z.pred 1)) by lia.
  by rewrite bind_singleton.
Qed.

(** The threads of a grid carry the indices [0 .. gridDim * blockDim - 1],
    each once. *)
Lemma grid_indices B D :
  0 ≤ B → 0 ≤ D → B * D ≤ 2 ^ 31 →
  global_index <$> grid B D = seqZ 0 (B * D).
Proof.
  intros HB HD. rewrite <- (Z2Nat.id B HB). clear HB.
  induction (Z.to_nat B) as [|n IH]; intros Hle.
  - reflexivity.
  - rewrite Nat2Z.inj_succ, <- Z.add_1_r in *.
    rewrite grid_succ, fmap_app, IH by lia.
    replace ((Z.of_nat n + 1) * D) with (Z.of_nat n * D + D) by lia.
    rewrite seqZ_app by lia. f_equal.
    rewrite <- list_fmap_compose, Z.add_0_l.
    replace (seqZ (Z.of_nat n * D) D) with (seqZ (Z.of_nat n * D + 0) D)
      by (f_equal; lia).
    rewrite <- (fmap_add_seqZ (Z.of_nat n * D) 0 D).
    apply list_fmap_ext. intros i t Ht.
    apply lookup_seqZ in Ht as [-> Ht]. cbn.
    rewrite global_index_mk; lia.
Qed.

Lemma fullBlocksPerGrid_bounds N :
  0 ≤ N →
  0 ≤ fullBlocksPerGrid N ∧
  N ≤ fullBlocksPerGrid N * blockSize ≤ N + blockSize - 1.
Proof.
  intros HN. unfold fullBlocksPerGrid, blockSize.
  rewrite Z.quot_div_nonneg by lia.
  pose proof (Z.div_mod (N + 128 - 1) 128 ltac:(lia)).
  pose proof (Z.mod_pos_bound (N + 128 - 1) 128 ltac:(lia)).
  lia.
Qed.

Lemma schedule_of_grid N : schedule_of N (grid (fullBlocksPerGrid N) blockSize).
Proof. unfold schedule_of. reflexivity. Qed.

Lemma schedule_indices N sched :
  0 ≤ N → N + blockSize - 1 ≤ INT_MAX → schedule_of N sched →
  global_index <$> sched ≡ₚ seqZ 0 (fullBlocksPerGrid N * blockSize).
Proof.
  intros HN Hhi Hs. rewrite Hs.
  destruct (fullBlocksPerGrid_bounds N HN) as [? ?].
  rewrite grid_indices; [done|lia|done|]. unfold INT_MAX in Hhi. lia.
Qed.

Lemma schedule_NoDup N sched :
  0 ≤ N → N + blockSize - 1 ≤ INT_MAX → schedule_of N sched →
  NoDup (global_index <$> sched).
Proof.
  intros HN Hhi Hs. rewrite (schedule_indices N sched HN Hhi Hs).
  apply NoDup_seqZ.
Qed.

Lemma schedule_nonneg N sched :
  0 ≤ N → N + blockSize - 1 ≤ INT_MAX → schedule_of N sched →
  Forall (λ t, 0 ≤ global_index t) sched.
Proof.
  intros HN Hhi Hs. apply Forall_forall. intros t Ht.
  assert (global_index t ∈ global_index <$> sched) as Hin
    by by apply list_elem_of_fmap_2.
  rewrite (schedule_indices N sched HN Hhi Hs) in Hin.
  apply elem_of_seqZ in Hin. lia.
Qed.

Lemma schedule_covers N sched i :
  0 ≤ N → N + blockSize - 1 ≤ INT_MAX → schedule_of N sched →
  0 ≤ i < N → i ∈ global_index <$> sched.
Proof.
  intros HN Hhi Hs Hi. rewrite (schedule_indices N sched HN Hhi Hs).
  apply elem_of_seqZ. pose proof (fullBlocksPerGrid_bounds N HN). lia.
Qed.

(** Kernels whose threads each own the locations they write.  [get j m] is
    what memory [m] holds at location [j]; [own j] is the global index of the
    one thread allowed to write [j]; that thread turns the content [v] into
    [upd j v]. *)
Section launch_local.
Context {M V : Type}.
Variable get : nat → M → V.
Variable k : thread → M → M.
Variable own : nat → Z.
Variable upd : nat → V → V.
Hypothesis k_own : ∀ t m j,
  0 ≤ global_index t → own j = global_index t →
  get j (k t m) = upd j (get j m).
Hypothesis k_frame : ∀ t m j,
  0 ≤ global_index t → own j ≠ global_index t →
  get j (k t m) = get j m.

Lemma launch_on_get sched :
  NoDup (global_index <$> sched) →
  Forall (λ t, 0 ≤ global_index t) sched →
  ∀ m j,
    get j (launch_on sched k m) =
    if decide (own j ∈ global_index <$> sched) then upd j (get j m) else get j m.
Proof using k_own k_frame.
  induction sched as [|t sched IH]; intros Hnd Hpos m j.
  - cbn. by rewrite decide_False by apply not_elem_of_nil.
  - rewrite fmap_cons in *. apply NoDup_cons in Hnd as [Hnotin Hnd].
    apply Forall_cons in Hpos as [Ht Hpos].
    change (launch_on (t :: sched) k m) with (launch_on sched k (k t m)).
    rewrite IH by done.
    destruct (decide (own j = global_index t)) as [Heq|Hne].
    + rewrite decide_False by (by rewrite Heq).
      rewrite decide_True by (rewrite Heq; apply list_elem_of_here).
      by apply k_own.
    + rewrite k_frame by done.
      destruct (decide (own j ∈ global_index <$> sched)) as [Hin|Hnin].
      * by rewrite decide_True by (by apply list_elem_of_further).
      * rewrite decide_False; [done|].
        intros [?|?]%elem_of_cons; done.
Qed.

(** The order in which the threads run does not show in the result. *)
Lemma launch_on_perm sched1 sched2 :
  sched1 ≡ₚ sched2 →
  NoDup (global_index <$> sched1) →
  Forall (λ t, 0 ≤ global_index t) sched1 →
  ∀ m j, get j (launch_on sched1 k m) = get j (launch_on sched2 k m).
Proof using k_own k_frame.
  intros Hp Hnd Hpos m j.
  rewrite !launch_on_get; try done.
  - destruct (decide (own j ∈ global_index <$> sched1)) as [Hin|Hnin].
    + by rewrite decide_True by (by rewrite <- Hp).
    + by rewrite decide_False by (by rewrite <- Hp).
  - by rewrite <- Hp.
  - by rewrite <- Hp.
Qed.
End launch_local.

Lemma launch_writes_lookup N f k sched arr j :
  0 ≤ N → N + blockSize - 1 ≤ INT_MAX → schedule_of N sched → writes N f k →
  launch_on sched k arr !! j =
  if decide (Z.of_nat j < N) then (λ _, f (Z.of_nat j)) <$> arr !! j else arr !! j.
Proof.
  intros HN Hhi Hs Hk.
  rewrite (launch_on_get (λ j arr, arr !! j) k Z.of_nat
    (λ j v, if decide (Z.of_nat j < N) then (λ _, f (Z.of_nat j)) <$> v else v)).
  - destruct (decide (Z.of_nat j < N)) as [Hj|Hj]; [|by destruct (decide _)].
    rewrite decide_True; [done|].
    apply (schedule_covers N); [done..|lia].
  - intros t m i Ht Hi. rewrite Hk by done. rewrite <- Hi.
    destruct (decide (Z.of_nat i < N)).
    + by rewrite decide_True.
    + rewrite decide_False; [done|by intros [? ?]].
  - intros t m i Ht Hi. rewrite Hk by done. rewrite decide_False; [done|by intros [? ?]].
  - by apply (schedule_NoDup N).
  - by apply (schedule_nonneg N).
Qed.

(** On an array of [N] elements the launch leaves [f 0, ..., f (N-1)],
    whatever the array held and whatever the order of the threads. *)
Lemma launch_writes N f k sched arr :
  0 ≤ N → N + blockSize - 1 ≤ INT_MAX → schedule_of N sched → writes N f k →
  length arr = Z.to_nat N →
  launch_on sched k arr = f <$> seqZ 0 N.
Proof.
  intros HN Hhi Hs Hk Hlen. apply list_eq. intros j.
  rewrite (launch_writes_lookup N f) by done.
  rewrite list_lookup_fmap.
  destruct (decide (Z.of_nat j < N)) as [Hj|Hj].
  - rewrite lookup_seqZ_lt by done.
    destruct (lookup_lt_is_Some_2 arr j ltac:(lia)) as [v ->]. done.
  - rewrite lookup_seqZ_ge by lia.
    rewrite lookup_ge_None_2 by lia. done.
Qed.

Lemma stores_lookup i a b c arr j :
  store_z i c (store_y i b (store_x i a arr)) !! j =
  if decide (j = Z.to_nat i) then (λ _, mkvec3 a b c) <$> arr !! j else arr !! j.
Proof.
  unfold store_x, store_y, store_z.
  destruct (decide (j = Z.to_nat i)) as [->|Hne].
  - rewrite !list_lookup_alter_eq. by destruct (arr !! Z.to_nat i).
  - by rewrite !list_lookup_alter_ne.
Qed.

Lemma insert_lookup_dec {A} (arr : list A) i v j :
  <[i := v]> arr !! j = if decide (j = i) then (λ _, v) <$> arr !! j else arr !! j.
Proof.
  destruct (decide (j = i)) as [->|Hne].
  - destruct (decide (i < length arr)%nat).
    + rewrite list_lookup_insert_eq by done.
      by destruct (lookup_lt_is_Some_2 arr i ltac:(done)) as [? ->].
    + rewrite list_insert_ge by lia. by rewrite lookup_ge_None_2 by lia.
  - by rewrite list_lookup_insert_ne.
Qed.

(** * Facts about the kernels *)

Lemma kernGenerateRandomPosArray_writes time N scale mass :
  writes N (body_position time scale) (kernGenerateRandomPosArray time N scale mass).
Proof.
  intros t arr j Ht. unfold kernGenerateRandomPosArray.
  destruct (Z.ltb_spec (global_index t) N) as [Hlt|Hge].
  - rewrite stores_lookup.
    destruct (decide (j = Z.to_nat (global_index t))) as [->|Hne].
    + by rewrite decide_True by lia.
    + by rewrite decide_False by lia.
  - by rewrite decide_False by lia.
Qed.

Lemma kernGenerateCircularVelArray_writes time N pos :
  writes N (λ i, body_velocity (load pos i)) (kernGenerateCircularVelArray time N pos).
Proof.
  intros t arr j Ht. unfold kernGenerateCircularVelArray.
  destruct (Z.ltb_spec (global_index t) N) as [Hlt|Hge].
  - rewrite stores_lookup.
    destruct (decide (j = Z.to_nat (global_index t))) as [->|Hne].
    + rewrite decide_True by lia. by destruct (load pos (global_index t)).
    + by rewrite decide_False by lia.
  - by rewrite decide_False by lia.
Qed.

Lemma kernUpdateAcc_writes N dt pos :
  writes N (λ i, accelerate N i pos) (kernUpdateAcc N dt pos).
Proof.
  intros t arr j Ht. unfold kernUpdateAcc.
  destruct (Z.ltb_spec (global_index t) N) as [Hlt|Hge].
  - rewrite insert_lookup_dec.
    destruct (decide (j = Z.to_nat (global_index t))) as [->|Hne].
    + by rewrite decide_True by lia.
    + by rewrite decide_False by lia.
  - by rewrite decide_False by lia.
Qed.

Lemma load_fmap_seqZ (f : Z → vec3) N i :
  0 ≤ i < N → load (f <$> seqZ 0 N) i = f i.
Proof.
  intros Hi. unfold load. rewrite list_lookup_total_alt, list_lookup_fmap.
  rewrite lookup_seqZ_lt by lia. cbn. f_equal. lia.
Qed.

Lemma length_cudaMalloc N junk : length (cudaMalloc N junk) = Z.to_nat N.
Proof. unfold cudaMalloc. by rewrite length_fmap, length_seq. Qed.

(** After initialization the arrays hold, body by body, a function of the
    body's index alone. *)
Lemma initSimulation_on_arrays sched_pos sched_vel N jp jv ja :
  0 ≤ N → N + blockSize - 1 ≤ INT_MAX →
  schedule_of N sched_pos → schedule_of N sched_vel →
  let st := initSimulation_on sched_pos sched_vel N jp jv ja in
  numObjects st = N ∧
  dev_pos st = body_position 1 scene_scale <$> seqZ 0 N ∧
  dev_vel st = (λ i, body_velocity (body_position 1 scene_scale i)) <$> seqZ 0 N ∧
  dev_acc st = cudaMalloc N ja.
Proof.
  intros HN Hhi Hp Hv. cbn. split; [done|].
  rewrite (launch_writes N (body_position 1 scene_scale)); try done;
    [|apply kernGenerateRandomPosArray_writes|apply length_cudaMalloc].
  split; [done|]. split; [|done].
  rewrite (launch_writes N _ _ _ _ HN Hhi Hv
             (kernGenerateCircularVelArray_writes 2 N _) (length_cudaMalloc N jv)).
  apply list_fmap_ext. intros j i Hi.
  apply lookup_seqZ in Hi as [-> Hi]. by rewrite load_fmap_seqZ by lia.
Qed.

Lemma initSimulation_wf N jp jv ja :
  0 ≤ N → N + blockSize - 1 ≤ INT_MAX → wf_state (initSimulation N jp jv ja).
Proof.
  intros HN Hhi.
  destruct (initSimulation_on_arrays _ _ N jp jv ja HN Hhi
              (schedule_of_grid N) (schedule_of_grid N)) as (HN' & Hp & Hv & Ha).
  unfold initSimulation. split; rewrite ?HN', ?Hp, ?Hv, ?Ha; try done.
  - by rewrite length_fmap, length_seqZ.
  - by rewrite length_fmap, length_seqZ.
  - apply length_cudaMalloc.
Qed.

(** * Facts about the force evaluator *)

Lemma accelOne_guard planet other mass :
  gtb (double_of_float (squared_distance planet other)) threshold = false →
  accelOne planet other mass = origin.
Proof.
  intros Hg. unfold accelOne.
  change (F32.mul (glm.distance planet other) (glm.distance planet other))
    with (squared_distance planet other).
  change (double_lit 1 1) with threshold. by rewrite Hg.
Qed.

Lemma accelOne_diag p mass : accelOne p p mass = origin.
Proof. apply accelOne_guard, squared_distance_diag. Qed.

(** [a <= b] excludes [b < a], for all data including NaN. *)
Lemma SFleb_not_gtb a b : SFleb a b = true → gtb a b = false.
Proof.
  unfold SFleb, gtb, SFltb.
  destruct a as [[]|[]| |[] ma ea], b as [[]|[]| |[] mb eb]; cbn; try done.
  - rewrite (Z.compare_antisym ea eb).
    destruct (ea ?= eb); cbn; try done.
    assert (Pos.compare_cont Eq mb ma = CompOpp (Pos.compare_cont Eq ma mb)) as ->
      by (symmetry; apply (Pos.compare_cont_antisym ma mb Eq)).
    by destruct (Pos.compare_cont Eq ma mb).
  - rewrite (Z.compare_antisym ea eb).
    destruct (ea ?= eb); cbn; try done.
    assert (Pos.compare_cont Eq mb ma = CompOpp (Pos.compare_cont Eq ma mb)) as ->
      by (symmetry; apply (Pos.compare_cont_antisym ma mb Eq)).
    by destruct (Pos.compare_cont Eq ma mb).
Qed.

(** The loop of [accelerate] is a left-to-right sum over [j = i0 .. N-1]. *)
Lemma accelerate_loop_foldl fuel N i0 planet pos a :
  N - i0 ≤ Z.of_nat fuel →
  accelerate_loop fuel N i0 planet pos a =
  foldl (λ a j, glm.add a (accelOne planet (load pos j) planetMass)) a (seqZ i0 (N - i0)).
Proof.
  revert i0 a. induction fuel as [|fuel IH]; intros i0 a Hf.
  - by rewrite seqZ_nil by lia.
  - cbn [accelerate_loop].
    destruct (Z.ltb_spec i0 N) as [Hlt|Hge].
    + rewrite IH by lia. rewrite (seqZ_cons i0) by lia. cbn.
      repeat f_equal; lia.
    + by rewrite seqZ_nil by lia.
Qed.

(** Leaving the body itself out of the loop does not change the number
    each component of the sum denotes. *)
Lemma accelerate_loop_others fuel N i0 iSelf pos a a' :
  veq a a' →
  veq (accelerate_loop fuel N i0 (load pos iSelf) pos a)
      (accelerate_others_loop fuel N i0 iSelf (load pos iSelf) pos a').
Proof.
  revert i0 a a'. induction fuel as [|fuel IH]; intros i0 a a' Ha; [done|].
  cbn [accelerate_loop accelerate_others_loop].
  destruct (Z.ltb_spec i0 N) as [Hlt|Hge]; [|done].
  apply IH. destruct (Z.eqb_spec i0 iSelf) as [->|Hne].
  - rewrite accelOne_diag. eapply veq_trans; [apply veq_add_origin|done].
  - by apply veq_add.
Qed.

(** * Facts about a simulation step *)

Lemma launch_on_ind {M : Type} (P : M → Prop) (k : thread → M → M) sched m :
  (∀ t m, P m → P (k t m)) → P m → P (launch_on sched k m).
Proof.
  intros Hk. revert m. induction sched as [|t sched IH]; intros m Hm; [done|].
  apply IH, Hk, Hm.
Qed.

Lemma load_lookup (arr : list vec3) i v :
  arr !! Z.to_nat i = Some v → load arr i = v.
Proof. intros H. unfold load. by rewrite list_lookup_total_alt, H. Qed.

Lemma launch_kernUpdateVelPos N dt acc sched pos vel :
  0 ≤ N → N + blockSize - 1 ≤ INT_MAX → schedule_of N sched →
  length pos = Z.to_nat N → length vel = Z.to_nat N →
  let pv := launch_on sched (kernUpdateVelPos N dt acc) (pos, vel) in
  length pv.1 = Z.to_nat N ∧ length pv.2 = Z.to_nat N ∧
  ∀ i, 0 ≤ i < N →
    load pv.2 i = glm.add (load vel i) (glm.scale_r (load acc i) dt) ∧
    load pv.1 i = glm.add (load pos i) (glm.scale_r (load pv.2 i) dt).
Proof.
  intros HN Hhi Hs Hp Hv pv.
  assert (length pv.1 = Z.to_nat N ∧ length pv.2 = Z.to_nat N) as [Hp' Hv'].
  { apply (launch_on_ind (λ pv, length pv.1 = Z.to_nat N ∧ length pv.2 = Z.to_nat N));
      [|done].
    intros t [p v] [? ?]. unfold kernUpdateVelPos.
    destruct (global_index t <? N); cbn; by rewrite ?length_insert. }
  split; [done|]. split; [done|]. intros i Hi.
  pose (upd := λ (j : nat) (c : option vec3 * option vec3),
    if decide (Z.of_nat j < N) then
      let vo := (λ v, glm.add v (glm.scale_r (load acc (Z.of_nat j)) dt)) <$> c.2 in
      ((λ p, glm.add p (glm.scale_r (default inhabitant vo) dt)) <$> c.1, vo)
    else c).
  assert (∀ t m j, 0 ≤ global_index t → Z.of_nat j = global_index t →
            ((kernUpdateVelPos N dt acc t m).1 !! j, (kernUpdateVelPos N dt acc t m).2 !! j)
            = upd j (m.1 !! j, m.2 !! j)) as Hown.
  { intros t [p v] j Ht Hj. unfold kernUpdateVelPos, upd. rewrite <- Hj.
    destruct (Z.ltb_spec (Z.of_nat j) N) as [Hlt|Hge].
    - rewrite decide_True by done. cbn.
      rewrite !insert_lookup_dec, !decide_True by lia.
      unfold load.
      rewrite !list_lookup_total_alt, insert_lookup_dec, decide_True by lia.
      rewrite !Nat2Z.id. by destruct (p !! j), (v !! j).
    - by rewrite decide_False by lia. }
  assert (∀ t m j, 0 ≤ global_index t → Z.of_nat j ≠ global_index t →
            ((kernUpdateVelPos N dt acc t m).1 !! j, (kernUpdateVelPos N dt acc t m).2 !! j)
            = (m.1 !! j, m.2 !! j)) as Hframe.
  { intros t [p v] j Ht Hj. unfold kernUpdateVelPos.
    destruct (Z.ltb_spec (global_index t) N) as [Hlt|Hge]; [|done]. cbn.
    by rewrite !list_lookup_insert_ne by lia. }
  pose proof (launch_on_get (λ j (pv : list vec3 * list vec3), (pv.1 !! j, pv.2 !! j))
    (kernUpdateVelPos N dt acc) Z.of_nat upd Hown Hframe sched
    (schedule_NoDup N sched HN Hhi Hs) (schedule_nonneg N sched HN Hhi Hs)
    (pos, vel) (Z.to_nat i)) as Hget.
  cbn beta in Hget. fold pv in Hget.
  rewrite decide_True in Hget
    by (apply (schedule_covers N); [done..|lia]).
  unfold upd in Hget. rewrite decide_True in Hget by lia. cbn in Hget.
  destruct (lookup_lt_is_Some_2 pos (Z.to_nat i) ltac:(lia)) as [p Hpi].
  destruct (lookup_lt_is_Some_2 vel (Z.to_nat i) ltac:(lia)) as [v Hvi].
  rewrite Hpi, Hvi in Hget. cbn in Hget. injection Hget as Hg1 Hg2.
  rewrite Z2Nat.id in Hg1, Hg2 by lia.
  rewrite (load_lookup _ _ _ Hg2), (load_lookup _ _ _ Hg1).
  by rewrite (load_lookup _ _ _ Hpi), (load_lookup _ _ _ Hvi).
Qed.

Lemma stepSimulation_on_fields sched_acc sched_velpos dt st :
  let acc := launch_on sched_acc (kernUpdateAcc (numObjects st) dt (dev_pos st))
               (dev_acc st) in
  let pv := launch_on sched_velpos (kernUpdateVelPos (numObjects st) dt acc)
              (dev_pos st, dev_vel st) in
  stepSimulation_on sched_acc sched_velpos dt st = mkstate (numObjects st) pv.1 pv.2 acc.
Proof. cbn. unfold stepSimulation_on. by destruct (launch_on sched_velpos _ _). Qed.

(** One step on a well-formed state, for any order of the threads. *)
Lemma stepSimulation_on_spec sched_acc sched_velpos dt st :
  wf_state st →
  schedule_of (numObjects st) sched_acc → schedule_of (numObjects st) sched_velpos →
  let st' := stepSimulation_on sched_acc sched_velpos dt st in
  numObjects st' = numObjects st ∧
  dev_acc st' = (λ i, accelerate (numObjects st) i (dev_pos st)) <$> seqZ 0 (numObjects st) ∧
  length (dev_pos st') = Z.to_nat (numObjects st) ∧
  length (dev_vel st') = Z.to_nat (numObjects st) ∧
  ∀ i, 0 ≤ i < numObjects st →
    load (dev_acc st') i = accelerate (numObjects st) i (dev_pos st) ∧
    load (dev_vel st') i =
      glm.add (load (dev_vel st) i) (glm.scale_r (load (dev_acc st') i) dt) ∧
    load (dev_pos st') i =
      glm.add (load (dev_pos st) i) (glm.scale_r (load (dev_vel st') i) dt).
Proof.
  intros [HN Hhi Hp Hv Ha] Hs1 Hs2 st'. subst st'.
  rewrite stepSimulation_on_fields. cbn [numObjects dev_pos dev_vel dev_acc].
  rewrite (launch_writes _ _ _ _ _ HN Hhi Hs1 (kernUpdateAcc_writes _ dt _) Ha).
  destruct (launch_kernUpdateVelPos (numObjects st) dt
    ((λ i, accelerate (numObjects st) i (dev_pos st)) <$> seqZ 0 (numObjects st))
    sched_velpos (dev_pos st) (dev_vel st) HN Hhi Hs2 Hp Hv) as (Hp' & Hv' & Hstep).
  repeat (split; [done|]). intros i Hi.
  destruct (Hstep i Hi) as [Hvi Hpi].
  split; [by apply load_fmap_seqZ|]. by split.
Qed.

Lemma stepSimulation_wf dt st : wf_state st → wf_state (stepSimulation dt st).
Proof.
  intros Hwf.
  destruct (stepSimulation_on_spec _ _ dt st Hwf (schedule_of_grid _) (schedule_of_grid _))
    as (HN & Ha & Hp & Hv & _).
  destruct Hwf as [HN0 Hhi _ _ _].
  unfold stepSimulation. split; rewrite ?HN, ?Ha; try done.
  by rewrite length_fmap, length_seqZ.
Qed.

(** * Facts about the export *)

Lemma launch_kernCopyPlanetsToVBO N pos s_scale sched vbo q :
  0 ≤ N → N + blockSize - 1 ≤ INT_MAX → schedule_of N sched →
  launch_on sched (kernCopyPlanetsToVBO N pos s_scale) vbo !! q =
  if decide (Z.of_nat q < 4 * N)
  then (λ _, vbo_entry pos s_scale (Z.of_nat q / 4) (Z.of_nat q mod 4)) <$> vbo !! q
  else vbo !! q.
Proof.
  intros HN Hhi Hs.
  pose proof (Z.div_mod (Z.of_nat q) 4 ltac:(lia)) as Hdm.
  pose proof (Z.mod_pos_bound (Z.of_nat q) 4 ltac:(lia)) as Hm.
  rewrite (launch_on_get (λ q (vbo : list float), vbo !! q)
    (kernCopyPlanetsToVBO N pos s_scale) (λ q, Z.of_nat q / 4)
    (λ q v, if decide (Z.of_nat q / 4 < N)
            then (λ _, vbo_entry pos s_scale (Z.of_nat q / 4) (Z.of_nat q mod 4)) <$> v
            else v)).
  - destruct (decide (Z.of_nat q < 4 * N)) as [Hq|Hq].
    + rewrite decide_True by (apply (schedule_covers N); [done..|lia]).
      by rewrite decide_True by lia.
    + rewrite (decide_False (P := Z.of_nat q / 4 < N)) by lia.
      by destruct (decide _).
  - clear q Hdm Hm. intros t m q Ht Hown.
    pose proof (Z.div_mod (Z.of_nat q) 4 ltac:(lia)) as Hdm.
    pose proof (Z.mod_pos_bound (Z.of_nat q) 4 ltac:(lia)) as Hm.
    unfold kernCopyPlanetsToVBO. rewrite Hown in *.
    destruct (Z.ltb_spec (global_index t) N) as [Hlt|Hge].
    + rewrite decide_True by done. rewrite !insert_lookup_dec.
      unfold vbo_entry.
      remember (Z.of_nat q mod 4) as r eqn:Hr.
      assert (r = 0 ∨ r = 1 ∨ r = 2 ∨ r = 3) as [-> | [-> | [-> | ->]]] by lia; cbn [Z.eqb];
        repeat first [rewrite decide_True by lia | rewrite decide_False by lia];
        by destruct (m !! q).
    + by rewrite decide_False by lia.
  - clear q Hdm Hm. intros t m q Ht Hown.
    pose proof (Z.div_mod (Z.of_nat q) 4 ltac:(lia)) as Hdm.
    pose proof (Z.mod_pos_bound (Z.of_nat q) 4 ltac:(lia)) as Hm.
    unfold kernCopyPlanetsToVBO.
    destruct (Z.ltb_spec (global_index t) N) as [Hlt|Hge]; [|done].
    by rewrite !list_lookup_insert_ne by lia.
  - by apply (schedule_NoDup N).
  - by apply (schedule_nonneg N).
Qed.

Lemma length_launch_kernCopyPlanetsToVBO N pos s_scale sched vbo :
  length (launch_on sched (kernCopyPlanetsToVBO N pos s_scale) vbo) = length vbo.
Proof.
  apply (launch_on_ind (λ v, length v = length vbo)); [|done].
  intros t m Hm. unfold kernCopyPlanetsToVBO.
  destruct (global_index t <? N); by rewrite ?length_insert.
Qed.

(** * Rounding an integer gives a finite float *)

Lemma digits2_pos_le p k :
  Zpos p < 2 ^ k → 0 ≤ k → Zpos (digits2_pos p) ≤ k.
Proof.
  revert k. induction p as [p IH|p IH|]; intros k Hp Hk; cbn [digits2_pos].
  - assert (0 < k) by (destruct (decide (k = 0)) as [->|]; [cbn in Hp|]; lia).
    specialize (IH (k - 1)).
    replace (2 ^ k) with (2 * 2 ^ (k - 1)) in Hp
      by (rewrite <- Z.pow_succ_r by lia; f_equal; lia).
    lia.
  - assert (0 < k) by (destruct (decide (k = 0)) as [->|]; [cbn in Hp|]; lia).
    specialize (IH (k - 1)).
    replace (2 ^ k) with (2 * 2 ^ (k - 1)) in Hp
      by (rewrite <- Z.pow_succ_r by lia; f_equal; lia).
    lia.
  - destruct (decide (k = 0)) as [->|]; [cbn in Hp|]; lia.
Qed.

Lemma Zdigits2_le m k : 0 ≤ m < 2 ^ k → 0 ≤ k → Zdigits2 m ≤ k.
Proof.
  intros [Hm0 Hm] Hk. destruct m as [|p|p]; cbn; [done| |lia].
  by apply digits2_pos_le.
Qed.

Lemma shr_1_bounds mrs B :
  0 ≤ shr_m mrs ≤ B → 0 ≤ shr_m (shr_1 mrs) ≤ B.
Proof.
  destruct mrs as [m r s]. cbn [shr_m]. intros Hm.
  destruct m as [|[p|p|]|p]; cbn; lia.
Qed.

Lemma iter_shr_1_bounds p mrs B :
  0 ≤ shr_m mrs ≤ B → 0 ≤ shr_m (SpecFloat.iter_pos shr_1 p mrs) ≤ B.
Proof.
  revert mrs. induction p as [p IH|p IH|]; intros mrs Hm; cbn [SpecFloat.iter_pos].
  - by apply IH, IH, shr_1_bounds.
  - by apply IH, IH.
  - by apply shr_1_bounds.
Qed.

(** One shift of [shr_fexp]: the mantissa stays within its bounds and the
    exponent becomes the larger of [e] and the format's exponent. *)
Lemma shr_fexp_bounds prec emax m e l K :
  0 ≤ K → 0 ≤ m < 2 ^ K →
  let r := shr_fexp prec emax m e l in
  0 ≤ shr_m r.1 ≤ m ∧ r.2 ≤ Z.max e (Z.max (K + e - prec) (emin prec emax)).
Proof.
  intros HK Hm. unfold shr_fexp, shr.
  pose proof (Zdigits2_le m K Hm HK) as Hd.
  assert (shr_m (shr_record_of_loc m l) = m) as Hrec
    by (by destruct l as [|[]]).
  destruct (fexp prec emax (Zdigits2 m + e) - e) as [|p|p] eqn:Hsh; cbn [fst snd].
  - rewrite Hrec. lia.
  - split; [apply iter_shr_1_bounds; rewrite Hrec; lia|].
    unfold fexp in Hsh. lia.
  - rewrite Hrec. lia.
Qed.

Lemma round_nearest_even_bounds m l :
  0 ≤ m → 0 ≤ round_nearest_even m l ≤ m + 1.
Proof.
  intros Hm. unfold round_nearest_even.
  destruct l as [|[]]; try lia. destruct (Z.even m); lia.
Qed.

Lemma binary_round_aux_finite prec emax s m e l K :
  0 ≤ K → 0 ≤ m < 2 ^ K →
  let E1 := Z.max e (Z.max (K + e - prec) (emin prec emax)) in
  Z.max E1 (Z.max (K + 1 + E1 - prec) (emin prec emax)) ≤ emax - prec →
  is_finite (binary_round_aux prec emax s m e l) = true.
Proof.
  intros HK Hm E1 HE. unfold binary_round_aux.
  pose proof (shr_fexp_bounds prec emax m e l K HK Hm) as H1.
  destruct (shr_fexp prec emax m e l) as [mrs' e']. cbn [fst snd] in H1.
  destruct H1 as [Hm1 He1].
  pose proof (round_nearest_even_bounds (shr_m mrs') (loc_of_shr_record mrs')
                ltac:(lia)) as Hr.
  set (m2 := round_nearest_even (shr_m mrs') (loc_of_shr_record mrs')) in *.
  assert (0 ≤ m2 < 2 ^ (K + 1)) as Hm2.
  { rewrite Z.pow_add_r by lia. lia. }
  pose proof (shr_fexp_bounds prec emax m2 e' loc_Exact (K + 1) ltac:(lia) Hm2) as H2.
  destruct (shr_fexp prec emax m2 e' loc_Exact) as [mrs'' e'']. cbn [fst snd] in H2.
  destruct H2 as [Hm3 He2].
  destruct (shr_m mrs'') as [|p|p]; [done| |lia].
  assert (e'' ≤ emax - prec) as He by lia.
  apply Z.leb_le in He. by rewrite He.
Qed.

Lemma Pos_iter_xO m d : Zpos (Pos.iter xO m d) = Zpos m * 2 ^ Zpos d.
Proof.
  induction d as [|d IH] using Pos.peano_ind.
  - cbn. lia.
  - rewrite Pos.iter_succ, Pos2Z.inj_succ, Z.pow_succ_r by lia.
    rewrite Pos2Z.inj_xO, IH. lia.
Qed.

(** Every [int] converts to a zero or a finite [float]. *)
Lemma float_of_int_finite z :
  INT_MIN ≤ z ≤ INT_MAX → is_finite (float_of_int z) = true.
Proof.
  intros Hz. unfold float_of_int, F32.round, binary_normalize.
  assert (∀ s p, Zpos p < 2 ^ 32 →
            is_finite (binary_round F32.prec F32.emax s p 0) = true) as Hp.
  { intros s p Hp. unfold binary_round, shl_align.
    pose proof (digits2_pos_le p 32 Hp ltac:(lia)) as Hd.
    assert (0 < Zpos (digits2_pos p)) as Hd0 by lia.
    destruct (fexp F32.prec F32.emax (Zpos (digits2_pos p) + 0) - 0) as [|d|d] eqn:Hsh.
    - apply (binary_round_aux_finite _ _ _ _ _ _ 32); [lia|lia|]. vm_compute. discriminate.
    - apply (binary_round_aux_finite _ _ _ _ _ _ 32); [lia|lia|]. vm_compute. discriminate.
    - apply (binary_round_aux_finite _ _ _ _ _ _ (32 + Zpos d)); [lia| |].
      + rewrite Pos_iter_xO, Z.pow_add_r by lia. split; [lia|].
        apply Z.mul_lt_mono_pos_r; lia.
      + unfold fexp, F32.prec, F32.emax, emin in *. lia. }
  unfold INT_MIN, INT_MAX in Hz.
  destruct z as [|p|p]; [done|apply Hp; lia|apply Hp; lia].
Qed.

(** The product [index * time] for body 0 is a zero, whatever the tag. *)
Lemma mul_zero_float_of_int time :
  INT_MIN ≤ time ≤ INT_MAX →
  is_zero (F32.mul (float_of_int 0) (float_of_int time)) = true.
Proof.
  intros Ht. pose proof (float_of_int_finite time Ht) as Hf.
  by destruct (float_of_int time).
Qed.

Lemma seed_of_zero time :
  INT_MIN ≤ time ≤ INT_MAX → seed_of (float_of_int time) 0 = hash 0.
Proof.
  intros Ht. unfold seed_of. pose proof (mul_zero_float_of_int time Ht) as Hz.
  by destruct (F32.mul (float_of_int 0) (float_of_int time)).
Qed.

(** * Rounding does not step over a float *)

Lemma digits2_pos_gt p : Zpos p < 2 ^ Zpos (digits2_pos p).
Proof.
  induction p as [p IH|p IH|]; cbn [digits2_pos]; [| |done];
    rewrite Pos2Z.inj_succ, Z.pow_succ_r by lia; lia.
Qed.

Lemma shr_1_inv m0 n mrs : 0 ≤ n → shr_inv m0 n mrs → shr_inv m0 (n + 1) (shr_1 mrs).
Proof.
  intros Hn [Hm (rem & Hrem & Heq & Hbits)].
  destruct mrs as [m r s]. cbn [shr_m shr_r shr_s] in *.
  assert (0 < 2 ^ n) as Hpow by (apply Z.pow_pos_nonneg; lia).
  unfold shr_inv. rewrite Z.pow_add_r, Z.pow_1_r by lia.
  destruct m as [|[p|p|]|p]; cbn [shr_1 shr_m shr_r shr_s]; (split; [lia|]).
  - exists rem. split; [lia|]. split; [lia|]. cbn. exact Hbits.
  - exists (2 ^ n + rem). split; [lia|]. split; [lia|]. intros _. lia.
  - exists rem. split; [lia|]. split; [lia|]. cbn. exact Hbits.
  - exists (2 ^ n + rem). split; [lia|]. split; [lia|]. intros _. lia.
  - lia.
Qed.

Lemma iter_shr_1_inv m0 p : ∀ n mrs,
  0 ≤ n → shr_inv m0 n mrs → shr_inv m0 (n + Zpos p) (SpecFloat.iter_pos shr_1 p mrs).
Proof.
  induction p as [p IH|p IH|]; intros n mrs Hn Hinv; cbn [SpecFloat.iter_pos].
  - replace (n + Z.pos p~1) with ((n + 1) + Zpos p + Zpos p) by lia.
    apply IH; [lia|]. apply IH; [lia|]. by apply shr_1_inv.
  - replace (n + Z.pos p~0) with (n + Zpos p + Zpos p) by lia.
    apply IH; [lia|]. by apply IH.
  - by apply shr_1_inv.
Qed.

(** [shr_fexp] on an exact integer. *)
Lemma shr_fexp_inv prec emax m e :
  0 ≤ m →
  let r := shr_fexp prec emax m e loc_Exact in
  r.2 = Z.max e (fexp prec emax (Zdigits2 m + e)) ∧ shr_inv m (r.2 - e) r.1.
Proof.
  intros Hm. unfold shr_fexp, shr. cbn [shr_record_of_loc].
  assert (shr_inv m 0 {| shr_m := m; shr_r := false; shr_s := false |}) as H0.
  { split; [done|]. exists 0. cbn. split; [lia|]. split; [lia|done]. }
  destruct (fexp prec emax (Zdigits2 m + e) - e) as [|p|p] eqn:Hsh; cbn [fst snd].
  - split; [lia|]. by rewrite Z.sub_diag.
  - split; [lia|].
    replace (e + Z.pos p - e) with (0 + Z.pos p) by lia.
    by apply iter_shr_1_inv.
  - split; [lia|]. by rewrite Z.sub_diag.
Qed.

Lemma round_nearest_even_inv m0 n mrs :
  0 ≤ n → shr_inv m0 n mrs →
  0 ≤ round_nearest_even (shr_m mrs) (loc_of_shr_record mrs)
  ∧ round_nearest_even (shr_m mrs) (loc_of_shr_record mrs) * 2 ^ n < m0 + 2 ^ n.
Proof.
  intros Hn [Hm (rem & Hrem & Heq & Hbits)].
  assert (0 < 2 ^ n) as Hpow by (apply Z.pow_pos_nonneg; lia).
  destruct mrs as [m [] []]; cbn [shr_m shr_r shr_s loc_of_shr_record round_nearest_even] in *;
    try specialize (Hbits eq_refl); try (destruct (Z.even m)); nia.
Qed.

(** Monotonicity of powers of two, in the form the bounds below use. *)
Lemma pow2_split a b : 0 ≤ a → 0 ≤ b → 2 ^ (a + b) = 2 ^ a * 2 ^ b.
Proof. intros. by rewrite Z.pow_add_r. Qed.

Lemma Zdigits2_mul_pow2_le m ma k :
  0 ≤ k → 0 ≤ m → m ≤ Zpos ma * 2 ^ k → Zdigits2 m ≤ Zpos (digits2_pos ma) + k.
Proof.
  intros Hk Hm Hle. apply Zdigits2_le; [|lia].
  split; [done|]. rewrite pow2_split by lia.
  pose proof (digits2_pos_gt ma).
  assert (0 < 2 ^ k) by (apply Z.pow_pos_nonneg; lia). nia.
Qed.

(** Rounding an exact integer that does not exceed the float [(ma, ea)] gives
    a zero or a finite float that is not above [(ma, ea)] either. *)
Lemma binary_round_aux_le prec emax s P e ma ea :
  0 ≤ P →
  fexp prec emax (Zpos (digits2_pos ma) + ea) = ea → ea ≤ emax - prec →
  e ≤ ea → P ≤ Zpos ma * 2 ^ (ea - e) →
  match binary_round_aux prec emax s P e loc_Exact with
  | S754_zero _ => True
  | S754_finite _ m' e' => e' < ea ∨ (e' = ea ∧ (m' ≤ ma)%positive)
  | _ => False
  end.
Proof.
  intros HP Hcan Hmax He HPle. unfold binary_round_aux.
  pose proof (shr_fexp_inv prec emax P e HP) as H1.
  destruct (shr_fexp prec emax P e loc_Exact) as [mrs1 e1]. cbn [fst snd] in H1.
  destruct H1 as [He1 Hinv1].
  assert (e ≤ e1) as Hee1 by lia.
  assert (e1 ≤ ea) as He1a.
  { pose proof (Zdigits2_mul_pow2_le P ma (ea - e) ltac:(lia) HP HPle).
    unfold fexp in *. lia. }
  destruct (round_nearest_even_inv P (e1 - e) mrs1 ltac:(lia) Hinv1) as [Hm2 Hm2le].
  set (m2 := round_nearest_even (shr_m mrs1) (loc_of_shr_record mrs1)) in *.
  assert (m2 ≤ Zpos ma * 2 ^ (ea - e1)) as Hm2a.
  { replace (ea - e) with ((ea - e1) + (e1 - e)) in HPle by lia.
    rewrite pow2_split in HPle by lia.
    assert (0 < 2 ^ (e1 - e)) by (apply Z.pow_pos_nonneg; lia).
    assert (0 < 2 ^ (ea - e1)) by (apply Z.pow_pos_nonneg; lia). nia. }
  pose proof (shr_fexp_inv prec emax m2 e1 Hm2) as H2.
  destruct (shr_fexp prec emax m2 e1 loc_Exact) as [mrs2 e2]. cbn [fst snd] in H2.
  destruct H2 as [He2 [Hm3 (rem & Hrem & Heq & _)]].
  assert (e1 ≤ e2) as He12 by lia.
  assert (e2 ≤ ea) as He2a.
  { pose proof (Zdigits2_mul_pow2_le m2 ma (ea - e1) ltac:(lia) Hm2 Hm2a).
    unfold fexp in *. lia. }
  destruct (shr_m mrs2) as [|m3|m3] eqn:Hm3eq; [done| |lia].
  assert (e2 ≤ emax - prec) as Hfin by lia.
  apply Z.leb_le in Hfin. rewrite Hfin.
  destruct (decide (e2 = ea)) as [->|Hne]; [right|left; lia].
  split; [done|].
  assert (0 < 2 ^ (ea - e1)) by (apply Z.pow_pos_nonneg; lia).
  assert (Zpos m3 ≤ Zpos ma) by nia. lia.
Qed.

Lemma float_of_int_one : float_of_int 1 = S754_finite false 8388608 (-23).
Proof. reflexivity. Qed.

(** A float of magnitude at most 1, taken apart. *)
Lemma abs_le_one_finite s m e :
  F32.valid (S754_finite s m e) = true →
  SFleb (SFabs (S754_finite s m e)) (float_of_int 1) = true →
  e ≤ 0 ∧ Zpos m ≤ 2 ^ (- e).
Proof.
  intros Hv Hle. rewrite float_of_int_one in Hle.
  unfold F32.valid, valid_binary, bounded, canonical_mantissa in Hv.
  apply andb_true_iff in Hv as [Hcan _]. apply Z.eqb_eq in Hcan.
  unfold fexp, F32.prec, F32.emax, emin in Hcan.
  pose proof (digits2_pos_gt m) as Hd.
  unfold SFleb, SFabs, SFcompare in Hle.
  destruct (Z.compare_spec e (-23)) as [->|Hlt|Hgt]; [| |done].
  - split; [lia|]. cbn.
    change (Pos.compare_cont Eq m 8388608) with (Pos.compare m 8388608) in Hle.
    destruct (Pos.compare_spec m 8388608); [lia|lia|done].
  - split; [lia|].
    assert (2 ^ Zpos (digits2_pos m) ≤ 2 ^ (- e)) by (apply Z.pow_le_mono_r; lia).
    lia.
Qed.

(** Multiplying by a float of magnitude at most 1 does not increase the
    magnitude: rounding to nearest never steps over a float. *)
Lemma mul_abs_le a r :
  F32.valid a = true → is_finite a = true →
  F32.valid r = true → SFleb (SFabs r) (float_of_int 1) = true →
  SFleb (SFabs (F32.mul a r)) (SFabs a) = true.
Proof.
  intros Hva Hfa Hvr Hr.
  destruct a as [sa|sa| |sa ma ea]; try done.
  - by destruct r as [sr|sr| |sr mr er].
  - destruct r as [sr|sr| |sr mr er]; try done.
    destruct (abs_le_one_finite sr mr er Hvr Hr) as [Her Hmr].
    unfold F32.valid, valid_binary, bounded, canonical_mantissa in Hva.
    apply andb_true_iff in Hva as [Hcan Hmax].
    apply Z.eqb_eq in Hcan. apply Z.leb_le in Hmax.
    pose proof (binary_round_aux_le F32.prec F32.emax (xorb sa sr)
                  (Zpos (ma * mr)) (ea + er) ma ea ltac:(lia) Hcan Hmax ltac:(lia)) as Hround.
    replace (ea - (ea + er)) with (- er) in Hround by lia.
    specialize (Hround ltac:(rewrite Pos2Z.inj_mul; nia)).
    unfold F32.mul, SFmul.
    destruct (binary_round_aux F32.prec F32.emax (xorb sa sr) (Zpos (ma * mr)) (ea + er)
                loc_Exact) as [s'|s'| |s' m' e']; try done.
    unfold SFleb, SFabs, SFcompare.
    destruct Hround as [Hlt|[-> Hle]].
    + by rewrite (proj2 (Z.compare_lt_iff e' ea) Hlt).
    + rewrite Z.compare_refl.
      change (Pos.compare_cont Eq m' ma) with (Pos.compare m' ma).
      destruct (Pos.compare_spec m' ma); [done|done|lia].
Qed.

(** * Rounding stays in the format *)

Lemma digits2_pos_ge p : 2 ^ (Zpos (digits2_pos p) - 1) ≤ Zpos p.
Proof.
  induction p as [p IH|p IH|]; cbn [digits2_pos]; [| |done];
    rewrite Pos2Z.inj_succ;
    replace (Z.succ (Zpos (digits2_pos p)) - 1) with (Z.succ (Zpos (digits2_pos p) - 1)) by lia;
    rewrite Z.pow_succ_r by lia; lia.
Qed.

Lemma Zdigits2_ge m k : 0 ≤ k → 2 ^ k ≤ m → k + 1 ≤ Zdigits2 m.
Proof.
  intros Hk Hm.
  assert (0 < 2 ^ k) by (apply Z.pow_pos_nonneg; lia).
  destruct m as [|p|p]; [lia| |lia]. cbn [Zdigits2].
  pose proof (digits2_pos_gt p) as Hgt.
  destruct (Z.le_gt_cases (Zpos (digits2_pos p)) k) as [Hle|]; [|lia].
  assert (2 ^ Zpos (digits2_pos p) ≤ 2 ^ k) by (apply Z.pow_le_mono_r; lia). lia.
Qed.

(** The number of digits is the position of the leading one. *)
Lemma Zdigits2_unique m k : 0 < k → 2 ^ (k - 1) ≤ m < 2 ^ k → Zdigits2 m = k.
Proof.
  intros Hk [Hlo Hhi].
  assert (0 < 2 ^ (k - 1)) by (apply Z.pow_pos_nonneg; lia).
  pose proof (Zdigits2_le m k ltac:(lia) ltac:(lia)).
  pose proof (Zdigits2_ge m (k - 1) ltac:(lia) Hlo). lia.
Qed.

Lemma Zdigits2_bounds m : 0 < m → 2 ^ (Zdigits2 m - 1) ≤ m < 2 ^ Zdigits2 m.
Proof.
  intros Hm. destruct m as [|p|p]; [lia| |lia]. cbn [Zdigits2].
  split; [apply digits2_pos_ge|apply digits2_pos_gt].
Qed.

Lemma round_nearest_even_ge m l : m ≤ round_nearest_even m l.
Proof. unfold round_nearest_even. destruct l as [|[]]; try lia. destruct (Z.even m); lia. Qed.

Lemma shr_inv_0 m mrs : shr_inv m 0 mrs → shr_m mrs = m.
Proof. intros [_ (rem & Hrem & Heq & _)]. cbn in *. lia. Qed.

(** Rounding an exact integer whose exponent is not above the format's gives
    a float of the format. *)
Lemma binary_round_aux_valid prec emax s P e :
  0 < prec → 0 < P → e ≤ fexp prec emax (Zdigits2 P + e) →
  valid_binary prec emax (binary_round_aux prec emax s P e loc_Exact) = true.
Proof.
  intros Hprec HP He. unfold binary_round_aux.
  pose proof (shr_fexp_inv prec emax P e ltac:(lia)) as H1.
  destruct (shr_fexp prec emax P e loc_Exact) as [mrs1 e1]. cbn [fst snd] in H1.
  destruct H1 as [He1 Hinv1].
  pose proof (Zdigits2_bounds P HP) as [HdPlo HdPhi].
  set (d := Zdigits2 P) in *.
  assert (0 < d) as Hd.
  { destruct P as [|p|p]; try lia. subst d. cbn. lia. }
  assert (e1 = fexp prec emax (d + e)) as He1' by lia.
  set (n := e1 - e) in *.
  assert (0 ≤ n) as Hn by lia.
  destruct (round_nearest_even_inv P n mrs1 Hn Hinv1) as [Hm2 Hm2hi].
  pose proof (round_nearest_even_ge (shr_m mrs1) (loc_of_shr_record mrs1)) as Hm2lo.
  destruct Hinv1 as [Hm1 (rem1 & Hrem1 & HPeq & _)].
  set (m1 := shr_m mrs1) in *.
  set (m2 := round_nearest_even m1 (loc_of_shr_record mrs1)) in *.
  assert (0 < 2 ^ n) as Hpn by (apply Z.pow_pos_nonneg; lia).
  assert (emin prec emax ≤ e1) as Hemin by (unfold fexp in He1'; lia).
  assert (d + e - prec ≤ e1) as Hnorm by (unfold fexp in He1'; lia).
  (* the bound on [m2] *)
  set (q := Z.max (d - n) 0).
  assert (0 ≤ q ≤ prec) as Hq by lia.
  assert (m2 ≤ 2 ^ q) as Hm2q.
  { assert (0 < 2 ^ q) by (apply Z.pow_pos_nonneg; lia).
    destruct (Z.le_gt_cases n d) as [Hnd|Hnd].
    - replace d with (q + n) in HdPhi by lia.
      rewrite pow2_split in HdPhi by lia. nia.
    - assert (2 ^ d ≤ 2 ^ n) by (apply Z.pow_le_mono_r; lia).
      assert (q = 0) as -> by lia. cbn. nia. }
  (* when the exponent is above [emin], [m1] has all its digits *)
  assert (emin prec emax < e1 → 2 ^ (prec - 1) ≤ m1) as Hfull.
  { intros Hgt. assert (n = d - prec) as Hnd by (unfold fexp in He1'; lia).
    replace (d - 1) with ((prec - 1) + n) in HdPlo by lia.
    rewrite pow2_split in HdPlo by lia.
    assert (0 < 2 ^ (prec - 1)) by (apply Z.pow_pos_nonneg; lia). nia. }
  pose proof (shr_fexp_inv prec emax m2 e1 Hm2) as H2.
  destruct (shr_fexp prec emax m2 e1 loc_Exact) as [mrs2 e2]. cbn [fst snd] in H2.
  destruct H2 as [He2 Hinv2].
  destruct (shr_m mrs2) as [|m3|m3] eqn:Hm3; [done| |destruct Hinv2; lia].
  destruct (Z.leb_spec e2 (emax - prec)) as [Hfin|Hinf]; [|done].
  cbn [valid_binary]. unfold bounded, canonical_mantissa.
  apply andb_true_iff. split; [|by apply Z.leb_le].
  apply Z.eqb_eq. change (Zpos (digits2_pos m3)) with (Zdigits2 (Zpos m3)).
  assert (0 < m2) as Hm2pos.
  { destruct Hinv2 as [_ (rem2 & Hrem2 & Heq2 & _)]. rewrite Hm3 in Heq2.
    assert (0 < 2 ^ (e2 - e1)) by (apply Z.pow_pos_nonneg; lia). nia. }
  destruct (Z.lt_ge_cases m2 (2 ^ prec)) as [Hlt|Hge].
  - (* no carry out of the mantissa *)
    assert (Zdigits2 m2 ≤ prec) as Hd2 by (apply Zdigits2_le; lia).
    assert (e2 = e1) as -> by (unfold fexp in He2; lia).
    rewrite Z.sub_diag in Hinv2. apply shr_inv_0 in Hinv2.
    rewrite Hm3 in Hinv2. rewrite Hinv2.
    destruct (Z.eq_dec e1 (emin prec emax)) as [Heq|Hne].
    + unfold fexp. lia.
    + rewrite (Zdigits2_unique m2 prec) by lia. unfold fexp. lia.
  - (* the rounding carried: [m2 = 2^prec] *)
    assert (q = prec) as Hqp.
    { destruct (Z.eq_dec q prec); [done|].
      assert (2 ^ q < 2 ^ prec) by (apply Z.pow_lt_mono_r; lia). lia. }
    assert (m2 = 2 ^ prec) as Hm2eq by (rewrite Hqp in Hm2q; lia).
    assert (Zdigits2 m2 = prec + 1) as Hd2.
    { apply Zdigits2_unique; [lia|]. replace (prec + 1 - 1) with prec by lia.
      rewrite Z.pow_add_r, Z.pow_1_r by lia. lia. }
    assert (e2 = e1 + 1) as -> by (unfold fexp in He2; lia).
    replace (e1 + 1 - e1) with 1 in Hinv2 by lia.
    destruct Hinv2 as [_ (rem2 & Hrem2 & Heq2 & _)]. rewrite Hm3 in Heq2.
    change (2 ^ 1) with 2 in *.
    assert (Zpos m3 = 2 ^ (prec - 1)) as Hm3eq.
    { replace prec with ((prec - 1) + 1) in Hm2eq at 1 by lia.
      rewrite Z.pow_add_r, Z.pow_1_r in Hm2eq by lia. lia. }
    rewrite (Zdigits2_unique (Zpos m3) prec); [unfold fexp; lia|lia|].
    rewrite Hm3eq. split; [lia|]. apply Z.pow_lt_mono_r; lia.
Qed.

(** The product of two floats of the format is a float of the format. *)
Lemma mul_valid a r :
  F32.valid a = true → F32.valid r = true → F32.valid (F32.mul a r) = true.
Proof.
  intros Hva Hvr.
  destruct a as [sa|sa| |sa ma ea], r as [sr|sr| |sr mr er]; try done.
  unfold F32.valid, valid_binary, bounded, canonical_mantissa in Hva, Hvr.
  apply andb_true_iff in Hva as [Hca _]. apply Z.eqb_eq in Hca.
  apply andb_true_iff in Hvr as [Hcr _]. apply Z.eqb_eq in Hcr.
  unfold F32.mul, SFmul. apply binary_round_aux_valid; [done|done|].
  pose proof (digits2_pos_ge ma) as Hma. pose proof (digits2_pos_ge mr) as Hmr.
  assert (0 < Zpos (digits2_pos ma)) as Hda by lia.
  assert (0 < Zpos (digits2_pos mr)) as Hdr by lia.
  assert (Zpos (digits2_pos ma) + Zpos (digits2_pos mr) - 1 ≤ Zdigits2 (Zpos (ma * mr)))
    as HdP.
  { pose proof (Zdigits2_ge (Zpos (ma * mr))
                  (Zpos (digits2_pos ma) - 1 + (Zpos (digits2_pos mr) - 1)) ltac:(lia)) as H.
    rewrite pow2_split in H by lia. rewrite Pos2Z.inj_mul in *.
    assert (0 < 2 ^ (Zpos (digits2_pos ma) - 1)) by (apply Z.pow_pos_nonneg; lia).
    assert (0 < 2 ^ (Zpos (digits2_pos mr) - 1)) by (apply Z.pow_pos_nonneg; lia).
    specialize (H ltac:(nia)). lia. }
  unfold fexp, F32.prec, F32.emax, emin in *. lia.
Qed.

(** * Exact products and quotients in the format *)

Lemma Zdigits2_mul_pow2 m k : 0 < m → 0 ≤ k → Zdigits2 (m * 2 ^ k) = Zdigits2 m + k.
Proof.
  intros Hm Hk. pose proof (Zdigits2_bounds m Hm) as [Hlo Hhi].
  assert (0 < Zdigits2 m) as Hd by (destruct m; cbn; lia).
  assert (0 < 2 ^ k) by (apply Z.pow_pos_nonneg; lia).
  assert (0 < 2 ^ (Zdigits2 m - 1)) by (apply Z.pow_pos_nonneg; lia).
  apply Zdigits2_unique; [lia|].
  replace (Zdigits2 m + k - 1) with ((Zdigits2 m - 1) + k) by lia.
  rewrite !pow2_split by lia. nia.
Qed.

(** Rounding [m * 2^k] at exponent [e - k] when [(m, e)] is a float of the
    format gives that float back. *)
Lemma binary_round_aux_exact prec emax s m e k :
  0 ≤ k → fexp prec emax (Zdigits2 (Zpos m) + e) = e → e ≤ emax - prec →
  binary_round_aux prec emax s (Zpos m * 2 ^ k) (e - k) loc_Exact = S754_finite s m e.
Proof.
  intros Hk Hcan Hmax. unfold binary_round_aux.
  assert (0 < 2 ^ k) as Hpk by (apply Z.pow_pos_nonneg; lia).
  pose proof (shr_fexp_inv prec emax (Zpos m * 2 ^ k) (e - k) ltac:(lia)) as H1.
  destruct (shr_fexp prec emax (Zpos m * 2 ^ k) (e - k) loc_Exact) as [mrs1 e1].
  cbn [fst snd] in H1. destruct H1 as [He1 Hinv1].
  rewrite Zdigits2_mul_pow2 in He1 by lia.
  replace (Zdigits2 (Zpos m) + k + (e - k)) with (Zdigits2 (Zpos m) + e) in He1 by lia.
  rewrite Hcan in He1. assert (e1 = e) as -> by lia.
  replace (e - (e - k)) with k in Hinv1 by lia.
  destruct Hinv1 as [Hm1 (rem & Hrem & Heq & Hbits)].
  assert (shr_m mrs1 = Zpos m) as Hm1eq.
  { destruct (Z.lt_trichotomy (shr_m mrs1) (Zpos m)) as [Hlt|[?|Hgt]]; [|done|].
    - assert (shr_m mrs1 + 1 ≤ Zpos m) by lia. nia.
    - assert (Zpos m + 1 ≤ shr_m mrs1) by lia. nia. }
  assert (rem = 0) as -> by (rewrite Hm1eq in Heq; lia).
  destruct mrs1 as [m1 r1 s1]. cbn [shr_m shr_r shr_s] in *. subst m1.
  assert (r1 = false ∧ s1 = false) as [-> ->].
  { destruct r1, s1; try done; specialize (Hbits eq_refl); lia. }
  cbn [loc_of_shr_record round_nearest_even].
  pose proof (shr_fexp_inv prec emax (Zpos m) e ltac:(lia)) as H2.
  destruct (shr_fexp prec emax (Zpos m) e loc_Exact) as [mrs2 e2].
  cbn [fst snd] in H2. destruct H2 as [He2 Hinv2].
  rewrite Hcan in He2. assert (e2 = e) as -> by lia.
  rewrite Z.sub_diag in Hinv2. apply shr_inv_0 in Hinv2. rewrite Hinv2.
  apply Z.leb_le in Hmax. by rewrite Hmax.
Qed.

(** [x * 1.0f] is [x]. *)
Lemma mul_one_r x : F32.valid x = true → F32.mul x (float_of_int 1) = x.
Proof.
  intros Hv. rewrite float_of_int_one.
  destruct x as [[]|[]| |s m e]; try done.
  unfold F32.valid, valid_binary, bounded, canonical_mantissa in Hv.
  apply andb_true_iff in Hv as [Hcan Hmax]. apply Z.eqb_eq in Hcan. apply Z.leb_le in Hmax.
  unfold F32.mul, SFmul. rewrite xorb_false_r.
  replace (Zpos (m * 8388608)) with (Zpos m * 2 ^ 23) by (by rewrite Pos2Z.inj_mul).
  replace (e + -23) with (e - 23) by lia.
  by apply binary_round_aux_exact.
Qed.

(** [1.0f * x] is [x]. *)
Lemma mul_one_l x : F32.valid x = true → F32.mul (float_of_int 1) x = x.
Proof.
  intros Hv. rewrite float_of_int_one.
  destruct x as [[]|[]| |s m e]; try done.
  unfold F32.valid, valid_binary, bounded, canonical_mantissa in Hv.
  apply andb_true_iff in Hv as [Hcan Hmax]. apply Z.eqb_eq in Hcan. apply Z.leb_le in Hmax.
  unfold F32.mul, SFmul. rewrite xorb_false_l.
  replace (Zpos (8388608 * m)) with (Zpos m * 2 ^ 23) by (rewrite Pos2Z.inj_mul; lia).
  replace (-23 + e) with (e - 23) by lia.
  by apply binary_round_aux_exact.
Qed.

(** What [n] shifts keep of the integer [m0], whatever the location the
    shifting started from: the quotient by [2^n]. *)
Lemma shr_1_quot m0 n mrs :
  0 ≤ n →
  (0 ≤ shr_m mrs ∧ ∃ rem, 0 ≤ rem < 2 ^ n ∧ m0 = shr_m mrs * 2 ^ n + rem) →
  0 ≤ shr_m (shr_1 mrs)
  ∧ ∃ rem, 0 ≤ rem < 2 ^ (n + 1) ∧ m0 = shr_m (shr_1 mrs) * 2 ^ (n + 1) + rem.
Proof.
  intros Hn [Hm (rem & Hrem & Heq)].
  destruct mrs as [m r s]. cbn [shr_m] in *.
  assert (0 < 2 ^ n) as Hpow by (apply Z.pow_pos_nonneg; lia).
  rewrite Z.pow_add_r, Z.pow_1_r by lia.
  destruct m as [|[p|p|]|p]; cbn [shr_1 shr_m]; (split; [lia|]).
  - exists rem. lia.
  - exists (2 ^ n + rem). lia.
  - exists rem. lia.
  - exists (2 ^ n + rem). lia.
  - lia.
Qed.

Lemma iter_shr_1_quot m0 p : ∀ n mrs,
  0 ≤ n →
  (0 ≤ shr_m mrs ∧ ∃ rem, 0 ≤ rem < 2 ^ n ∧ m0 = shr_m mrs * 2 ^ n + rem) →
  0 ≤ shr_m (SpecFloat.iter_pos shr_1 p mrs)
  ∧ ∃ rem, 0 ≤ rem < 2 ^ (n + Zpos p)
           ∧ m0 = shr_m (SpecFloat.iter_pos shr_1 p mrs) * 2 ^ (n + Zpos p) + rem.
Proof.
  induction p as [p IH|p IH|]; intros n mrs Hn Hinv; cbn [SpecFloat.iter_pos].
  - replace (n + Z.pos p~1) with ((n + 1) + Zpos p + Zpos p) by lia.
    apply IH; [lia|]. apply IH; [lia|]. by apply shr_1_quot.
  - replace (n + Z.pos p~0) with (n + Zpos p + Zpos p) by lia.
    apply IH; [lia|]. by apply IH.
  - by apply shr_1_quot.
Qed.

Lemma shr_fexp_quot prec emax m e l :
  0 ≤ m →
  let r := shr_fexp prec emax m e l in
  r.2 = Z.max e (fexp prec emax (Zdigits2 m + e))
  ∧ 0 ≤ shr_m r.1
  ∧ ∃ rem, 0 ≤ rem < 2 ^ (r.2 - e) ∧ m = shr_m r.1 * 2 ^ (r.2 - e) + rem.
Proof.
  intros Hm. unfold shr_fexp, shr.
  assert (shr_m (shr_record_of_loc m l) = m) as Hrec by (by destruct l as [|[]]).
  assert (0 ≤ shr_m (shr_record_of_loc m l)
          ∧ ∃ rem, 0 ≤ rem < 2 ^ 0
                   ∧ m = shr_m (shr_record_of_loc m l) * 2 ^ 0 + rem) as H0.
  { rewrite Hrec. split; [done|]. exists 0. cbn. lia. }
  destruct (fexp prec emax (Zdigits2 m + e) - e) as [|p|p] eqn:Hsh; cbn [fst snd].
  - split; [lia|]. by rewrite Z.sub_diag.
  - split; [lia|].
    replace (e + Z.pos p - e) with (0 + Z.pos p) by lia.
    by apply iter_shr_1_quot.
  - split; [lia|]. by rewrite Z.sub_diag.
Qed.

(** Rounding an integer with any location gives a float of the format, as
    long as its exponent is not above the format's. *)
Lemma binary_round_aux_valid_loc prec emax s P e l :
  0 < prec → 0 ≤ P → e ≤ fexp prec emax (Zdigits2 P + e) →
  valid_binary prec emax (binary_round_aux prec emax s P e l) = true.
Proof.
  intros Hprec HP He. unfold binary_round_aux.
  pose proof (shr_fexp_quot prec emax P e l HP) as H1.
  destruct (shr_fexp prec emax P e l) as [mrs1 e1]. cbn [fst snd] in H1.
  destruct H1 as (He1 & Hm1 & rem1 & Hrem1 & HPeq).
  set (d := Zdigits2 P) in *.
  assert (0 ≤ d) as Hd by (destruct P as [|p|p]; subst d; cbn; lia).
  assert (P < 2 ^ d) as HdPhi.
  { destruct (Z.eq_dec P 0) as [->|]; [subst d; cbn; lia|].
    apply Zdigits2_bounds. lia. }
  assert (0 < P → 2 ^ (d - 1) ≤ P) as HdPlo by (intros; by apply Zdigits2_bounds).
  assert (e1 = fexp prec emax (d + e)) as He1' by lia.
  set (n := e1 - e) in *.
  assert (0 ≤ n) as Hn by lia.
  pose proof (round_nearest_even_bounds (shr_m mrs1) (loc_of_shr_record mrs1) Hm1)
    as [Hm2 Hm2hi].
  pose proof (round_nearest_even_ge (shr_m mrs1) (loc_of_shr_record mrs1)) as Hm2lo.
  set (m1 := shr_m mrs1) in *.
  set (m2 := round_nearest_even m1 (loc_of_shr_record mrs1)) in *.
  assert (0 < 2 ^ n) as Hpn by (apply Z.pow_pos_nonneg; lia).
  assert (emin prec emax ≤ e1) as Hemin by (unfold fexp in He1'; lia).
  set (q := Z.max (d - n) 0).
  assert (0 ≤ q ≤ prec) as Hq by (unfold fexp in He1'; lia).
  assert (m2 ≤ 2 ^ q) as Hm2q.
  { assert (0 < 2 ^ q) by (apply Z.pow_pos_nonneg; lia).
    destruct (Z.le_gt_cases n d) as [Hnd|Hnd].
    - replace d with (q + n) in HdPhi by lia.
      rewrite pow2_split in HdPhi by lia. nia.
    - assert (2 ^ d ≤ 2 ^ n) by (apply Z.pow_le_mono_r; lia).
      assert (q = 0) as -> by lia. cbn. nia. }
  assert (emin prec emax < e1 → 2 ^ (prec - 1) ≤ m1) as Hfull.
  { intros Hgt. assert (n = d - prec) as Hnd by (unfold fexp in He1'; lia).
    assert (0 < P) as HPpos.
    { destruct (Z.eq_dec P 0) as [HP0|]; [|lia].
      subst d. rewrite HP0 in *. cbn in *. unfold fexp in *. lia. }
    specialize (HdPlo HPpos).
    replace (d - 1) with ((prec - 1) + n) in HdPlo by lia.
    rewrite pow2_split in HdPlo by lia.
    assert (0 < 2 ^ (prec - 1)) by (apply Z.pow_pos_nonneg; lia). nia. }
  pose proof (shr_fexp_inv prec emax m2 e1 Hm2) as H2.
  destruct (shr_fexp prec emax m2 e1 loc_Exact) as [mrs2 e2]. cbn [fst snd] in H2.
  destruct H2 as [He2 Hinv2].
  destruct (shr_m mrs2) as [|m3|m3] eqn:Hm3; [done| |destruct Hinv2; lia].
  destruct (Z.leb_spec e2 (emax - prec)) as [Hfin|Hinf]; [|done].
  cbn [valid_binary]. unfold bounded, canonical_mantissa.
  apply andb_true_iff. split; [|by apply Z.leb_le].
  apply Z.eqb_eq. change (Zpos (digits2_pos m3)) with (Zdigits2 (Zpos m3)).
  assert (0 < m2) as Hm2pos.
  { destruct Hinv2 as [_ (rem2 & Hrem2 & Heq2 & _)]. rewrite Hm3 in Heq2.
    assert (0 < 2 ^ (e2 - e1)) by (apply Z.pow_pos_nonneg; lia). nia. }
  destruct (Z.lt_ge_cases m2 (2 ^ prec)) as [Hlt|Hge].
  - assert (Zdigits2 m2 ≤ prec) as Hd2 by (apply Zdigits2_le; lia).
    assert (e2 = e1) as -> by (unfold fexp in He2; lia).
    rewrite Z.sub_diag in Hinv2. apply shr_inv_0 in Hinv2.
    rewrite Hm3 in Hinv2. rewrite Hinv2.
    destruct (Z.eq_dec e1 (emin prec emax)) as [Heq|Hne].
    + unfold fexp. lia.
    + rewrite (Zdigits2_unique m2 prec) by lia. unfold fexp. lia.
  - assert (q = prec) as Hqp.
    { destruct (Z.eq_dec q prec); [done|].
      assert (2 ^ q < 2 ^ prec) by (apply Z.pow_lt_mono_r; lia). lia. }
    assert (m2 = 2 ^ prec) as Hm2eq by (rewrite Hqp in Hm2q; lia).
    assert (Zdigits2 m2 = prec + 1) as Hd2.
    { apply Zdigits2_unique; [lia|]. replace (prec + 1 - 1) with prec by lia.
      rewrite Z.pow_add_r, Z.pow_1_r by lia. lia. }
    assert (e2 = e1 + 1) as -> by (unfold fexp in He2; lia).
    replace (e1 + 1 - e1) with 1 in Hinv2 by lia.
    destruct Hinv2 as [_ (rem2 & Hrem2 & Heq2 & _)]. rewrite Hm3 in Heq2.
    change (2 ^ 1) with 2 in *.
    assert (Zpos m3 = 2 ^ (prec - 1)) as Hm3eq.
    { replace prec with ((prec - 1) + 1) in Hm2eq at 1 by lia.
      rewrite Z.pow_add_r, Z.pow_1_r in Hm2eq by lia. lia. }
    rewrite (Zdigits2_unique (Zpos m3) prec); [unfold fexp; lia|lia|].
    rewrite Hm3eq. split; [lia|]. apply Z.pow_lt_mono_r; lia.
Qed.

(** The quotient the division hands to the rounding has its exponent within
    the format's. *)
Lemma SFdiv_core_binary_exponent prec emax m1 e1 m2 e2 :
  0 < prec → 0 < m1 → 0 < m2 →
  let r := SFdiv_core_binary prec emax m1 e1 m2 e2 in
  0 ≤ r.1.1 ∧ r.1.2 ≤ fexp prec emax (Zdigits2 r.1.1 + r.1.2).
Proof.
  intros Hprec Hm1 Hm2. unfold SFdiv_core_binary.
  pose proof (Zdigits2_bounds m1 Hm1) as [Hd1lo Hd1hi].
  pose proof (Zdigits2_bounds m2 Hm2) as [Hd2lo Hd2hi].
  set (d1 := Zdigits2 m1) in *. set (d2 := Zdigits2 m2) in *.
  assert (0 < d1) as Hd1 by (destruct m1; subst d1; cbn; lia).
  assert (0 < d2) as Hd2 by (destruct m2; subst d2; cbn; lia).
  set (e' := Z.min (fexp prec emax (d1 + e1 - (d2 + e2))) (e1 - e2)).
  set (s := e1 - e2 - e').
  assert (0 ≤ s) as Hs by lia.
  set (m' := match s with 0 => m1 | Z.pos _ => Z.shiftl m1 s | Z.neg _ => 0 end).
  assert (m' = m1 * 2 ^ s) as Hm'.
  { subst m'. destruct s as [|p|p] eqn:Hseq; [cbn; lia| |lia].
    by rewrite Z.shiftl_mul_pow2. }
  assert (0 < 2 ^ s) as Hps by (apply Z.pow_pos_nonneg; lia).
  pose proof (Z.div_eucl_eq m' m2 ltac:(lia)) as Heucl.
  pose proof (Z.mod_pos_bound m' m2 Hm2) as Hmod. unfold Z.modulo in Hmod.
  destruct (Z.div_eucl m' m2) as [q r]. cbn [fst snd].
  assert (0 ≤ q) as Hq by nia.
  split; [done|].
  destruct (Z.eq_dec q 0) as [->|Hq0].
  - (* the quotient vanished: the exponent is at most [emin] *)
    cbn [Zdigits2]. rewrite Z.add_0_l.
    assert (d1 + s ≤ d2) as Hds.
    { destruct (Z.le_gt_cases (d1 + s) d2) as [|Hgt]; [done|].
      assert (2 ^ d2 ≤ 2 ^ (d1 + s - 1)) by (apply Z.pow_le_mono_r; lia).
      replace (d1 + s - 1) with ((d1 - 1) + s) in * by lia.
      rewrite pow2_split in * by lia. nia. }
    unfold fexp in *. lia.
  - assert (d1 + s - d2 ≤ Zdigits2 q) as Hdq.
    { assert (0 < Zdigits2 q) by (destruct q; cbn; lia).
      destruct (Z.le_gt_cases (d1 + s - d2) 0) as [|Hk]; [lia|].
      pose proof (Zdigits2_ge q (d1 + s - d2 - 1) ltac:(lia)) as Hge.
      assert (2 ^ (d1 + s - d2 - 1) ≤ q); [|lia].
      assert (0 < 2 ^ (d1 + s - d2 - 1)) by (apply Z.pow_pos_nonneg; lia).
      assert (2 ^ (d1 + s - d2 - 1) * 2 ^ d2 ≤ m') as Hlow.
      { rewrite <- pow2_split by lia.
        replace (d1 + s - d2 - 1 + d2) with ((d1 - 1) + s) by lia.
        rewrite pow2_split by lia. nia. }
      destruct (Z.le_gt_cases (2 ^ (d1 + s - d2 - 1)) q) as [|Hlt]; [done|].
      assert (q + 1 ≤ 2 ^ (d1 + s - d2 - 1)) by lia. nia. }
    unfold fexp in *. lia.
Qed.

(** The quotient of two floats is a float of the format. *)
Lemma div_valid a b : F32.valid (F32.div a b) = true.
Proof.
  destruct a as [sa|sa| |sa ma ea], b as [sb|sb| |sb mb eb]; try done.
  unfold F32.div, SFdiv.
  pose proof (SFdiv_core_binary_exponent F32.prec F32.emax (Zpos ma) ea (Zpos mb) eb
                ltac:(done) ltac:(done) ltac:(done)) as H.
  destruct (SFdiv_core_binary F32.prec F32.emax (Zpos ma) ea (Zpos mb) eb) as [[mz ez] lz].
  cbn [fst snd] in H. destruct H as [Hmz Hez].
  by apply binary_round_aux_valid_loc.
Qed.

(** Two folds over the same list that agree on its elements. *)
Lemma foldl_ext_in {A B} (f g : A → B → A) (l : list B) a :
  (∀ a b, b ∈ l → f a b = g a b) → foldl f a l = foldl g a l.
Proof.
  revert a. induction l as [|b l IH]; intros a Hfg; [done|]. cbn [foldl].
  rewrite Hfg by apply list_elem_of_here.
  apply IH. intros a' b' Hb'. apply Hfg. by apply list_elem_of_further.
Qed.

(** * The force evaluator *)

(** The two-body law [accelOne] applies, with its guard. *)
Lemma accelOne_law planet other mass :
  accelOne planet other mass =
  if gtb (double_of_float (squared_distance planet other)) threshold then
    glm.scale_l
      (F32.mul (float_of_int 1)
         (F32.div (float_of_double (F64.mul G (double_of_float mass)))
                  (squared_distance planet other)))
      (glm.normalize (glm.sub other planet))
  else origin.
Proof. reflexivity. Qed.

(** The contribution [accelOne] computes is the one of the law: the quotient
    [num / denom] is a float of the format, so the factor [1 *] in front of
    it changes nothing. *)
Lemma accelOne_pairwise_contribution self other mass :
  accelOne self other mass = pairwise_contribution self other mass.
Proof.
  rewrite accelOne_law. unfold pairwise_contribution. cbv zeta.
  by rewrite mul_one_l by apply div_valid.
Qed.

(** C1. For a body [i] with [0 <= i < N], [accelerate] returns the
    central-mass contribution at the origin to which the pairwise
    contributions [accelOne planet pos[j] planetMass] are added one after the
    other for [j = 0, ..., N-1], [j = i] included.  Every contribution is the
    one of the law [G * mass * normalize (other - self) / r^2] under the
    guard on the squared distance.  The self term is the zero vector, so the
    total denotes the same numbers as the sum that leaves the body itself
    out, and for [N = 1] it denotes the central-mass contribution alone. *)
Theorem accelerate_sums_all_bodies N i pos :
  0 ≤ i < N → length pos = Z.to_nat N →
  accelerate N i pos =
    foldl (λ a j, glm.add a (accelOne (load pos i) (load pos j) planetMass))
          (accelOne (load pos i) origin starMass) (seqZ 0 N)
  ∧ (∀ self other mass,
       accelOne self other mass =
       if gtb (double_of_float (squared_distance self other)) threshold then
         glm.scale_l
           (F32.div (float_of_double (F64.mul G (double_of_float mass)))
                    (squared_distance self other))
           (glm.normalize (glm.sub other self))
       else origin)
  ∧ accelerate N i pos =
      foldl (λ a j, glm.add a (pairwise_contribution (load pos i) (load pos j) planetMass))
            (pairwise_contribution (load pos i) origin starMass) (seqZ 0 N)
  ∧ i ∈ seqZ 0 N
  ∧ accelOne (load pos i) (load pos i) planetMass = origin
  ∧ veq (accelerate N i pos) (accelerate_others N i pos)
  ∧ (N = 1 → veq (accelerate N i pos) (accelOne (load pos i) origin starMass)).
Proof.
  intros Hi Hlen.
  assert (accelerate N i pos =
            foldl (λ a j, glm.add a (accelOne (load pos i) (load pos j) planetMass))
                  (accelOne (load pos i) origin starMass) (seqZ 0 N)) as Hsum.
  { unfold accelerate. rewrite accelerate_loop_foldl by lia.
    by rewrite Z.sub_0_r. }
  split; [exact Hsum|]. split; [|split; [|split; [|split; [|split]]]].
  - intros self other mass. apply accelOne_pairwise_contribution.
  - rewrite Hsum, accelOne_pairwise_contribution.
    apply foldl_ext_in. intros a j _. by rewrite accelOne_pairwise_contribution.
  - apply elem_of_seqZ. lia.
  - apply accelOne_diag.
  - apply accelerate_loop_others, veq_refl.
  - intros ->. assert (i = 0) as -> by lia.
    unfold accelerate. rewrite accelerate_loop_foldl by lia.
    rewrite (seqZ_cons 0 (1 - 0)), (seqZ_nil _ (Z.pred (1 - 0))) by lia.
    cbn [foldl]. rewrite accelOne_diag. apply veq_add_origin.
Qed.


(** C4. When the squared separation the code computes is at most the
    threshold 0.1, and also when the two positions coincide, the pairwise
    contribution is the zero vector: no direction is normalized, and the
    three components are finite (hence not NaN). *)
Theorem accelOne_singularity_guard planet other mass :
  SFleb (double_of_float (squared_distance planet other)) threshold = true
    ∨ other = planet →
  accelOne planet other mass = glm.vec3_of_ints 0 0 0
  ∧ vec3_finite (accelOne planet other mass) = true
  ∧ is_nan (vx (accelOne planet other mass)) = false
  ∧ is_nan (vy (accelOne planet other mass)) = false
  ∧ is_nan (vz (accelOne planet other mass)) = false.
Proof.
  intros Hg.
  assert (accelOne planet other mass = origin) as ->; [|done].
  destruct Hg as [Hle| ->].
  - by apply accelOne_guard, SFleb_not_gtb.
  - apply accelOne_diag.
Qed.

(** C8. The central mass goes through the same guard as the other bodies:
    for a body whose squared distance from the origin is at most the
    threshold 0.1 the central-mass term is the zero vector, and the total
    acceleration is the sum of the pairwise terms started from zero. *)
Theorem central_mass_guard N i pos :
  SFleb (double_of_float (squared_distance (load pos i) origin)) threshold = true →
  threshold = double_lit 1 1
  ∧ accelOne (load pos i) (glm.vec3_of_ints 0 0 0) starMass = glm.vec3_of_ints 0 0 0
  ∧ accelerate N i pos =
      accelerate_loop (Z.to_nat N) N 0 (load pos i) pos (glm.vec3_of_ints 0 0 0).
Proof.
  intros Hle. split; [done|].
  assert (accelOne (load pos i) (glm.vec3_of_ints 0 0 0) starMass = origin) as Hc
    by by apply accelOne_guard, SFleb_not_gtb.
  split; [done|]. unfold accelerate. by rewrite Hc.
Qed.

(** * The integrator *)

(** C2. One step first adds [acc * dt] to the velocity and then adds the
    new velocity times [dt] to the position, for every body and every [dt];
    so the new position is [pos + (vel + acc * dt) * dt]. *)
Theorem step_is_semi_implicit_euler dt st i :
  wf_state st → 0 ≤ i < numObjects st →
  let st' := stepSimulation dt st in
  let a := load (dev_acc st') i in
  a = accelerate (numObjects st) i (dev_pos st)
  ∧ load (dev_vel st') i = glm.add (load (dev_vel st) i) (glm.scale_r a dt)
  ∧ load (dev_pos st') i =
      glm.add (load (dev_pos st) i) (glm.scale_r (load (dev_vel st') i) dt)
  ∧ load (dev_pos st') i =
      glm.add (load (dev_pos st) i)
        (glm.scale_r (glm.add (load (dev_vel st) i) (glm.scale_r a dt)) dt).
Proof.
  intros Hwf Hi st' a.
  destruct (stepSimulation_on_spec _ _ dt st Hwf (schedule_of_grid _) (schedule_of_grid _))
    as (_ & _ & _ & _ & Hstep).
  destruct (Hstep i Hi) as (Ha & Hv & Hp).
  fold (stepSimulation dt st) in Ha, Hv, Hp. fold st' in Ha, Hv, Hp. fold a in Ha, Hv.
  repeat (split; [done|]). by rewrite Hp, Hv.
Qed.

(** C10. The acceleration pass does not look at [dt]: two steps from states
    with the same body count and the same positions write the same
    acceleration array, whatever the two time steps are, and what they write
    for body [i] is [accelerate N i pos]. *)
Theorem acceleration_pass_ignores_dt dt1 dt2 st1 st2 :
  wf_state st1 → wf_state st2 →
  numObjects st1 = numObjects st2 → dev_pos st1 = dev_pos st2 →
  kernUpdateAcc (numObjects st1) dt1 (dev_pos st1)
    = kernUpdateAcc (numObjects st1) dt2 (dev_pos st1)
  ∧ dev_acc (stepSimulation dt1 st1) = dev_acc (stepSimulation dt2 st2)
  ∧ dev_acc (stepSimulation dt1 st1) =
      (λ i, accelerate (numObjects st1) i (dev_pos st1)) <$> seqZ 0 (numObjects st1).
Proof.
  intros Hwf1 Hwf2 HN Hpos. split; [done|].
  destruct (stepSimulation_on_spec _ _ dt1 st1 Hwf1 (schedule_of_grid _) (schedule_of_grid _))
    as (_ & Ha1 & _).
  destruct (stepSimulation_on_spec _ _ dt2 st2 Hwf2 (schedule_of_grid _) (schedule_of_grid _))
    as (_ & Ha2 & _).
  unfold stepSimulation. rewrite Ha1, Ha2, HN, Hpos. done.
Qed.

(** * The export *)

(** C7. The export writes, for every body [i < N], the four floats
    [(x * c, y * c, z * c, 1)] with [c = -1 / scene_scale] at
    [vbo[4i .. 4i+3]], touches nothing beyond [4N], and hands the engine
    state back as it was. *)
Theorem copyPlanetsToVBO_exports st vbo :
  wf_state st → 4 * numObjects st ≤ INT_MAX →
  (Z.to_nat (4 * numObjects st) ≤ length vbo)%nat →
  let st' := (copyPlanetsToVBO st vbo).1 in
  let vbo' := (copyPlanetsToVBO st vbo).2 in
  let c_scale := F32.div (float_of_int (-1)) scene_scale in
  st' = st
  ∧ length vbo' = length vbo
  ∧ (∀ i, 0 ≤ i < numObjects st →
       vbo' !! Z.to_nat (4 * i + 0) = Some (F32.mul (vx (load (dev_pos st) i)) c_scale)
       ∧ vbo' !! Z.to_nat (4 * i + 1) = Some (F32.mul (vy (load (dev_pos st) i)) c_scale)
       ∧ vbo' !! Z.to_nat (4 * i + 2) = Some (F32.mul (vz (load (dev_pos st) i)) c_scale)
       ∧ vbo' !! Z.to_nat (4 * i + 3) = Some (float_of_int 1))
  ∧ (∀ q, (Z.to_nat (4 * numObjects st) ≤ q)%nat → vbo' !! q = vbo !! q).
Proof.
  intros [HN Hhi _ _ _] H4 Hlen st' vbo' c_scale.
  split; [done|]. split; [apply length_launch_kernCopyPlanetsToVBO|].
  assert (∀ i c, 0 ≤ i < numObjects st → 0 ≤ c < 4 →
            vbo' !! Z.to_nat (4 * i + c)
            = Some (vbo_entry (dev_pos st) scene_scale i c)) as Hent.
  { intros i c Hi Hc. subst vbo'. unfold copyPlanetsToVBO, launch. cbn [snd].
    rewrite launch_kernCopyPlanetsToVBO by (done || apply schedule_of_grid).
    rewrite decide_True by lia.
    destruct (lookup_lt_is_Some_2 vbo (Z.to_nat (4 * i + c)) ltac:(lia)) as [v ->].
    cbn. rewrite Z2Nat.id by lia. do 2 f_equal.
    - rewrite Z.mul_comm, Z.div_add_l by lia. rewrite Z.div_small by lia. lia.
    - rewrite Z.mul_comm, Z.add_comm, Z.mod_add by lia. by rewrite Z.mod_small by lia. }
  split.
  - intros i Hi.
    rewrite !Hent by lia. done.
  - intros q Hq. subst vbo'. unfold copyPlanetsToVBO, launch. cbn [snd].
    rewrite launch_kernCopyPlanetsToVBO by (done || apply schedule_of_grid).
    by rewrite decide_False by lia.
Qed.

(** * Scene initialization *)

(** C3. Initialization is a function of [N] and of the fixed seed tag and
    scale alone: whatever order the threads of the two launches run in and
    whatever the freshly allocated memory held, two runs leave identical
    position and velocity arrays, and the entry of body [i] is computed from
    [i] (through the seed) and from nothing else. *)
Theorem initialization_is_deterministic N sp sv sp' sv' jp jv ja jp' jv' ja' :
  0 ≤ N → N + blockSize - 1 ≤ INT_MAX →
  schedule_of N sp → schedule_of N sv → schedule_of N sp' → schedule_of N sv' →
  let st := initSimulation_on sp sv N jp jv ja in
  let st' := initSimulation_on sp' sv' N jp' jv' ja' in
  dev_pos st = dev_pos st'
  ∧ dev_vel st = dev_vel st'
  ∧ ∀ i, 0 ≤ i < N →
      load (dev_pos st) i = body_position 1 scene_scale i
      ∧ load (dev_vel st) i = body_velocity (body_position 1 scene_scale i).
Proof.
  intros HN Hhi Hsp Hsv Hsp' Hsv' st st'.
  destruct (initSimulation_on_arrays sp sv N jp jv ja HN Hhi Hsp Hsv)
    as (_ & Hp & Hv & _).
  destruct (initSimulation_on_arrays sp' sv' N jp' jv' ja' HN Hhi Hsp' Hsv')
    as (_ & Hp' & Hv' & _).
  fold st in Hp, Hv. fold st' in Hp', Hv'.
  rewrite Hp, Hv, Hp', Hv'. repeat (split; [done|]).
  intros i Hi. by rewrite !load_fmap_seqZ.
Qed.

(** C9. For body 0 the product [index * time] is zero, so the engine is
    seeded with [hash 0] whatever the seed tag: the random vector of body 0,
    the position the position kernel stores for it and the velocity the
    velocity kernel derives from that position are the same for any two
    tags. *)
Theorem seed_tag_has_no_effect_on_body_zero time1 time2 vtime1 vtime2 N scale mass arr varr :
  INT_MIN ≤ time1 ≤ INT_MAX → INT_MIN ≤ time2 ≤ INT_MAX →
  0 < N → N + blockSize - 1 ≤ INT_MAX →
  length arr = Z.to_nat N → length varr = Z.to_nat N →
  let pos1 := launch (fullBlocksPerGrid N) blockSize
                (kernGenerateRandomPosArray time1 N scale mass) arr in
  let pos2 := launch (fullBlocksPerGrid N) blockSize
                (kernGenerateRandomPosArray time2 N scale mass) arr in
  let vel1 := launch (fullBlocksPerGrid N) blockSize
                (kernGenerateCircularVelArray vtime1 N pos1) varr in
  let vel2 := launch (fullBlocksPerGrid N) blockSize
                (kernGenerateCircularVelArray vtime2 N pos2) varr in
  seed_of (float_of_int time1) 0 = hash 0
  ∧ seed_of (float_of_int time2) 0 = hash 0
  ∧ generateRandomVec3 (float_of_int time1) 0 = generateRandomVec3 (float_of_int time2) 0
  ∧ load pos1 0 = load pos2 0
  ∧ load vel1 0 = load vel2 0.
Proof.
  intros Ht1 Ht2 HN Hhi Hlen Hvlen pos1 pos2 vel1 vel2.
  pose proof (seed_of_zero time1 Ht1) as Hs1.
  pose proof (seed_of_zero time2 Ht2) as Hs2.
  assert (generateRandomVec3 (float_of_int time1) 0
          = generateRandomVec3 (float_of_int time2) 0) as Hr
    by (unfold generateRandomVec3; by rewrite Hs1, Hs2).
  assert (load pos1 0 = load pos2 0) as Hp.
  { subst pos1 pos2. unfold launch.
    rewrite !(launch_writes N _ _ _ arr ltac:(lia) Hhi (schedule_of_grid N)
                (kernGenerateRandomPosArray_writes _ N scale mass) Hlen).
    rewrite !load_fmap_seqZ by lia. unfold body_position. by rewrite Hr. }
  repeat (split; [done|]).
  subst vel1 vel2. unfold launch.
  rewrite !(launch_writes N _ _ _ varr ltac:(lia) Hhi (schedule_of_grid N)
              (kernGenerateCircularVelArray_writes _ N _) Hvlen).
  rewrite !load_fmap_seqZ by lia. by rewrite Hp.
Qed.

(** C5 (amended). After initialization the body [i < N] whose random
    vector is [(rx, ry, rz)] sits at
    [(scale * rx, scale * ry, 0.1 * scale * sqrt (rx * rx + ry * ry) * rz)].
    When [rx] and [ry] lie in [-1, 1], [x] and [y] lie in [-scale, scale]: the
    two draws are scaled each on its own, onto a square rather than a disc, and
    [z] is proportional to the planar radius of the random vector. *)
Theorem initial_position_of_body N jp jv ja i :
  0 ≤ N → N + blockSize - 1 ≤ INT_MAX → 0 ≤ i < N →
  let p := load (dev_pos (initSimulation N jp jv ja)) i in
  let rand := generateRandomVec3 (float_of_int 1) i in
  unit_draw (vx rand) = true → unit_draw (vy rand) = true →
  vx p = F32.mul scene_scale (vx rand)
  ∧ vy p = F32.mul scene_scale (vy rand)
  ∧ vz p =
      float_of_double
        (F64.mul
           (F64.mul
              (F64.mul (double_lit 1 1) (double_of_float scene_scale))
              (double_of_float
                 (F32.sqrt (F32.add (F32.mul (vx rand) (vx rand))
                                    (F32.mul (vy rand) (vy rand))))))
           (double_of_float (vz rand)))
  ∧ F32.valid (vx p) = true ∧ SFleb (SFabs (vx p)) scene_scale = true
  ∧ F32.valid (vy p) = true ∧ SFleb (SFabs (vy p)) scene_scale = true.
Proof.
  intros HN Hhi Hi p rand Hx Hy.
  destruct (initSimulation_on_arrays _ _ N jp jv ja HN Hhi
              (schedule_of_grid N) (schedule_of_grid N)) as (_ & Hp & _).
  assert (p = position_of_rand scene_scale rand) as ->.
  { subst p. unfold initSimulation. by rewrite Hp, load_fmap_seqZ by done. }
  apply andb_true_iff in Hx as [Hxv Hxle]. apply andb_true_iff in Hy as [Hyv Hyle].
  repeat (split; [done|]). cbn [position_of_rand vx vy].
  split; [by apply mul_valid|]. split; [by apply (mul_abs_le scene_scale)|].
  split; [by apply mul_valid|by apply (mul_abs_le scene_scale)].
Qed.

Lemma mul_zero_or_nan_l a b :
  is_zero a || is_nan a = true → is_zero (F32.mul a b) || is_nan (F32.mul a b) = true.
Proof. by destruct a as [| | |], b as [| | |]. Qed.

Lemma mul_zero_or_nan_r a b :
  is_zero b || is_nan b = true → is_zero (F32.mul a b) || is_nan (F32.mul a b) = true.
Proof. by destruct a as [| | |], b as [| | |]. Qed.

Lemma sub_zero_or_nan a b :
  is_zero a || is_nan a = true → is_zero b || is_nan b = true →
  is_zero (F32.sub a b) || is_nan (F32.sub a b) = true.
Proof. by destruct a as [[]| | |], b as [[]| | |]. Qed.

(** The velocity never has a vertical part: its [z] is a zero, or a NaN when
    the direction cannot be normalized. *)
Lemma body_velocity_vertical R :
  is_zero (vz (body_velocity R)) || is_nan (vz (body_velocity R)) = true.
Proof.
  unfold body_velocity, orbital_direction, glm.normalize, glm.cross, glm.scale_l,
    glm.scale_r; cbn [vx vy vz].
  apply mul_zero_or_nan_r, mul_zero_or_nan_l, sub_zero_or_nan.
  - by apply mul_zero_or_nan_r.
  - by apply mul_zero_or_nan_l.
Qed.

(** C6 (amended). The initial velocity of body [i] is [s * D] with
    [s = sqrt (G * starMass / r)], where [r] is the length of the whole
    position vector (its [z] included) plus [EPSILON], and [D] the normalized
    cross product of [R / r] with the vertical axis.  Its vertical component
    is a zero, or a NaN when that cross product cannot be normalized. *)
Theorem initial_velocity_of_body N jp jv ja i :
  0 ≤ N → N + blockSize - 1 ≤ INT_MAX → 0 ≤ i < N →
  let st := initSimulation N jp jv ja in
  let R := load (dev_pos st) i in
  let r := float_of_double (F64.add (double_of_float (glm.length R)) EPSILON) in
  let s := float_of_double
             (F64.sqrt (F64.div (F64.mul G (double_of_float starMass))
                                (double_of_float r))) in
  let D := glm.normalize (glm.cross (glm.div R r) (glm.vec3_of_ints 0 0 1)) in
  load (dev_vel st) i = mkvec3 (F32.mul s (vx D)) (F32.mul s (vy D)) (F32.mul s (vz D))
  ∧ is_zero (vz (load (dev_vel st) i)) || is_nan (vz (load (dev_vel st) i)) = true.
Proof.
  intros HN Hhi Hi st R r s D.
  destruct (initSimulation_on_arrays _ _ N jp jv ja HN Hhi
              (schedule_of_grid N) (schedule_of_grid N)) as (_ & Hp & Hv & _).
  fold (initSimulation N jp jv ja) in Hp, Hv. fold st in Hp, Hv.
  assert (load (dev_vel st) i = body_velocity R) as ->.
  { subst R. by rewrite Hv, Hp, !load_fmap_seqZ by done. }
  split; [done|apply body_velocity_vertical].
Qed.

(** * Further properties: the launch geometry *)

(** X1. The grid the host functions ask for, [(N + 127) / 128] blocks of 128
    threads, gives its threads the global indices [0, 1, ..., B * 128 - 1],
    each once; it reaches every body and leaves fewer than 128 threads idle. *)
Theorem launch_covers_each_body_once N :
  0 ≤ N → N + blockSize - 1 ≤ INT_MAX →
  global_index <$> grid (fullBlocksPerGrid N) blockSize
    = seqZ 0 (fullBlocksPerGrid N * blockSize)
  ∧ NoDup (global_index <$> grid (fullBlocksPerGrid N) blockSize)
  ∧ N ≤ fullBlocksPerGrid N * blockSize < N + blockSize
  ∧ (∀ i, 0 ≤ i < N → i ∈ global_index <$> grid (fullBlocksPerGrid N) blockSize).
Proof.
  intros HN Hhi.
  destruct (fullBlocksPerGrid_bounds N HN) as [HB Hcover].
  assert (global_index <$> grid (fullBlocksPerGrid N) blockSize
          = seqZ 0 (fullBlocksPerGrid N * blockSize)) as Hidx.
  { apply grid_indices; [done|done|]. unfold INT_MAX in Hhi. lia. }
  split; [done|]. split; [rewrite Hidx; apply NoDup_seqZ|].
  split; [lia|]. intros i Hi. rewrite Hidx. apply elem_of_seqZ. lia.
Qed.

(** * Further properties: the hash and the seeds *)

Lemma wrap32_range a : 0 ≤ wrap32 a < 2 ^ 32.
Proof. unfold wrap32. apply Z.mod_pos_bound. lia. Qed.

Lemma lxor_range x y n :
  0 < n → 0 ≤ x < 2 ^ n → 0 ≤ y < 2 ^ n → 0 ≤ Z.lxor x y < 2 ^ n.
Proof.
  intros Hn Hx Hy.
  assert (0 ≤ Z.lxor x y) as H0 by (apply Z.lxor_nonneg; lia).
  split; [done|].
  destruct (Z.eq_dec (Z.lxor x y) 0) as [->|Hne]; [apply Z.pow_pos_nonneg; lia|].
  apply Z.log2_lt_pow2; [lia|].
  pose proof (Z.log2_lxor x y ltac:(lia) ltac:(lia)) as Hl.
  assert (Z.log2 x < n) as Hlx.
  { destruct (Z.eq_dec x 0) as [->|]; [cbn; lia|]. apply Z.log2_lt_pow2; lia. }
  assert (Z.log2 y < n) as Hly.
  { destruct (Z.eq_dec y 0) as [->|]; [cbn; lia|]. apply Z.log2_lt_pow2; lia. }
  lia.
Qed.

Lemma shiftr_range a k n : 0 ≤ k → 0 ≤ a < 2 ^ n → 0 ≤ Z.shiftr a k < 2 ^ n.
Proof.
  intros Hk Ha. rewrite Z.shiftr_div_pow2 by done.
  assert (0 < 2 ^ k) by (apply Z.pow_pos_nonneg; lia).
  split; [apply Z.div_pos; lia|].
  apply Z.le_lt_trans with a; [|lia].
  apply Z.div_le_upper_bound; [lia|]. nia.
Qed.

(** * Further properties: initialization and stepping as state transformers *)

Lemma list_eq_load (a b : list vec3) N :
  length a = Z.to_nat N → length b = Z.to_nat N →
  (∀ i, 0 ≤ i < N → load a i = load b i) → a = b.
Proof.
  intros Ha Hb Hload. apply list_eq. intros j.
  destruct (decide (j < Z.to_nat N)%nat) as [Hj|Hj].
  - rewrite !list_lookup_lookup_total_lt by lia. f_equal.
    specialize (Hload (Z.of_nat j) ltac:(lia)). unfold load in Hload.
    by rewrite Nat2Z.id in Hload.
  - by rewrite !lookup_ge_None_2 by lia.
Qed.

Lemma fullBlocksPerGrid_pos N : 0 < N → 0 < fullBlocksPerGrid N.
Proof. intros HN. pose proof (fullBlocksPerGrid_bounds N ltac:(lia)). unfold blockSize in *. lia. Qed.

Lemma cudaLaunchKernel_accepted {M} N (k : thread → M → M) m :
  0 < N →
  cudaLaunchKernel (fullBlocksPerGrid N) blockSize k m
  = (cudaSuccess, launch (fullBlocksPerGrid N) blockSize k m).
Proof.
  intros HN. unfold cudaLaunchKernel.
  by rewrite (proj2 (Z.ltb_lt 0 (fullBlocksPerGrid N)) (fullBlocksPerGrid_pos N HN)).
Qed.

Lemma cudaLaunchKernel_refused {M} (k : thread → M → M) m :
  cudaLaunchKernel (fullBlocksPerGrid 0) blockSize k m = (cudaErrorInvalidConfiguration, m).
Proof. reflexivity. Qed.

Lemma Nbody_initSimulation_returns N jp jv ja :
  0 < N → Nbody_initSimulation N jp jv ja = Returns (initSimulation N jp jv ja).
Proof.
  intros HN. unfold Nbody_initSimulation. cbn [checkCUDAError].
  by rewrite !cudaLaunchKernel_accepted.
Qed.

Lemma Nbody_stepSimulation_returns dt st :
  0 < numObjects st → Nbody_stepSimulation dt st = Returns (stepSimulation dt st).
Proof.
  intros HN. unfold Nbody_stepSimulation. rewrite cudaLaunchKernel_accepted by done.
  cbn [checkCUDAError]. rewrite cudaLaunchKernel_accepted by done.
  unfold stepSimulation, stepSimulation_on, launch.
  by destruct (launch_on _ _ (dev_pos st, dev_vel st)).
Qed.

Lemma Nbody_copyPlanetsToVBO_returns st vbo :
  0 < numObjects st → Nbody_copyPlanetsToVBO st vbo = Returns (copyPlanetsToVBO st vbo).
Proof.
  intros HN. unfold Nbody_copyPlanetsToVBO. by rewrite cudaLaunchKernel_accepted.
Qed.


(** X4. Stepping keeps the state well-formed and never changes the number of
    bodies, over any sequence of time steps. *)
Theorem steps_keep_the_state_well_formed dts st :
  wf_state st →
  wf_state (foldl (λ st dt, stepSimulation dt st) st dts)
  ∧ numObjects (foldl (λ st dt, stepSimulation dt st) st dts) = numObjects st.
Proof.
  revert st. induction dts as [|dt dts IH]; intros st Hwf; [done|].
  cbn [foldl].
  destruct (IH (stepSimulation dt st) (stepSimulation_wf dt st Hwf)) as [Hwf' HN'].
  split; [done|]. rewrite HN'.
  by destruct (stepSimulation_on_spec _ _ dt st Hwf (schedule_of_grid _)
                 (schedule_of_grid _)) as (HN & _).
Qed.

(** X5. The state a step leaves is decided by the body count, the positions
    and the velocities it starts from: the order in which the threads of the
    two launches run does not show, and neither does the acceleration array
    left by earlier steps. *)
Theorem step_depends_on_positions_and_velocities_only dt st1 st2 sa sv sa' sv' :
  wf_state st1 → wf_state st2 →
  numObjects st1 = numObjects st2 →
  dev_pos st1 = dev_pos st2 → dev_vel st1 = dev_vel st2 →
  schedule_of (numObjects st1) sa → schedule_of (numObjects st1) sv →
  schedule_of (numObjects st1) sa' → schedule_of (numObjects st1) sv' →
  stepSimulation_on sa sv dt st1 = stepSimulation_on sa' sv' dt st2.
Proof.
  intros Hwf1 Hwf2 HN Hpos Hvel Hsa Hsv Hsa' Hsv'.
  rewrite HN in Hsa', Hsv'.
  destruct (stepSimulation_on_spec sa sv dt st1 Hwf1 Hsa Hsv)
    as (HN1 & Ha1 & Hp1 & Hv1 & Hstep1).
  destruct (stepSimulation_on_spec sa' sv' dt st2 Hwf2 Hsa' Hsv')
    as (HN2 & Ha2 & Hp2 & Hv2 & Hstep2).
  rewrite <- ?HN, <- ?Hpos, <- ?Hvel in Ha2, Hp2, Hv2, Hstep2.
  assert (dev_vel (stepSimulation_on sa sv dt st1)
          = dev_vel (stepSimulation_on sa' sv' dt st2)) as Hv.
  { apply (list_eq_load _ _ (numObjects st1)); [exact Hv1|exact Hv2|].
    intros i Hi. destruct (Hstep1 i Hi) as (Hacc1 & -> & _).
    destruct (Hstep2 i Hi) as (Hacc2 & -> & _). by rewrite Hacc1, Hacc2, Hpos, Hvel. }
  assert (dev_pos (stepSimulation_on sa sv dt st1)
          = dev_pos (stepSimulation_on sa' sv' dt st2)) as Hp.
  { apply (list_eq_load _ _ (numObjects st1)); [exact Hp1|exact Hp2|].
    intros i Hi. destruct (Hstep1 i Hi) as (_ & _ & ->).
    destruct (Hstep2 i Hi) as (_ & _ & ->). by rewrite Hv, Hpos. }
  rewrite <- HN in HN2. rewrite <- HN1 in HN2. rewrite <- Hpos, <- Ha1 in Ha2.
  destruct (stepSimulation_on sa sv dt st1), (stepSimulation_on sa' sv' dt st2).
  cbn in *. congruence.
Qed.


(** * Further properties: exact conversions and the seeds of the bodies *)

(** An integer below [2^24] converts to the float that holds it exactly. *)
Lemma binary_round_small s p :
  Zpos p < 2 ^ 24 →
  ∃ m e, binary_round F32.prec F32.emax s p 0 = S754_finite s m e
         ∧ e ≤ 0 ∧ Zpos m = Zpos p * 2 ^ (- e)
         ∧ F32.valid (S754_finite s m e) = true.
Proof.
  intros Hp. unfold binary_round, shl_align.
  pose proof (digits2_pos_le p 24 Hp ltac:(lia)) as Hd.
  assert (0 < Zpos (digits2_pos p)) as Hd0 by lia.
  assert (fexp F32.prec F32.emax (Zpos (digits2_pos p) + 0) = Zpos (digits2_pos p) - 24)
    as Hfexp by (unfold fexp, F32.prec, F32.emax, emin; lia).
  rewrite Hfexp.
  assert (∀ m e, e ≤ 0 → Zpos m = Zpos p * 2 ^ (- e) →
            e = Zpos (digits2_pos p) - 24 →
            fexp F32.prec F32.emax (Zdigits2 (Zpos m) + e) = e) as Hcan.
  { intros m e He Hm Hde. rewrite Hm, Zdigits2_mul_pow2 by lia. cbn [Zdigits2].
    unfold fexp, F32.prec, F32.emax, emin. lia. }
  assert (∀ m e, e ≤ 0 → Zpos m = Zpos p * 2 ^ (- e) →
            e = Zpos (digits2_pos p) - 24 →
            binary_round_aux F32.prec F32.emax s (Zpos m) e loc_Exact = S754_finite s m e
            ∧ F32.valid (S754_finite s m e) = true) as Hround.
  { intros m e He Hm Hde. specialize (Hcan m e He Hm Hde). split.
    - pose proof (binary_round_aux_exact F32.prec F32.emax s m e 0 ltac:(lia) Hcan) as H.
      rewrite Z.mul_1_r, Z.sub_0_r in H. apply H. unfold F32.prec, F32.emax. lia.
    - unfold F32.valid, valid_binary, bounded, canonical_mantissa.
      apply andb_true_iff. split; [by apply Z.eqb_eq|].
      apply Z.leb_le. unfold F32.prec, F32.emax. lia. }
  destruct (Zpos (digits2_pos p) - 24 - 0) as [|d|d] eqn:Hsh; [|lia|].
  - exists p, 0. destruct (Hround p 0) as [H1 H2]; [lia|cbn; lia|lia|].
    split; [done|]. split; [lia|]. split; [cbn; lia|done].
  - exists (shift_pos d p), (Zpos (digits2_pos p) - 24).
    assert (Zpos (shift_pos d p) = Zpos p * 2 ^ (- (Zpos (digits2_pos p) - 24))) as Hm.
    { unfold shift_pos. rewrite Pos_iter_xO. f_equal. f_equal. lia. }
    destruct (Hround (shift_pos d p) (Zpos (digits2_pos p) - 24)) as [H1 H2];
      [lia|done|done|].
    split; [done|]. split; [lia|]. by split.
Qed.

(** Integers up to [2^24] in magnitude survive the trip through [float]. *)
Lemma int_of_float_of_int z :
  - 2 ^ 24 ≤ z ≤ 2 ^ 24 →
  F32.valid (float_of_int z) = true ∧ int_of_float (float_of_int z) = z.
Proof.
  intros Hz.
  destruct (Z.eq_dec z (2 ^ 24)) as [->|Hhi]; [by vm_compute|].
  destruct (Z.eq_dec z (- 2 ^ 24)) as [->|Hlo]; [by vm_compute|].
  assert (∀ s p, Zpos p < 2 ^ 24 →
            F32.valid (binary_round F32.prec F32.emax s p 0) = true
            ∧ int_of_float (binary_round F32.prec F32.emax s p 0) = cond_Zopp s (Zpos p))
    as Hp.
  { intros s p Hp. destruct (binary_round_small s p Hp) as (m & e & -> & He & Hm & Hv).
    split; [done|]. unfold int_of_float.
    rewrite Z.shiftl_div_pow2, Hm, Z.div_mul by (try apply Z.pow_nonzero; lia).
    unfold INT_MIN, INT_MAX. destruct s; cbn [cond_Zopp]; lia. }
  unfold float_of_int, F32.round, binary_normalize.
  destruct z as [|p|p]; [done|apply (Hp false); lia|apply (Hp true); lia].
Qed.

Lemma testbit_above a n : 0 ≤ a < 2 ^ 32 → 32 ≤ n → Z.testbit a n = false.
Proof.
  intros Ha Hn. destruct (Z.eq_dec a 0) as [->|]; [apply Z.bits_0|].
  apply Z.bits_above_log2; [lia|].
  assert (Z.log2 a < 32) by (apply Z.log2_lt_pow2; lia). lia.
Qed.

(** [(a + c) + (a << k)] is [a * (1 + 2^k) + c] modulo [2^32]. *)
Lemma mul_step_eq c k a :
  0 ≤ k →
  wrap32 (wrap32 (a + c) + wrap32 (Z.shiftl a k)) = (a * (1 + 2 ^ k) + c) mod 2 ^ 32.
Proof.
  intros Hk. unfold wrap32. rewrite Z.shiftl_mul_pow2 by done.
  rewrite <- Z.add_mod by lia. f_equal. lia.
Qed.

(** Multiplication by an odd number is one-to-one modulo [2^32]. *)
Lemma mul_step_inj c m a b :
  Z.gcd (2 ^ 32) m = 1 → 0 ≤ a < 2 ^ 32 → 0 ≤ b < 2 ^ 32 →
  (a * m + c) mod 2 ^ 32 = (b * m + c) mod 2 ^ 32 → a = b.
Proof.
  intros Hg Ha Hb H.
  assert ((2 ^ 32 | m * (a - b))) as Hdiv.
  { apply Z.mod_divide; [lia|].
    replace (m * (a - b)) with ((a * m + c) - (b * m + c)) by lia.
    rewrite Zminus_mod, H, Z.sub_diag. by apply Z.mod_0_l. }
  apply Z.gauss in Hdiv; [|done]. destruct Hdiv as [q Hq].
  assert (q = 0) by lia. lia.
Qed.

(** [(a ^ c) ^ (a >> k)] is one-to-one: the top bits are those of [a], and
    each lower bit is recovered from the ones above it. *)
Lemma xorshift_inj c k a b :
  0 < k → 0 ≤ a < 2 ^ 32 → 0 ≤ b < 2 ^ 32 →
  Z.lxor (Z.lxor a c) (Z.shiftr a k) = Z.lxor (Z.lxor b c) (Z.shiftr b k) → a = b.
Proof.
  intros Hk Ha Hb H.
  assert (∀ n, 0 ≤ n →
            xorb (Z.testbit a n) (Z.testbit a (n + k))
            = xorb (Z.testbit b n) (Z.testbit b (n + k))) as Hbit.
  { intros n Hn. apply (f_equal (λ x, Z.testbit x n)) in H.
    rewrite !Z.lxor_spec, !Z.shiftr_spec in H by done.
    destruct (Z.testbit a n), (Z.testbit c n), (Z.testbit a (n + k)),
      (Z.testbit b n), (Z.testbit b (n + k)); done. }
  assert (∀ m : nat, ∀ n, 0 ≤ n → 32 - Z.of_nat m ≤ n →
            Z.testbit a n = Z.testbit b n) as Hind.
  { induction m as [|m IH]; intros n Hn Hlo.
    - by rewrite !testbit_above by lia.
    - specialize (Hbit n Hn). rewrite (IH (n + k)) in Hbit by lia.
      destruct (Z.testbit a n), (Z.testbit b n), (Z.testbit b (n + k)); done. }
  apply Z.bits_inj'. intros n Hn. apply (Hind 32%nat); lia.
Qed.

Lemma mod_pow2_succ x j :
  0 ≤ j → x mod 2 ^ (j + 1) = x mod 2 ^ j + 2 ^ j * Z.b2z (Z.testbit x j).
Proof.
  intros Hj. rewrite Z.pow_add_r, Z.pow_1_r by lia.
  rewrite Z.rem_mul_r by (try apply Z.pow_nonzero; lia).
  by rewrite Z.testbit_spec' by done.
Qed.

(** [(a + c) ^ (a << 9)] is one-to-one: bit [j] of the result and the bits of
    [a] below [j] give bit [j] of [a + c]. *)
Lemma add_xor_shift_inj c a b :
  0 ≤ a < 2 ^ 32 → 0 ≤ b < 2 ^ 32 →
  Z.lxor (wrap32 (a + c)) (wrap32 (Z.shiftl a 9))
    = Z.lxor (wrap32 (b + c)) (wrap32 (Z.shiftl b 9)) → a = b.
Proof.
  intros Ha Hb H.
  assert (∀ j : nat, (j ≤ 32)%nat → a mod 2 ^ Z.of_nat j = b mod 2 ^ Z.of_nat j) as Hind.
  { induction j as [|j IH]; intros Hj; [by rewrite !Z.mod_1_r|].
    specialize (IH ltac:(lia)). replace (Z.of_nat (S j)) with (Z.of_nat j + 1) by lia.
    set (J := Z.of_nat j) in *. assert (0 ≤ J < 32) as HJ by lia.
    assert (0 < 2 ^ J) as HpJ by (apply Z.pow_pos_nonneg; lia).
    assert ((a + c) mod 2 ^ J = (b + c) mod 2 ^ J) as Hsum
      by (by rewrite (Z.add_mod a), (Z.add_mod b), IH by lia).
    assert (Z.testbit (wrap32 (Z.shiftl a 9)) J = Z.testbit (wrap32 (Z.shiftl b 9)) J)
      as Hsh.
    { unfold wrap32. rewrite !Z.mod_pow2_bits_low, !Z.shiftl_spec by lia.
      destruct (Z.lt_ge_cases J 9); [by rewrite !Z.testbit_neg_r by lia|].
      rewrite <- (Z.mod_pow2_bits_low a J (J - 9)), <- (Z.mod_pow2_bits_low b J (J - 9))
        by lia.
      by rewrite IH. }
    assert (Z.testbit (a + c) J = Z.testbit (b + c) J) as Hbit.
    { apply (f_equal (λ x, Z.testbit x J)) in H. rewrite !Z.lxor_spec, Hsh in H.
      unfold wrap32 in H at 1 3. rewrite !Z.mod_pow2_bits_low in H by lia.
      destruct (Z.testbit (a + c) J), (Z.testbit (b + c) J),
        (Z.testbit (wrap32 (Z.shiftl b 9)) J); done. }
    assert ((a + c) mod 2 ^ (J + 1) = (b + c) mod 2 ^ (J + 1)) as Hsum'
      by (by rewrite !mod_pow2_succ, Hsum, Hbit by lia).
    assert (∀ x, x mod 2 ^ (J + 1) = ((x + c) mod 2 ^ (J + 1) - c) mod 2 ^ (J + 1)) as Hback.
    { intros x. rewrite Zminus_mod_idemp_l. f_equal. lia. }
    by rewrite (Hback a), (Hback b), Hsum'. }
  specialize (Hind 32%nat ltac:(lia)). change (Z.of_nat 32) with 32 in Hind.
  by rewrite !Z.mod_small in Hind by lia.
Qed.

Lemma mul_step_wrap_inj c k a b :
  0 ≤ k → Z.gcd (2 ^ 32) (1 + 2 ^ k) = 1 → 0 ≤ a < 2 ^ 32 → 0 ≤ b < 2 ^ 32 →
  wrap32 (wrap32 (a + c) + wrap32 (Z.shiftl a k))
    = wrap32 (wrap32 (b + c) + wrap32 (Z.shiftl b k)) → a = b.
Proof.
  intros Hk Hg Ha Hb H. rewrite !mul_step_eq in H by done.
  by apply mul_step_inj in H.
Qed.

(** Every step of [hash] is one-to-one on [unsigned int], so [hash] is. *)
Lemma hash_inj a b : 0 ≤ a < 2 ^ 32 → 0 ≤ b < 2 ^ 32 → hash a = hash b → a = b.
Proof.
  intros Ha Hb H. unfold hash in H. cbv zeta in H.
  assert (∀ x, 0 ≤ x < 2 ^ 32 →
            0 ≤ Z.lxor (Z.lxor x 0xc761c23c) (Z.shiftr x 19) < 2 ^ 32) as Hr2.
  { intros x Hx. apply lxor_range; [lia| |apply shiftr_range; lia].
    apply lxor_range; lia. }
  apply xorshift_inj in H; [|lia|apply wrap32_range..].
  apply mul_step_wrap_inj in H;
    [|lia|done|apply lxor_range; [lia|apply wrap32_range..]..].
  apply add_xor_shift_inj in H; [|apply wrap32_range..].
  apply mul_step_wrap_inj in H; [|lia|done|apply Hr2, wrap32_range..].
  apply xorshift_inj in H; [|lia|apply wrap32_range..].
  by apply mul_step_wrap_inj in H.
Qed.

(** With [time = 1] the seed of body [index] is [hash index]. *)
Lemma seed_of_time_one index :
  0 ≤ index ≤ 2 ^ 24 → seed_of (float_of_int 1) index = hash index.
Proof.
  intros Hi. unfold seed_of.
  destruct (int_of_float_of_int index ltac:(lia)) as [Hv Hrt].
  rewrite (mul_one_r _ Hv), Hrt. unfold unsigned_of_int, wrap32.
  rewrite Z.mod_small; [done|lia].
Qed.

(** X2. [hash] is one-to-one on [unsigned int]: each of its six steps can
    be undone.  Hence no two of the bodies 0 .. 2^24 seed their engines
    alike when the positions are generated. *)
Theorem hash_separates_the_bodies a b :
  0 ≤ a < 2 ^ 32 → 0 ≤ b < 2 ^ 32 →
  (hash a = hash b → a = b)
  ∧ (a ≤ 2 ^ 24 → b ≤ 2 ^ 24 →
     seed_of (float_of_int 1) a = seed_of (float_of_int 1) b → a = b).
Proof.
  intros Ha Hb. split; [by apply hash_inj|].
  intros Ha' Hb' H. rewrite !seed_of_time_one in H by lia. by apply hash_inj.
Qed.

(** X7. The positions are generated with [time = 1]: for the bodies up to
    index [2^24] the product [index * time] and its truncation are exact, so
    body [index] seeds its engine with [hash index].  The next index is
    already rounded away: body [2^24 + 1] gets the seed of body [2^24]. *)
Theorem position_seed_of_body index :
  0 ≤ index ≤ 2 ^ 24 →
  seed_of (float_of_int 1) index = hash index
  ∧ generateRandomVec3 (float_of_int 1) index =
      (let rng := rng_seed (hash index) in
       let '(x, rng) := unitDistrib rng in
       let '(y, rng) := unitDistrib rng in
       let '(z, rng) := unitDistrib rng in
       mkvec3 x y z)
  ∧ seed_of (float_of_int 1) (2 ^ 24 + 1) = seed_of (float_of_int 1) (2 ^ 24).
Proof.
  intros Hi.
  pose proof (seed_of_time_one index Hi) as Hseed.
  split; [done|]. split; [|by vm_compute].
  unfold generateRandomVec3. by rewrite Hseed.
Qed.

(** * Further properties: NaN coordinates *)

Lemma add_nan_l x y : is_nan x = true → is_nan (F32.add x y) = true.
Proof. by destruct x as [[]|[]| |], y as [[]|[]| |]. Qed.

Lemma add_nan_r x y : is_nan y = true → is_nan (F32.add x y) = true.
Proof. by destruct x as [[]|[]| |], y as [[]|[]| |]. Qed.

Lemma sub_nan_l x y : is_nan x = true → is_nan (F32.sub x y) = true.
Proof. by destruct x as [[]|[]| |], y as [[]|[]| |]. Qed.

Lemma sub_nan_r x y : is_nan y = true → is_nan (F32.sub x y) = true.
Proof. by destruct x as [[]|[]| |], y as [[]|[]| |]. Qed.

Lemma mul_nan_l x y : is_nan x = true → is_nan (F32.mul x y) = true.
Proof. by destruct x as [[]|[]| |], y as [[]|[]| |]. Qed.

Lemma mul_nan_r x y : is_nan y = true → is_nan (F32.mul x y) = true.
Proof. by destruct x as [[]|[]| |], y as [[]|[]| |]. Qed.

Lemma has_nan_sub_l p q : has_nan p = true → has_nan (glm.sub p q) = true.
Proof.
  unfold has_nan. cbn [glm.sub vx vy vz]. rewrite !orb_true_iff.
  intros [[H|H]|H]; eauto using sub_nan_l.
Qed.

Lemma has_nan_sub_r p q : has_nan q = true → has_nan (glm.sub p q) = true.
Proof.
  unfold has_nan. cbn [glm.sub vx vy vz]. rewrite !orb_true_iff.
  intros [[H|H]|H]; eauto using sub_nan_r.
Qed.

Lemma dot_nan v : has_nan v = true → is_nan (glm.dot v v) = true.
Proof.
  unfold has_nan, glm.dot. rewrite !orb_true_iff. intros [[H|H]|H].
  - by apply add_nan_l, add_nan_l, mul_nan_l.
  - by apply add_nan_l, add_nan_r, mul_nan_l.
  - by apply add_nan_r, mul_nan_l.
Qed.

(** The guard of [accelOne] fails on a NaN: the comparison [denom > 0.1] is
    false, and the [else] branch returns the zero vector. *)
Lemma squared_distance_nan p q :
  has_nan p = true ∨ has_nan q = true →
  gtb (double_of_float (squared_distance p q)) threshold = false.
Proof.
  intros H.
  assert (is_nan (squared_distance p q) = true) as Hn.
  { unfold squared_distance, glm.distance, glm.length.
    assert (is_nan (glm.dot (glm.sub q p) (glm.sub q p)) = true) as Hd.
    { apply dot_nan. destruct H; [by apply has_nan_sub_r|by apply has_nan_sub_l]. }
    destruct (glm.dot (glm.sub q p) (glm.sub q p)); done. }
  by destruct (squared_distance p q).
Qed.

Lemma accelerate_loop_origin fuel N i planet pos :
  (∀ j, accelOne planet (load pos j) planetMass = origin) →
  accelerate_loop fuel N i planet pos origin = origin.
Proof.
  intros Hone. revert i. induction fuel as [|fuel IH]; intros i; [done|].
  cbn [accelerate_loop]. destruct (i <? N); [|done].
  rewrite Hone. apply IH.
Qed.

Lemma accelOne_nan planet other mass :
  has_nan planet = true ∨ has_nan other = true → accelOne planet other mass = origin.
Proof. intros H. by apply accelOne_guard, squared_distance_nan. Qed.

Lemma accelerate_nan N i pos :
  has_nan (load pos i) = true → accelerate N i pos = origin.
Proof.
  intros Hnan. unfold accelerate. change (glm.vec3_of_ints 0 0 0) with origin.
  rewrite accelOne_nan by (by left).
  apply accelerate_loop_origin. intros j. apply accelOne_nan. by left.
Qed.

(** Adding a zero changes at most the sign of a zero. *)
Lemma feq_add_zero_r x z : is_zero z = true → feq (F32.add x z) x.
Proof. destruct x as [[]|[]| |], z as [[]|[]| |]; try done; (by left) || (by right). Qed.

Lemma mul_finite_zero a z :
  is_finite a = true → is_zero z = true → is_zero (F32.mul a z) = true.
Proof. by destruct a as [[]|[]| |], z as [[]|[]| |]. Qed.

Lemma mul_zero_finite z a :
  is_zero z = true → is_finite a = true → is_zero (F32.mul z a) = true.
Proof. by destruct a as [[]|[]| |], z as [[]|[]| |]. Qed.

(** X8. A body with a NaN coordinate takes no part in the forces: it gets
    no acceleration from any body, gives none to any body, and its total
    acceleration is the zero vector. *)
Theorem nan_position_exerts_no_force N i pos :
  has_nan (load pos i) = true →
  (∀ other mass, accelOne (load pos i) other mass = origin)
  ∧ (∀ planet mass, accelOne planet (load pos i) mass = origin)
  ∧ accelerate N i pos = origin.
Proof.
  intros Hnan. split; [|split].
  - intros other mass. apply accelOne_nan. by left.
  - intros planet mass. apply accelOne_nan. by right.
  - by apply accelerate_nan.
Qed.

(** X9. Such a body is lost for good: a step stores a zero acceleration for
    it, leaves its velocity as it was when the time step is finite, and its
    position keeps the NaN coordinate. *)
Theorem nan_position_is_absorbing dt st i :
  wf_state st → 0 ≤ i < numObjects st →
  has_nan (load (dev_pos st) i) = true →
  has_nan (load (dev_pos (stepSimulation dt st)) i) = true
  ∧ load (dev_acc (stepSimulation dt st)) i = origin
  ∧ (is_finite dt = true →
     veq (load (dev_vel (stepSimulation dt st)) i) (load (dev_vel st) i)).
Proof.
  intros Hwf Hi Hnan.
  destruct (stepSimulation_on_spec _ _ dt st Hwf (schedule_of_grid _) (schedule_of_grid _))
    as (_ & _ & _ & _ & Hstep).
  fold (stepSimulation dt st) in Hstep.
  destruct (Hstep i Hi) as (Hacc & Hvel & Hpos).
  rewrite (accelerate_nan _ _ _ Hnan) in Hacc. split; [|split; [done|]].
  - rewrite Hpos. revert Hnan. unfold has_nan. cbn [glm.add vx vy vz].
    rewrite !orb_true_iff. intros [[H|H]|H]; eauto using add_nan_l.
  - intros Hdt. rewrite Hvel, Hacc.
    repeat split; cbn [glm.add glm.scale_r vx vy vz origin glm.vec3_of_ints];
      by apply feq_add_zero_r, mul_zero_finite.
Qed.

(** * Further properties: action and reaction *)

Lemma binary_round_aux_opp prec emax s m e l :
  binary_round_aux prec emax (negb s) m e l = SFopp (binary_round_aux prec emax s m e l).
Proof.
  unfold binary_round_aux.
  destruct (shr_fexp prec emax m e l) as [mrs1 e1].
  destruct (shr_fexp prec emax _ e1 loc_Exact) as [mrs2 e2].
  destruct (shr_m mrs2); [done| |done]. by destruct (e2 <=? emax - prec).
Qed.

Lemma binary_normalize_opp prec emax z e :
  feq (binary_normalize prec emax (- z) e false)
      (SFopp (binary_normalize prec emax z e false)).
Proof.
  destruct z as [|p|p]; [by right| |]; left.
  - change (binary_round prec emax true p e = SFopp (binary_round prec emax false p e)).
    unfold binary_round. destruct (shl_align p e _) as [mz ez].
    apply (binary_round_aux_opp _ _ false).
  - change (binary_round prec emax false p e = SFopp (binary_round prec emax true p e)).
    unfold binary_round. destruct (shl_align p e _) as [mz ez].
    apply (binary_round_aux_opp _ _ true).
Qed.

Lemma mul_opp_l x y : F32.mul (SFopp x) y = SFopp (F32.mul x y).
Proof.
  destruct x as [sx|sx| |sx mx ex], y as [sy|sy| |sy my ey]; try done;
    cbn [SFopp F32.mul SFmul]; rewrite <- ?negb_xorb_l; try done.
  apply binary_round_aux_opp.
Qed.

Lemma mul_opp_r x y : F32.mul x (SFopp y) = SFopp (F32.mul x y).
Proof.
  destruct x as [sx|sx| |sx mx ex], y as [sy|sy| |sy my ey]; try done;
    cbn [SFopp F32.mul SFmul]; rewrite <- ?negb_xorb_r; try done.
  apply binary_round_aux_opp.
Qed.

Lemma opp_involutive x : SFopp (SFopp x) = x.
Proof. destruct x as [[]|[]| |[] m e]; done. Qed.

(** [b - a] is [-(a - b)], up to the sign of a zero. *)
Lemma sub_antisym a b : feq (F32.sub b a) (SFopp (F32.sub a b)).
Proof.
  destruct a as [[]|[]| |sa ma ea], b as [[]|[]| |sb mb eb];
    try (left; reflexivity); try (right; split; reflexivity).
  - left. cbn. by destruct sb.
  - left. cbn. by destruct sb.
  - unfold F32.sub, SFsub. cbv zeta. rewrite (Z.min_comm ea eb).
    set (A := cond_Zopp sa _). set (B := cond_Zopp sb _).
    replace (B - A) with (- (A - B)) by lia.
    apply binary_normalize_opp.
Qed.

Lemma mul_self_opp x x' : feq x' (SFopp x) → F32.mul x' x' = F32.mul x x.
Proof.
  intros [->|[H1 H2]].
  - by rewrite mul_opp_l, mul_opp_r, opp_involutive.
  - by destruct x as [[]|[]| |], x' as [[]|[]| |].
Qed.

Lemma feq_mul_opp_l x x' c :
  feq x' (SFopp x) → feq (F32.mul x' c) (SFopp (F32.mul x c)).
Proof.
  intros [->|[H1 H2]]; [left; apply mul_opp_l|].
  destruct x as [[]|[]| |], x' as [[]|[]| |], c as [[]|[]| |]; try done;
    (by left) || (by right).
Qed.

Lemma feq_mul_opp_r k d d' :
  feq d' (SFopp d) → feq (F32.mul k d') (SFopp (F32.mul k d)).
Proof.
  intros [->|[H1 H2]]; [left; apply mul_opp_r|].
  destruct d as [[]|[]| |], d' as [[]|[]| |], k as [[]|[]| |]; try done;
    (by left) || (by right).
Qed.

Lemma dot_sub_sym p q :
  glm.dot (glm.sub q p) (glm.sub q p) = glm.dot (glm.sub p q) (glm.sub p q).
Proof.
  unfold glm.dot, glm.sub. cbn [vx vy vz].
  by rewrite (mul_self_opp _ _ (sub_antisym (vx q) (vx p))),
             (mul_self_opp _ _ (sub_antisym (vy q) (vy p))),
             (mul_self_opp _ _ (sub_antisym (vz q) (vz p))).
Qed.

Lemma squared_distance_sym p q : squared_distance p q = squared_distance q p.
Proof. unfold squared_distance, glm.distance, glm.length. by rewrite dot_sub_sym. Qed.

(** X10. Action and reaction: the acceleration [accelOne] gives a body at
    [p] toward a mass at [q] is the opposite of the one it gives a body at
    [q] toward the same mass at [p], coordinate by coordinate; the distance
    tested by the guard is the same number in both directions. *)
Theorem accelOne_is_antisymmetric p q mass :
  squared_distance p q = squared_distance q p
  ∧ veq (accelOne q p mass) (vopp (accelOne p q mass)).
Proof.
  split; [apply squared_distance_sym|].
  rewrite !accelOne_law, (squared_distance_sym q p).
  destruct (gtb _ threshold); [|by repeat split; right].
  unfold glm.normalize. rewrite (dot_sub_sym q p).
  set (k := F32.mul (float_of_int 1) _).
  set (c := glm.inversesqrt _).
  unfold veq, vopp, glm.scale_l, glm.scale_r, glm.sub. cbn [vx vy vz].
  repeat split; apply feq_mul_opp_r, feq_mul_opp_l, sub_antisym.
Qed.

(** * Further properties: a step of no duration *)

Lemma feq_finite a b : feq a b → is_finite b = true → is_finite a = true.
Proof. intros [->|[Ha _]]; [done|]. by destruct a. Qed.

(** X11. With [dt] a zero, a step leaves the velocity and the position of
    a body numerically as they were, provided its acceleration and its
    velocity are finite: the products with [dt] are zeros, and adding a zero
    changes at most the sign of a zero. *)
Theorem zero_time_step_keeps_the_body dt st i :
  wf_state st → 0 ≤ i < numObjects st →
  is_zero dt = true →
  vec3_finite (accelerate (numObjects st) i (dev_pos st)) = true →
  vec3_finite (load (dev_vel st) i) = true →
  veq (load (dev_vel (stepSimulation dt st)) i) (load (dev_vel st) i)
  ∧ veq (load (dev_pos (stepSimulation dt st)) i) (load (dev_pos st) i).
Proof.
  intros Hwf Hi Hdt Hacc Hvel.
  destruct (stepSimulation_on_spec _ _ dt st Hwf (schedule_of_grid _) (schedule_of_grid _))
    as (_ & _ & _ & _ & Hstep).
  fold (stepSimulation dt st) in Hstep.
  destruct (Hstep i Hi) as (Ha & Hv & Hp). rewrite Ha in Hv.
  unfold vec3_finite in Hacc, Hvel.
  apply andb_true_iff in Hacc as [Hacc Haz]. apply andb_true_iff in Hacc as [Hax Hay].
  apply andb_true_iff in Hvel as [Hvel Hvz]. apply andb_true_iff in Hvel as [Hvx Hvy].
  assert (veq (load (dev_vel (stepSimulation dt st)) i) (load (dev_vel st) i)) as Hveq.
  { rewrite Hv. repeat split; cbn [glm.add glm.scale_r vx vy vz];
      by apply feq_add_zero_r, mul_finite_zero. }
  split; [done|]. destruct Hveq as (Hx & Hy & Hz).
  rewrite Hp. repeat split; cbn [glm.add glm.scale_r vx vy vz];
    apply feq_add_zero_r, mul_finite_zero; try done; by eapply feq_finite.
Qed.

(** * Further properties: the export, the bounds guards, what a thread reads *)

(** X12. The export does not depend on the order of the threads, and
    exporting twice gives what exporting once gives: the first [4 * N] entries
    are overwritten with values read from the positions alone. *)
Theorem export_is_idempotent st vbo s1 s2 :
  wf_state st → 4 * numObjects st ≤ INT_MAX →
  (Z.to_nat (4 * numObjects st) ≤ length vbo)%nat →
  schedule_of (numObjects st) s1 → schedule_of (numObjects st) s2 →
  let k := kernCopyPlanetsToVBO (numObjects st) (dev_pos st) scene_scale in
  launch_on s1 k vbo = launch_on s2 k vbo
  ∧ launch_on s2 k (launch_on s1 k vbo) = launch_on s1 k vbo
  ∧ (copyPlanetsToVBO st (copyPlanetsToVBO st vbo).2).2 = (copyPlanetsToVBO st vbo).2.
Proof.
  intros [HN0 HN1 _ _ _] _ _ Hs1 Hs2 k.
  assert (∀ s s' v, schedule_of (numObjects st) s → schedule_of (numObjects st) s' →
            launch_on s' k (launch_on s k v) = launch_on s k v) as Hidem.
  { intros s s' v Hs Hs'. apply list_eq. intros j. unfold k.
    rewrite !launch_kernCopyPlanetsToVBO by done.
    destruct (decide (Z.of_nat j < 4 * numObjects st)); [|done].
    by destruct (v !! j). }
  split; [|split].
  - apply list_eq. intros j. unfold k. by rewrite !launch_kernCopyPlanetsToVBO.
  - by apply Hidem.
  - unfold copyPlanetsToVBO, launch. cbn [fst snd].
    apply Hidem; apply schedule_of_grid.
Qed.

(** X13. The bounds guard [index < N] of the three array-filling kernels:
    on an array of at least [N] entries a launch keeps the length and leaves
    every entry from [N] on as it was, although up to 127 threads beyond [N]
    run. *)
Theorem idle_threads_write_nothing N time scale mass dt pos sched arr j :
  0 ≤ N → N + blockSize - 1 ≤ INT_MAX → schedule_of N sched →
  (Z.to_nat N ≤ length arr)%nat → (Z.to_nat N ≤ j)%nat →
  launch_on sched (kernGenerateRandomPosArray time N scale mass) arr !! j = arr !! j
  ∧ launch_on sched (kernGenerateCircularVelArray time N pos) arr !! j = arr !! j
  ∧ launch_on sched (kernUpdateAcc N dt pos) arr !! j = arr !! j
  ∧ length (launch_on sched (kernGenerateRandomPosArray time N scale mass) arr) = length arr
  ∧ length (launch_on sched (kernGenerateCircularVelArray time N pos) arr) = length arr
  ∧ length (launch_on sched (kernUpdateAcc N dt pos) arr) = length arr.
Proof.
  intros HN Hhi Hsched _ Hj.
  assert (∀ f k, writes N f k →
            launch_on sched k arr !! j = arr !! j
            ∧ length (launch_on sched k arr) = length arr) as Hw.
  { intros f k Hk. split.
    - rewrite (launch_writes_lookup N f k sched arr j) by done.
      destruct (decide (Z.of_nat j < N)); [lia|done].
    - apply Nat.le_antisymm.
      + destruct (decide (length (launch_on sched k arr) ≤ length arr)%nat) as [|Hgt]; [done|].
        assert (is_Some (launch_on sched k arr !! length arr)) as [v Hv]
          by (apply lookup_lt_is_Some; lia).
        rewrite (launch_writes_lookup N f k sched arr (length arr)) in Hv by done.
        rewrite (lookup_ge_None_2 arr (length arr)) in Hv by lia.
        by destruct (decide _).
      + destruct (decide (length arr ≤ length (launch_on sched k arr))%nat) as [|Hgt]; [done|].
        assert (launch_on sched k arr !! length (launch_on sched k arr) = None) as Hnone
          by (by apply lookup_ge_None_2).
        rewrite (launch_writes_lookup N f k sched arr _) in Hnone by done.
        assert (is_Some (arr !! length (launch_on sched k arr))) as [v Hv]
          by (apply lookup_lt_is_Some; lia).
        rewrite Hv in Hnone. by destruct (decide _). }
  destruct (Hw _ _ (kernGenerateRandomPosArray_writes time N scale mass)) as [? ?].
  destruct (Hw _ _ (kernGenerateCircularVelArray_writes time N pos)) as [? ?].
  destruct (Hw _ _ (kernUpdateAcc_writes N dt pos)) as [? ?].
  done.
Qed.

(** X14. [accelerate] reads [pos[iSelf]] and the first [N] entries of
    [pos], nothing else: two arrays that agree there give the same
    acceleration, whatever they hold elsewhere. *)
Theorem accelerate_reads_the_first_N N i pos pos' :
  load pos i = load pos' i →
  (∀ j, 0 ≤ j < N → load pos j = load pos' j) →
  accelerate N i pos = accelerate N i pos'.
Proof.
  intros Hi Hj. unfold accelerate.
  rewrite !accelerate_loop_foldl by lia. rewrite Hi.
  apply foldl_ext_in. intros a j Hin. apply elem_of_seqZ in Hin.
  by rewrite Hj by lia.
Qed.

(** * Further properties: a body on the axis of the vortex *)

Lemma div_zero_or_nan a r :
  is_zero a || is_nan a = true → is_zero (F32.div a r) || is_nan (F32.div a r) = true.
Proof. by destruct a as [| | |], r as [| | |]. Qed.

Lemma add_zero_or_nan a b :
  is_zero a || is_nan a = true → is_zero b || is_nan b = true →
  is_zero (F32.add a b) || is_nan (F32.add a b) = true.
Proof. by destruct a as [[]| | |], b as [[]| | |]. Qed.

Lemma sqrt_zero_or_nan a :
  is_zero a || is_nan a = true → is_zero (F32.sqrt a) || is_nan (F32.sqrt a) = true.
Proof. by destruct a as [| | |]. Qed.

Lemma mul_zero_by_unbounded a c :
  is_zero a || is_nan a = true → is_finite c = false → is_nan (F32.mul a c) = true.
Proof. by destruct a as [| | |], c as [| | |]. Qed.

Lemma inversesqrt_zero_or_nan a :
  is_zero a || is_nan a = true → is_finite (glm.inversesqrt a) = false.
Proof.
  intros Ha. unfold glm.inversesqrt. pose proof (sqrt_zero_or_nan a Ha) as Hs.
  rewrite float_of_int_one. by destruct (F32.sqrt a).
Qed.

(** [normalize] of a vector of zeros is a vector of NaNs: the code divides
    by the length. *)
Lemma normalize_zero_or_nan v :
  is_zero (vx v) || is_nan (vx v) = true →
  is_zero (vy v) || is_nan (vy v) = true →
  is_zero (vz v) || is_nan (vz v) = true →
  all_nan (glm.normalize v) = true.
Proof.
  intros Hx Hy Hz.
  assert (is_finite (glm.inversesqrt (glm.dot v v)) = false) as Hc.
  { apply inversesqrt_zero_or_nan. unfold glm.dot.
    repeat apply add_zero_or_nan; by apply mul_zero_or_nan_l. }
  unfold all_nan, glm.normalize, glm.scale_r. cbn [vx vy vz].
  by rewrite !mul_zero_by_unbounded.
Qed.

Lemma body_velocity_on_axis R :
  is_zero (vx R) = true → is_zero (vy R) = true → all_nan (body_velocity R) = true.
Proof.
  intros Hx Hy. unfold body_velocity, orbital_direction.
  set (r := orbital_radius R). set (s := orbital_speed R).
  assert (all_nan (glm.normalize (glm.cross (glm.div R r) (glm.vec3_of_ints 0 0 1))) = true)
    as HD.
  { assert (is_zero (vx (glm.div R r)) || is_nan (vx (glm.div R r)) = true) as Hdx
      by (apply div_zero_or_nan; by rewrite Hx).
    assert (is_zero (vy (glm.div R r)) || is_nan (vy (glm.div R r)) = true) as Hdy
      by (apply div_zero_or_nan; by rewrite Hy).
    apply normalize_zero_or_nan; unfold glm.cross; cbn [vx vy vz glm.vec3_of_ints];
      apply sub_zero_or_nan;
      (by apply mul_zero_or_nan_l) || (by apply mul_zero_or_nan_r). }
  unfold all_nan in *. cbn [glm.scale_l vx vy vz].
  apply andb_true_iff in HD as [HD HDz]. apply andb_true_iff in HD as [HDx HDy].
  by rewrite !mul_nan_r.
Qed.

(** X15. A body whose first two draws are zeros sits on the vertical axis,
    where the vortex has no direction: [initSimulation] gives it a velocity
    of three NaNs, for every [G] and [EPSILON]. *)
Theorem body_on_the_axis_gets_nan_velocity N jp jv ja i :
  0 ≤ N → N + blockSize - 1 ≤ INT_MAX → 0 ≤ i < N →
  is_zero (vx (generateRandomVec3 (float_of_int 1) i)) = true →
  is_zero (vy (generateRandomVec3 (float_of_int 1) i)) = true →
  let st := initSimulation N jp jv ja in
  is_zero (vx (load (dev_pos st) i)) = true
  ∧ is_zero (vy (load (dev_pos st) i)) = true
  ∧ all_nan (load (dev_vel st) i) = true.
Proof.
  intros HN Hhi Hi Hrx Hry st.
  destruct (initSimulation_on_arrays _ _ N jp jv ja HN Hhi
              (schedule_of_grid N) (schedule_of_grid N)) as (_ & Hp & Hv & _).
  fold (initSimulation N jp jv ja) in Hp, Hv. fold st in Hp, Hv.
  rewrite Hp, Hv, !load_fmap_seqZ by done.
  assert (is_zero (vx (body_position 1 scene_scale i)) = true) as Hx
    by (by apply mul_finite_zero).
  assert (is_zero (vy (body_position 1 scene_scale i)) = true) as Hy
    by (by apply mul_finite_zero).
  split; [done|]. split; [done|]. by apply body_velocity_on_axis.
Qed.

(** X16. A NaN in the velocity of a body reaches its position within one
    step, whatever the time step and the acceleration. *)
Theorem nan_velocity_reaches_the_position dt st i :
  wf_state st → 0 ≤ i < numObjects st →
  has_nan (load (dev_vel st) i) = true →
  has_nan (load (dev_vel (stepSimulation dt st)) i) = true
  ∧ has_nan (load (dev_pos (stepSimulation dt st)) i) = true.
Proof.
  intros Hwf Hi Hnan.
  destruct (stepSimulation_on_spec _ _ dt st Hwf (schedule_of_grid _) (schedule_of_grid _))
    as (_ & _ & _ & _ & Hstep).
  fold (stepSimulation dt st) in Hstep.
  destruct (Hstep i Hi) as (_ & Hvel & Hpos).
  assert (has_nan (load (dev_vel (stepSimulation dt st)) i) = true) as Hv.
  { rewrite Hvel. revert Hnan. unfold has_nan. cbn [glm.add vx vy vz].
    rewrite !orb_true_iff. intros [[H|H]|H]; eauto using add_nan_l. }
  split; [done|]. rewrite Hpos. revert Hv. unfold has_nan.
  cbn [glm.add glm.scale_r vx vy vz]. rewrite !orb_true_iff.
  intros [[H|H]|H]; eauto using add_nan_r, mul_nan_l.
Qed.

(** * Further properties: the export mirrors the scene *)

Lemma binary_round_aux_sign prec emax s P e :
  0 ≤ P → sign_bit (binary_round_aux prec emax s P e loc_Exact) = Some s.
Proof.
  intros HP. unfold binary_round_aux.
  pose proof (shr_fexp_inv prec emax P e HP) as H1.
  destruct (shr_fexp prec emax P e loc_Exact) as [mrs1 e1]. cbn [fst snd] in H1.
  destruct H1 as [He1 Hinv1].
  destruct (round_nearest_even_inv P (e1 - e) mrs1 ltac:(lia) Hinv1) as [Hm2 _].
  pose proof (shr_fexp_inv prec emax _ e1 Hm2) as H2.
  destruct (shr_fexp prec emax _ e1 loc_Exact) as [mrs2 e2]. cbn [fst snd] in H2.
  destruct H2 as [_ [Hm3 _]].
  destruct (shr_m mrs2); [done| |lia]. by destruct (e2 <=? emax - prec).
Qed.

Lemma mul_negative_sign x m e :
  sign_bit (F32.mul x (S754_finite true m e)) = negb <$> sign_bit x.
Proof.
  destruct x as [s|s| |s mx ex]; cbn [F32.mul SFmul sign_bit fmap option_fmap option_map];
    rewrite ?xorb_true_r; try done.
  by rewrite binary_round_aux_sign by lia.
Qed.

Lemma c_scale_value :
  F32.div (float_of_int (-1)) scene_scale = S754_finite true 10737418 (-30).
Proof. reflexivity. Qed.

(** X17. The export mirrors the scene through the origin: the factor
    [-1 / scene_scale] is negative, so every exported coordinate of a body has
    the sign bit opposite to the one of its position, zeros and infinities
    included, and a NaN stays a NaN. *)
Theorem export_mirrors_the_scene st vbo i :
  wf_state st → 4 * numObjects st ≤ INT_MAX →
  (Z.to_nat (4 * numObjects st) ≤ length vbo)%nat →
  0 ≤ i < numObjects st →
  let vbo' := (copyPlanetsToVBO st vbo).2 in
  sign_bit <$> vbo' !! Z.to_nat (4 * i + 0)
    = Some (negb <$> sign_bit (vx (load (dev_pos st) i)))
  ∧ sign_bit <$> vbo' !! Z.to_nat (4 * i + 1)
    = Some (negb <$> sign_bit (vy (load (dev_pos st) i)))
  ∧ sign_bit <$> vbo' !! Z.to_nat (4 * i + 2)
    = Some (negb <$> sign_bit (vz (load (dev_pos st) i)))
  ∧ sign_bit <$> vbo' !! Z.to_nat (4 * i + 3) = Some (Some false).
Proof.
  intros [HN Hhi _ _ _] H4 Hlen Hi vbo'.
  assert (∀ c, 0 ≤ c < 4 →
            vbo' !! Z.to_nat (4 * i + c)
            = Some (vbo_entry (dev_pos st) scene_scale i c)) as Hent.
  { intros c Hc. subst vbo'. unfold copyPlanetsToVBO, launch. cbn [snd].
    rewrite launch_kernCopyPlanetsToVBO by (done || apply schedule_of_grid).
    rewrite decide_True by lia.
    destruct (lookup_lt_is_Some_2 vbo (Z.to_nat (4 * i + c)) ltac:(lia)) as [v ->].
    cbn. rewrite Z2Nat.id by lia. do 2 f_equal.
    - rewrite Z.mul_comm, Z.div_add_l by lia. rewrite Z.div_small by lia. lia.
    - rewrite Z.mul_comm, Z.add_comm, Z.mod_add by lia. by rewrite Z.mod_small by lia. }
  rewrite !Hent by lia. unfold vbo_entry. cbn [Z.eqb fmap option_fmap option_map].
  rewrite c_scale_value.
  split; [f_equal; apply mul_negative_sign|]. split; [f_equal; apply mul_negative_sign|].
  split; [f_equal; apply mul_negative_sign|done].
Qed.

End Kernels.

(** * The statements on concrete inputs *)

(** Two bodies, at (3, 0, 4) and at (3, 5, 4): the acceleration of the first
    is the central-mass term, the zero self term and the pull of the second,
    which is not zero and shows in the total.  For the single body at
    (3, 0, 4) the loop adds the zero self term to the central-mass term. *)
Lemma accelerate_sums_all_bodies_witness :
  let p0 := glm.vec3_of_ints 3 0 4 in
  let p1 := glm.vec3_of_ints 3 5 4 in
  0 ≤ 0 < 2
  ∧ length [p0; p1] = Z.to_nat 2
  ∧ accelerate G_ref 2 0 [p0; p1] =
      glm.add (glm.add (pairwise_contribution G_ref p0 origin starMass)
                       (pairwise_contribution G_ref p0 p0 planetMass))
              (pairwise_contribution G_ref p0 p1 planetMass)
  ∧ accelOne G_ref p0 p1 planetMass =
      glm.scale_l
        (F32.div (float_of_double (F64.mul G_ref (double_of_float planetMass)))
                 (squared_distance p0 p1))
        (glm.normalize (glm.sub p1 p0))
  ∧ accelOne G_ref p0 p1 planetMass ≠ origin
  ∧ ¬ veq (accelerate G_ref 2 0 [p0; p1]) (accelOne G_ref p0 origin starMass)
  ∧ veq (accelerate G_ref 1 0 [p0]) (accelOne G_ref p0 origin starMass).
Proof.
  intros p0 p1.
  assert (0 ≤ 0 < 2) as Hi by lia.
  assert (length [p0; p1] = Z.to_nat 2) as Hlen by reflexivity.
  destruct (accelerate_sums_all_bodies G_ref 2 0 [p0; p1] Hi Hlen)
    as (_ & Hlaw & Hsum & _).
  destruct (accelerate_sums_all_bodies G_ref 1 0 [p0] ltac:(lia) eq_refl)
    as (_ & _ & _ & _ & _ & _ & Hone).
  split; [exact Hi|]. split; [exact Hlen|]. split; [exact Hsum|].
  split; [exact (Hlaw p0 p1 planetMass)|].
  split; [vm_compute; discriminate|].
  split; [|exact (Hone eq_refl)].
  intros (_ & Hy & _). vm_compute in Hy. destruct Hy as [Hy|[Hy _]]; discriminate.
Defined.


(** The total and the central term can differ in the sign of a zero: the body
    sits a denormal step off the [y] axis, the central term has [x = -0], and
    adding the zero self term turns it into [+0]. *)
Example accelerate_negative_zero :
  let p := mkvec3 (dyadic 1 (-149)) (dyadic 10 0) (dyadic 0 0) in
  vx (accelOne G_ref p origin starMass) = S754_zero true
  ∧ vx (accelerate G_ref 1 0 [p]) = S754_zero false.
Proof. vm_compute. done. Qed.

Lemma accelOne_singularity_guard_witness :
  (SFleb (double_of_float
            (squared_distance (mkvec3 (dyadic 1 (-2)) (dyadic 0 0) (dyadic 0 0))
                              (mkvec3 (dyadic 1 (-1)) (dyadic 0 0) (dyadic 0 0))))
         threshold = true
   ∨ mkvec3 (dyadic 1 (-1)) (dyadic 0 0) (dyadic 0 0)
     = mkvec3 (dyadic 1 (-2)) (dyadic 0 0) (dyadic 0 0))
  ∧ accelOne G_ref (mkvec3 (dyadic 1 (-2)) (dyadic 0 0) (dyadic 0 0))
                   (mkvec3 (dyadic 1 (-1)) (dyadic 0 0) (dyadic 0 0)) planetMass
    = glm.vec3_of_ints 0 0 0.
Proof.
  assert (SFleb (double_of_float
            (squared_distance (mkvec3 (dyadic 1 (-2)) (dyadic 0 0) (dyadic 0 0))
                              (mkvec3 (dyadic 1 (-1)) (dyadic 0 0) (dyadic 0 0))))
         threshold = true) as Hle by (vm_compute; reflexivity).
  split; [left; exact Hle|].
  apply (accelOne_singularity_guard G_ref). left. exact Hle.
Defined.

(** Two bodies at the same place, (3, 0, 4): each gets a finite acceleration,
    the pull of the central mass alone. *)
Example coincident_bodies_finite :
  let p := glm.vec3_of_ints 3 0 4 in
  let st := stepSimulation G_ref (dyadic 1 (-1))
              (mkstate 2 [p; p] [origin; origin] [origin; origin]) in
  dev_acc st = [accelOne G_ref p origin starMass; accelOne G_ref p origin starMass]
  ∧ vec3_finite (load (dev_acc st) 0) = true
  ∧ vec3_finite (load (dev_acc st) 1) = true.
Proof. vm_compute. done. Qed.

Lemma central_mass_guard_witness :
  SFleb (double_of_float
           (squared_distance
              (load [mkvec3 (dyadic 1 (-2)) (dyadic 0 0) (dyadic 0 0)] 0) origin))
        threshold = true
  ∧ accelerate G_ref 1 0 [mkvec3 (dyadic 1 (-2)) (dyadic 0 0) (dyadic 0 0)]
    = glm.vec3_of_ints 0 0 0.
Proof.
  assert (SFleb (double_of_float
           (squared_distance
              (load [mkvec3 (dyadic 1 (-2)) (dyadic 0 0) (dyadic 0 0)] 0) origin))
        threshold = true) as Hle by (vm_compute; reflexivity).
  split; [exact Hle|].
  destruct (central_mass_guard G_ref 1 0
              [mkvec3 (dyadic 1 (-2)) (dyadic 0 0) (dyadic 0 0)] Hle) as (_ & _ & ->).
  vm_compute. reflexivity.
Defined.

(** One body at (3, 0, 4) moving at (0, 1, 0), stepped by [dt = 1/2]: the new
    position uses the new velocity, and differs from [pos + vel * dt]. *)
Lemma step_is_semi_implicit_euler_witness :
  let st := mkstate 1 [glm.vec3_of_ints 3 0 4] [glm.vec3_of_ints 0 1 0] [origin] in
  let st' := stepSimulation G_ref (dyadic 1 (-1)) st in
  wf_state st
  ∧ 0 ≤ 0 < numObjects st
  ∧ load (dev_pos st') 0 =
      glm.add (load (dev_pos st) 0) (glm.scale_r (load (dev_vel st') 0) (dyadic 1 (-1)))
  ∧ load (dev_pos st') 0 ≠
      glm.add (load (dev_pos st) 0) (glm.scale_r (load (dev_vel st) 0) (dyadic 1 (-1))).
Proof.
  intros st st'.
  assert (wf_state st) as Hwf by (split; (reflexivity || (vm_compute; discriminate))).
  assert (0 ≤ 0 < numObjects st) as Hi by (cbn; lia).
  destruct (step_is_semi_implicit_euler G_ref (dyadic 1 (-1)) st 0 Hwf Hi)
    as (_ & _ & H & _).
  split; [exact Hwf|]. split; [exact Hi|]. split; [exact H|].
  vm_compute. discriminate.
Defined.

Lemma acceleration_pass_ignores_dt_witness :
  let st1 := mkstate 2 [glm.vec3_of_ints 3 0 4; glm.vec3_of_ints (-50) 20 1]
               [glm.vec3_of_ints 0 1 0; origin] [origin; origin] in
  let st2 := mkstate 2 [glm.vec3_of_ints 3 0 4; glm.vec3_of_ints (-50) 20 1]
               [origin; glm.vec3_of_ints 7 7 7] (junk_nan <$> seq 0 2) in
  wf_state st1 ∧ wf_state st2
  ∧ numObjects st1 = numObjects st2 ∧ dev_pos st1 = dev_pos st2
  ∧ dev_acc (stepSimulation G_ref (dyadic 1 (-1)) st1)
    = dev_acc (stepSimulation G_ref (dyadic 3 0) st2).
Proof.
  intros st1 st2.
  assert (wf_state st1) as Hwf1 by (split; (reflexivity || (vm_compute; discriminate))).
  assert (wf_state st2) as Hwf2 by (split; (reflexivity || (vm_compute; discriminate))).
  destruct (acceleration_pass_ignores_dt G_ref (dyadic 1 (-1)) (dyadic 3 0) st1 st2
              Hwf1 Hwf2 eq_refl eq_refl) as (_ & H & _).
  split; [exact Hwf1|]. split; [exact Hwf2|]. split; [reflexivity|].
  split; [reflexivity|exact H].
Defined.

Lemma copyPlanetsToVBO_exports_witness :
  let st := mkstate 2 [glm.vec3_of_ints 3 0 4; glm.vec3_of_ints (-50) 20 1]
              [origin; origin] [origin; origin] in
  let vbo := replicate 9 S754_nan in
  wf_state st
  ∧ 4 * numObjects st ≤ INT_MAX
  ∧ (Z.to_nat (4 * numObjects st) ≤ length vbo)%nat
  ∧ (copyPlanetsToVBO st vbo).1 = st
  ∧ (copyPlanetsToVBO st vbo).2 !! 4%nat =
      Some (F32.mul (float_of_int (-50)) (F32.div (float_of_int (-1)) scene_scale))
  ∧ (copyPlanetsToVBO st vbo).2 !! 7%nat = Some (float_of_int 1)
  ∧ (copyPlanetsToVBO st vbo).2 !! 8%nat = Some S754_nan.
Proof.
  intros st vbo.
  assert (wf_state st) as Hwf by (split; (reflexivity || (vm_compute; discriminate))).
  assert (4 * numObjects st ≤ INT_MAX) as H4 by (vm_compute; discriminate).
  assert (Z.to_nat (4 * numObjects st) ≤ length vbo)%nat as Hlen by (cbn; lia).
  destruct (copyPlanetsToVBO_exports st vbo Hwf H4 Hlen) as (H1 & _ & H3 & H4').
  destruct (H3 1 ltac:(cbn; lia)) as (Hx & _ & _ & Hw).
  split; [exact Hwf|]. split; [exact H4|]. split; [exact Hlen|].
  split; [exact H1|]. split; [exact Hx|]. split; [exact Hw|].
  rewrite H4' by (cbn; lia). reflexivity.
Defined.

(** Two bodies, initialized once block by block over memory full of NaNs and
    once in the opposite thread order over memory full of ones. *)
Lemma initialization_is_deterministic_witness :
  let draws := [dyadic 1 (-1); dyadic 0 0; dyadic 1 (-1)] in
  let sp := grid (fullBlocksPerGrid 2) blockSize in
  let sv := reverse (grid (fullBlocksPerGrid 2) blockSize) in
  let st := initSimulation_on G_ref EPSILON_ref replay_engine (replay_seed draws)
              replay_draw sp sp 2 junk_nan junk_nan junk_nan in
  let st' := initSimulation_on G_ref EPSILON_ref replay_engine (replay_seed draws)
               replay_draw sv sv 2 junk_one junk_one junk_one in
  0 ≤ 2 ∧ 2 + blockSize - 1 ≤ INT_MAX
  ∧ schedule_of 2 sp ∧ schedule_of 2 sv
  ∧ dev_pos st = dev_pos st' ∧ dev_vel st = dev_vel st'.
Proof.
  intros draws sp sv st st'.
  assert (0 ≤ 2) as HN by lia.
  assert (2 + blockSize - 1 ≤ INT_MAX) as Hhi by (vm_compute; discriminate).
  assert (schedule_of 2 sp) as Hsp by apply schedule_of_grid.
  assert (schedule_of 2 sv) as Hsv by apply reverse_Permutation.
  destruct (initialization_is_deterministic G_ref EPSILON_ref replay_engine
              (replay_seed draws) replay_draw 2 sp sp sv sv
              junk_nan junk_nan junk_nan junk_one junk_one junk_one
              HN Hhi Hsp Hsp Hsv Hsv) as (Hp & Hv & _).
  split; [exact HN|]. split; [exact Hhi|]. split; [exact Hsp|]. split; [exact Hsv|].
  split; [exact Hp|exact Hv].
Defined.

Lemma seed_tag_has_no_effect_on_body_zero_witness :
  let draws := [dyadic 1 (-1); dyadic 0 0; dyadic 1 (-1)] in
  let pos1 := launch (fullBlocksPerGrid 1) blockSize
                (kernGenerateRandomPosArray replay_engine (replay_seed draws) replay_draw
                   1 1 scene_scale planetMass) [origin] in
  let pos2 := launch (fullBlocksPerGrid 1) blockSize
                (kernGenerateRandomPosArray replay_engine (replay_seed draws) replay_draw
                   (-77) 1 scene_scale planetMass) [origin] in
  INT_MIN ≤ 1 ≤ INT_MAX ∧ INT_MIN ≤ -77 ≤ INT_MAX
  ∧ 0 < 1 ∧ 1 + blockSize - 1 ≤ INT_MAX
  ∧ length [origin] = Z.to_nat 1
  ∧ seed_of (float_of_int 1) 0 = hash 0
  ∧ seed_of (float_of_int (-77)) 0 = hash 0
  ∧ load pos1 0 = load pos2 0.
Proof.
  intros draws pos1 pos2.
  assert (INT_MIN ≤ 1 ≤ INT_MAX) as Ht1 by (vm_compute; split; discriminate).
  assert (INT_MIN ≤ -77 ≤ INT_MAX) as Ht2 by (vm_compute; split; discriminate).
  assert (0 < 1) as HN by lia.
  assert (1 + blockSize - 1 ≤ INT_MAX) as Hhi by (vm_compute; discriminate).
  assert (length [origin] = Z.to_nat 1) as Hlen by reflexivity.
  destruct (seed_tag_has_no_effect_on_body_zero G_ref EPSILON_ref replay_engine
              (replay_seed draws) replay_draw 1 (-77) 2 2 1 scene_scale planetMass
              [origin] [origin] Ht1 Ht2 HN Hhi Hlen Hlen) as (Hs1 & Hs2 & _ & Hp & _).
  split; [exact Ht1|]. split; [exact Ht2|]. split; [exact HN|]. split; [exact Hhi|].
  split; [exact Hlen|]. split; [exact Hs1|]. split; [exact Hs2|exact Hp].
Defined.

(** The seed handed to the engine for body 0. *)
Example seed_of_body_zero : hash 0 = 1800329511.
Proof. reflexivity. Qed.

Lemma initial_position_of_body_witness :
  let draws := [dyadic 7 (-3); dyadic (-1) 0; dyadic 1 (-1)] in
  let st := initSimulation G_ref EPSILON_ref replay_engine (replay_seed draws)
              replay_draw 1 junk_nan junk_nan junk_nan in
  let rand := generateRandomVec3 replay_engine (replay_seed draws) replay_draw
                (float_of_int 1) 0 in
  0 ≤ 1 ∧ 1 + blockSize - 1 ≤ INT_MAX ∧ 0 ≤ 0 < 1
  ∧ unit_draw (vx rand) = true ∧ unit_draw (vy rand) = true
  ∧ vx (load (dev_pos st) 0) = F32.mul scene_scale (dyadic 7 (-3))
  ∧ SFleb (SFabs (vx (load (dev_pos st) 0))) scene_scale = true
  ∧ SFleb (SFabs (vy (load (dev_pos st) 0))) scene_scale = true.
Proof.
  intros draws st rand.
  assert (0 ≤ 1) as HN by lia.
  assert (1 + blockSize - 1 ≤ INT_MAX) as Hhi by (vm_compute; discriminate).
  assert (0 ≤ 0 < 1) as Hi by lia.
  assert (unit_draw (vx rand) = true) as Hrx by (vm_compute; reflexivity).
  assert (unit_draw (vy rand) = true) as Hry by (vm_compute; reflexivity).
  destruct (initial_position_of_body G_ref EPSILON_ref replay_engine
              (replay_seed draws) replay_draw 1 junk_nan junk_nan junk_nan 0
              HN Hhi Hi Hrx Hry) as (Hx & _ & _ & _ & Hbx & _ & Hby).
  split; [exact HN|]. split; [exact Hhi|]. split; [exact Hi|].
  split; [exact Hrx|]. split; [exact Hry|]. split; [exact Hx|].
  split; [exact Hbx|exact Hby].
Defined.

(** C5 as stated fails: a body whose two planar draws are both 7/8 is placed
    at (87.5, 87.5, 0), at distance 123.7 from the origin, beyond the scale
    100. *)
Lemma initial_distance_exceeds_scale :
  let draws := [dyadic 7 (-3); dyadic 7 (-3); dyadic 0 0] in
  let st := initSimulation G_ref EPSILON_ref replay_engine (replay_seed draws)
              replay_draw 1 junk_nan junk_nan junk_nan in
  let p := load (dev_pos st) 0 in
  p = mkvec3 (dyadic 175 (-1)) (dyadic 175 (-1)) (dyadic 0 0)
  ∧ scene_scale = dyadic 100 0
  ∧ glm.length p = S754_finite false 16219333 (-17)
  ∧ SFleb (glm.length p) scene_scale = false
  ∧ gtb (glm.length p) scene_scale = true.
Proof. vm_compute. done. Qed.

Lemma initial_velocity_of_body_witness :
  let draws := [dyadic 1 (-1); dyadic 0 0; dyadic 1 (-1)] in
  let st := initSimulation G_ref EPSILON_ref replay_engine (replay_seed draws)
              replay_draw 1 junk_nan junk_nan junk_nan in
  0 ≤ 1 ∧ 1 + blockSize - 1 ≤ INT_MAX ∧ 0 ≤ 0 < 1
  ∧ is_zero (vz (load (dev_vel st) 0)) || is_nan (vz (load (dev_vel st) 0)) = true.
Proof.
  intros draws st.
  assert (0 ≤ 1) as HN by lia.
  assert (1 + blockSize - 1 ≤ INT_MAX) as Hhi by (vm_compute; discriminate).
  assert (0 ≤ 0 < 1) as Hi by lia.
  destruct (initial_velocity_of_body G_ref EPSILON_ref replay_engine
              (replay_seed draws) replay_draw 1 junk_nan junk_nan junk_nan 0
              HN Hhi Hi) as (_ & Hz).
  split; [exact HN|]. split; [exact Hhi|]. split; [exact Hi|exact Hz].
Defined.

(** C6 as stated fails: for the body placed at (50, 0, 2.5) the kernel divides
    by the length of the whole position vector, 50.06, not by the planar
    distance 50; its speed is below the one the planar distance gives. *)
Lemma initial_speed_is_not_planar :
  let draws := [dyadic 1 (-1); dyadic 0 0; dyadic 1 (-1)] in
  let st := initSimulation G_ref EPSILON_ref replay_engine (replay_seed draws)
              replay_draw 1 junk_nan junk_nan junk_nan in
  let R := load (dev_pos st) 0 in
  let v := load (dev_vel st) 0 in
  R = mkvec3 (dyadic 50 0) (dyadic 0 0) (dyadic 5 (-1))
  ∧ orbital_radius EPSILON_ref R ≠ planar_radius EPSILON_ref R
  ∧ v = glm.scale_l (orbital_speed G_ref EPSILON_ref R) (orbital_direction EPSILON_ref R)
  ∧ v ≠ glm.scale_l (planar_speed G_ref EPSILON_ref R) (orbital_direction EPSILON_ref R)
  ∧ glm.length v = orbital_speed G_ref EPSILON_ref R
  ∧ SFltb (glm.length v) (planar_speed G_ref EPSILON_ref R) = true.
Proof. vm_compute. repeat split; discriminate || reflexivity. Qed.

(** * The further properties on concrete inputs *)

(** A scene of 300 bodies: three blocks, 84 idle threads. *)
Lemma launch_covers_each_body_once_witness :
  0 ≤ 300 ∧ 300 + blockSize - 1 ≤ INT_MAX
  ∧ 300 ≤ fullBlocksPerGrid 300 * blockSize < 300 + blockSize
  ∧ 299 ∈ global_index <$> grid (fullBlocksPerGrid 300) blockSize.
Proof.
  assert (0 ≤ 300) as H0 by lia.
  assert (300 + blockSize - 1 ≤ INT_MAX) as H1 by (vm_compute; discriminate).
  destruct (launch_covers_each_body_once 300 H0 H1) as (_ & _ & H & Hin).
  split; [exact H0|]. split; [exact H1|]. split; [exact H|].
  exact (Hin 299 ltac:(lia)).
Defined.


Lemma steps_keep_the_state_well_formed_witness :
  let st := mkstate 1 [glm.vec3_of_ints 3 0 4] [glm.vec3_of_ints 0 1 0] [origin] in
  let dts := [dyadic 1 (-1); dyadic 1 (-2)] in
  wf_state st
  ∧ wf_state (foldl (λ st dt, stepSimulation G_ref dt st) st dts)
  ∧ numObjects (foldl (λ st dt, stepSimulation G_ref dt st) st dts) = 1.
Proof.
  intros st dts.
  assert (wf_state st) as Hwf by (split; (reflexivity || (vm_compute; discriminate))).
  destruct (steps_keep_the_state_well_formed G_ref dts st Hwf) as [H1 H2].
  split; [exact Hwf|]. split; [exact H1|exact H2].
Defined.

(** Two states that differ in the acceleration array only, stepped in
    opposite thread orders. *)
Lemma step_depends_on_positions_and_velocities_only_witness :
  let st1 := mkstate 2 [glm.vec3_of_ints 3 0 4; glm.vec3_of_ints (-50) 20 1]
               [glm.vec3_of_ints 0 1 0; origin] [origin; origin] in
  let st2 := mkstate 2 [glm.vec3_of_ints 3 0 4; glm.vec3_of_ints (-50) 20 1]
               [glm.vec3_of_ints 0 1 0; origin] (junk_nan <$> seq 0 2) in
  let s := grid (fullBlocksPerGrid 2) blockSize in
  let s' := reverse (grid (fullBlocksPerGrid 2) blockSize) in
  wf_state st1 ∧ wf_state st2
  ∧ schedule_of (numObjects st1) s ∧ schedule_of (numObjects st1) s'
  ∧ stepSimulation_on G_ref s s (dyadic 1 (-1)) st1
    = stepSimulation_on G_ref s' s' (dyadic 1 (-1)) st2.
Proof.
  intros st1 st2 s s'.
  assert (wf_state st1) as Hwf1 by (split; (reflexivity || (vm_compute; discriminate))).
  assert (wf_state st2) as Hwf2 by (split; (reflexivity || (vm_compute; discriminate))).
  assert (schedule_of (numObjects st1) s) as Hs by apply schedule_of_grid.
  assert (schedule_of (numObjects st1) s') as Hs' by apply reverse_Permutation.
  pose proof (step_depends_on_positions_and_velocities_only G_ref (dyadic 1 (-1))
                st1 st2 s s s' s' Hwf1 Hwf2 eq_refl eq_refl eq_refl Hs Hs Hs' Hs') as H.
  split; [exact Hwf1|]. split; [exact Hwf2|]. split; [exact Hs|]. split; [exact Hs'|exact H].
Defined.


Lemma hash_separates_the_bodies_witness :
  0 ≤ 3 < 2 ^ 32 ∧ 0 ≤ 5 < 2 ^ 32
  ∧ hash 3 ≠ hash 5
  ∧ seed_of (float_of_int 1) 3 ≠ seed_of (float_of_int 1) 5.
Proof.
  assert (0 ≤ 3 < 2 ^ 32) as Ha by lia.
  assert (0 ≤ 5 < 2 ^ 32) as Hb by lia.
  destruct (hash_separates_the_bodies 3 5 Ha Hb) as [Hh Hs].
  split; [exact Ha|]. split; [exact Hb|]. split.
  - intros H. apply Hh in H. discriminate H.
  - intros H. apply Hs in H; [discriminate H|lia|lia].
Defined.

Lemma position_seed_of_body_witness :
  0 ≤ 5 ≤ 2 ^ 24 ∧ seed_of (float_of_int 1) 5 = hash 5.
Proof.
  assert (0 ≤ 5 ≤ 2 ^ 24) as Hi by lia.
  destruct (position_seed_of_body replay_engine (replay_seed []) replay_draw 5 Hi)
    as (H & _).
  split; [exact Hi|exact H].
Defined.

Lemma nan_position_exerts_no_force_witness :
  let pos := [mkvec3 S754_nan (dyadic 0 0) (dyadic 0 0); glm.vec3_of_ints 3 0 4] in
  has_nan (load pos 0) = true
  ∧ accelOne G_ref (load pos 1) (load pos 0) planetMass = origin
  ∧ accelerate G_ref 2 0 pos = origin.
Proof.
  intros pos.
  assert (has_nan (load pos 0) = true) as Hnan by reflexivity.
  destruct (nan_position_exerts_no_force G_ref 2 0 pos Hnan) as (_ & H2 & H3).
  split; [exact Hnan|]. split; [exact (H2 (load pos 1) planetMass)|exact H3].
Defined.

Lemma nan_position_is_absorbing_witness :
  let st := mkstate 2 [mkvec3 S754_nan (dyadic 0 0) (dyadic 0 0); glm.vec3_of_ints 3 0 4]
              [glm.vec3_of_ints 0 1 0; origin] [origin; origin] in
  let st' := stepSimulation G_ref (dyadic 1 (-1)) st in
  wf_state st ∧ 0 ≤ 0 < numObjects st
  ∧ has_nan (load (dev_pos st) 0) = true
  ∧ has_nan (load (dev_pos st') 0) = true
  ∧ load (dev_acc st') 0 = origin.
Proof.
  intros st st'.
  assert (wf_state st) as Hwf by (split; (reflexivity || (vm_compute; discriminate))).
  assert (0 ≤ 0 < numObjects st) as Hi by (cbn; lia).
  assert (has_nan (load (dev_pos st) 0) = true) as Hnan by reflexivity.
  destruct (nan_position_is_absorbing G_ref (dyadic 1 (-1)) st 0 Hwf Hi Hnan)
    as (H1 & H2 & _).
  split; [exact Hwf|]. split; [exact Hi|]. split; [exact Hnan|]. split; [exact H1|exact H2].
Defined.

Lemma zero_time_step_keeps_the_body_witness :
  let st := mkstate 1 [glm.vec3_of_ints 3 0 4] [glm.vec3_of_ints 0 1 0] [origin] in
  let st' := stepSimulation G_ref (dyadic 0 0) st in
  wf_state st ∧ 0 ≤ 0 < numObjects st
  ∧ is_zero (dyadic 0 0) = true
  ∧ vec3_finite (accelerate G_ref (numObjects st) 0 (dev_pos st)) = true
  ∧ vec3_finite (load (dev_vel st) 0) = true
  ∧ veq (load (dev_vel st') 0) (load (dev_vel st) 0)
  ∧ veq (load (dev_pos st') 0) (load (dev_pos st) 0).
Proof.
  intros st st'.
  assert (wf_state st) as Hwf by (split; (reflexivity || (vm_compute; discriminate))).
  assert (0 ≤ 0 < numObjects st) as Hi by (cbn; lia).
  assert (is_zero (dyadic 0 0) = true) as Hdt by reflexivity.
  assert (vec3_finite (accelerate G_ref (numObjects st) 0 (dev_pos st)) = true) as Ha
    by (vm_compute; reflexivity).
  assert (vec3_finite (load (dev_vel st) 0) = true) as Hv by (vm_compute; reflexivity).
  destruct (zero_time_step_keeps_the_body G_ref (dyadic 0 0) st 0 Hwf Hi Hdt Ha Hv)
    as [H1 H2].
  split; [exact Hwf|]. split; [exact Hi|]. split; [exact Hdt|]. split; [exact Ha|].
  split; [exact Hv|]. split; [exact H1|exact H2].
Defined.

Lemma export_is_idempotent_witness :
  let st := mkstate 2 [glm.vec3_of_ints 3 0 4; glm.vec3_of_ints (-50) 20 1]
              [origin; origin] [origin; origin] in
  let vbo := replicate 9 S754_nan in
  let s := grid (fullBlocksPerGrid 2) blockSize in
  let s' := reverse (grid (fullBlocksPerGrid 2) blockSize) in
  let k := kernCopyPlanetsToVBO (numObjects st) (dev_pos st) scene_scale in
  wf_state st ∧ 4 * numObjects st ≤ INT_MAX
  ∧ (Z.to_nat (4 * numObjects st) ≤ length vbo)%nat
  ∧ schedule_of (numObjects st) s ∧ schedule_of (numObjects st) s'
  ∧ launch_on s k vbo = launch_on s' k vbo
  ∧ (copyPlanetsToVBO st (copyPlanetsToVBO st vbo).2).2 = (copyPlanetsToVBO st vbo).2.
Proof.
  intros st vbo s s' k.
  assert (wf_state st) as Hwf by (split; (reflexivity || (vm_compute; discriminate))).
  assert (4 * numObjects st ≤ INT_MAX) as H4 by (vm_compute; discriminate).
  assert (Z.to_nat (4 * numObjects st) ≤ length vbo)%nat as Hlen by (cbn; lia).
  assert (schedule_of (numObjects st) s) as Hs by apply schedule_of_grid.
  assert (schedule_of (numObjects st) s') as Hs' by apply reverse_Permutation.
  destruct (export_is_idempotent st vbo s s' Hwf H4 Hlen Hs Hs') as (H1 & _ & H3).
  split; [exact Hwf|]. split; [exact H4|]. split; [exact Hlen|]. split; [exact Hs|].
  split; [exact Hs'|]. split; [exact H1|exact H3].
Defined.

(** Two bodies in arrays of three entries: the third entry is not a body. *)
Lemma idle_threads_write_nothing_witness :
  let pos := [glm.vec3_of_ints 3 0 4; glm.vec3_of_ints (-50) 20 1; glm.vec3_of_ints 9 9 9] in
  let arr := junk_one <$> seq 0 3 in
  let s := grid (fullBlocksPerGrid 2) blockSize in
  0 ≤ 2 ∧ 2 + blockSize - 1 ≤ INT_MAX ∧ schedule_of 2 s
  ∧ (Z.to_nat 2 ≤ length arr)%nat ∧ (Z.to_nat 2 ≤ 2)%nat
  ∧ launch_on s (kernUpdateAcc G_ref 2 (dyadic 1 (-1)) pos) arr !! 2%nat = arr !! 2%nat
  ∧ length (launch_on s (kernUpdateAcc G_ref 2 (dyadic 1 (-1)) pos) arr) = length arr.
Proof.
  intros pos arr s.
  assert (0 ≤ 2) as HN by lia.
  assert (2 + blockSize - 1 ≤ INT_MAX) as Hhi by (vm_compute; discriminate).
  assert (schedule_of 2 s) as Hs by apply schedule_of_grid.
  assert (Z.to_nat 2 ≤ length arr)%nat as Hlen by (cbn; lia).
  assert (Z.to_nat 2 ≤ 2)%nat as Hj by (cbn; lia).
  destruct (idle_threads_write_nothing G_ref EPSILON_ref replay_engine (replay_seed [])
              replay_draw 2 1 scene_scale planetMass (dyadic 1 (-1)) pos s arr 2%nat
              HN Hhi Hs Hlen Hj) as (_ & _ & H3 & _ & _ & H6).
  split; [exact HN|]. split; [exact Hhi|]. split; [exact Hs|]. split; [exact Hlen|].
  split; [exact Hj|]. split; [exact H3|exact H6].
Defined.

Lemma accelerate_reads_the_first_N_witness :
  let pos := [glm.vec3_of_ints 3 0 4; glm.vec3_of_ints (-50) 20 1] in
  let pos' := [glm.vec3_of_ints 3 0 4; glm.vec3_of_ints (-50) 20 1; glm.vec3_of_ints 9 9 9] in
  load pos 0 = load pos' 0
  ∧ (∀ j, 0 ≤ j < 2 → load pos j = load pos' j)
  ∧ accelerate G_ref 2 0 pos = accelerate G_ref 2 0 pos'.
Proof.
  intros pos pos'.
  assert (load pos 0 = load pos' 0) as H0 by reflexivity.
  assert (∀ j, 0 ≤ j < 2 → load pos j = load pos' j) as Hj.
  { intros j Hj. assert (j = 0 ∨ j = 1) as [-> | ->] by lia; reflexivity. }
  pose proof (accelerate_reads_the_first_N G_ref 2 0 pos pos' H0 Hj) as H.
  split; [exact H0|]. split; [exact Hj|exact H].
Defined.

(** An engine whose first two draws are zeros. *)
Lemma body_on_the_axis_gets_nan_velocity_witness :
  let draws := [dyadic 0 0; dyadic 0 0; dyadic 1 (-1)] in
  let st := initSimulation G_ref EPSILON_ref replay_engine (replay_seed draws)
              replay_draw 1 junk_one junk_one junk_one in
  0 ≤ 1 ∧ 1 + blockSize - 1 ≤ INT_MAX ∧ 0 ≤ 0 < 1
  ∧ is_zero (vx (generateRandomVec3 replay_engine (replay_seed draws) replay_draw
                   (float_of_int 1) 0)) = true
  ∧ is_zero (vy (generateRandomVec3 replay_engine (replay_seed draws) replay_draw
                   (float_of_int 1) 0)) = true
  ∧ all_nan (load (dev_vel st) 0) = true.
Proof.
  intros draws st.
  assert (0 ≤ 1) as HN by lia.
  assert (1 + blockSize - 1 ≤ INT_MAX) as Hhi by (vm_compute; discriminate).
  assert (0 ≤ 0 < 1) as Hi by lia.
  assert (is_zero (vx (generateRandomVec3 replay_engine (replay_seed draws) replay_draw
                         (float_of_int 1) 0)) = true) as Hx by reflexivity.
  assert (is_zero (vy (generateRandomVec3 replay_engine (replay_seed draws) replay_draw
                         (float_of_int 1) 0)) = true) as Hy by reflexivity.
  destruct (body_on_the_axis_gets_nan_velocity G_ref EPSILON_ref replay_engine
              (replay_seed draws) replay_draw 1 junk_one junk_one junk_one 0
              HN Hhi Hi Hx Hy) as (_ & _ & H).
  split; [exact HN|]. split; [exact Hhi|]. split; [exact Hi|]. split; [exact Hx|].
  split; [exact Hy|exact H].
Defined.

Lemma nan_velocity_reaches_the_position_witness :
  let st := mkstate 1 [glm.vec3_of_ints 3 0 4]
              [mkvec3 (dyadic 0 0) S754_nan (dyadic 0 0)] [origin] in
  let st' := stepSimulation G_ref (dyadic 1 (-1)) st in
  wf_state st ∧ 0 ≤ 0 < numObjects st
  ∧ has_nan (load (dev_vel st) 0) = true
  ∧ has_nan (load (dev_pos st') 0) = true.
Proof.
  intros st st'.
  assert (wf_state st) as Hwf by (split; (reflexivity || (vm_compute; discriminate))).
  assert (0 ≤ 0 < numObjects st) as Hi by (cbn; lia).
  assert (has_nan (load (dev_vel st) 0) = true) as Hnan by reflexivity.
  destruct (nan_velocity_reaches_the_position G_ref (dyadic 1 (-1)) st 0 Hwf Hi Hnan)
    as [_ H].
  split; [exact Hwf|]. split; [exact Hi|]. split; [exact Hnan|exact H].
Defined.

Lemma export_mirrors_the_scene_witness :
  let st := mkstate 2 [glm.vec3_of_ints 3 0 4; glm.vec3_of_ints (-50) 20 1]
              [origin; origin] [origin; origin] in
  let vbo := replicate 9 S754_nan in
  wf_state st ∧ 4 * numObjects st ≤ INT_MAX
  ∧ (Z.to_nat (4 * numObjects st) ≤ length vbo)%nat
  ∧ 0 ≤ 1 < numObjects st
  ∧ sign_bit <$> (copyPlanetsToVBO st vbo).2 !! Z.to_nat (4 * 1 + 0)
    = Some (negb <$> sign_bit (vx (load (dev_pos st) 1)))
  ∧ sign_bit <$> (copyPlanetsToVBO st vbo).2 !! Z.to_nat (4 * 1 + 1)
    = Some (negb <$> sign_bit (vy (load (dev_pos st) 1))).
Proof.
  intros st vbo.
  assert (wf_state st) as Hwf by (split; (reflexivity || (vm_compute; discriminate))).
  assert (4 * numObjects st ≤ INT_MAX) as H4 by (vm_compute; discriminate).
  assert (Z.to_nat (4 * numObjects st) ≤ length vbo)%nat as Hlen by (cbn; lia).
  assert (0 ≤ 1 < numObjects st) as Hi by (cbn; lia).
  destruct (export_mirrors_the_scene st vbo 1 Hwf H4 Hlen Hi) as (Hx & Hy & _).
  split; [exact Hwf|]. split; [exact H4|]. split; [exact Hlen|]. split; [exact Hi|].
  split; [exact Hx|exact Hy].
Defined.
